(** * proto_ros: ROS message definitions <-> Protobuf schemas

    A shallow embedding of the translation core of [proto_ros]:
    - [msg2proto]: the permissive PEG grammar for ROS [.msg] text, the
      visitor that flattens a parse into a document, and [generate_proto];
    - [protoc_gen_msg]: the protoc plugin that renders one [.msg] text per
      message of a parsed [.proto] file;
    - [protoc_gen_json]: the traversal and the naming of the plugin that
      lists the content of a parsed [.proto] file.

    Text is modelled as Rocq [string]s, i.e. sequences of 8-bit characters;
    the character classes of the regular expressions ([\w], [\d], [a-z], ...)
    are the ASCII ones.  Python sets are [gset string]; Python integers are
    unbounded ([nat] for the field counter, [Z] for enum numbers). *)

From Stdlib Require Import Ascii String.
From stdpp Require Import base strings list gmap pretty.
Import Ascii.

Set Warnings "-register-all".

(* stdpp keeps [simpl] from unfolding string append; the proofs below
   compute with it. *)
#[local] Arguments String.append !_ _ / : simpl nomatch.

(** ** Characters and strings as the Python code uses them *)

Definition code (c : ascii) : N := N_of_ascii c.

Definition in_range (lo hi c : ascii) : bool :=
  ((code lo <=? code c) && (code c <=? code hi))%N.

Definition is_lower (c : ascii) : bool := in_range "a" "z" c.
Definition is_upper (c : ascii) : bool := in_range "A" "Z" c.
Definition is_digit (c : ascii) : bool := in_range "0" "9" c.

(** [\w] restricted to 8-bit ASCII text. *)
Definition is_word (c : ascii) : bool :=
  is_lower c || is_upper c || is_digit c || Ascii.eqb c "_".

Definition LF : ascii := ascii_of_nat 10.
Definition CR : ascii := ascii_of_nat 13.
Definition TAB : ascii := ascii_of_nat 9.
Definition NL : string := String LF "".

(** [str.lower()] on ASCII text. *)
Definition lower_char (c : ascii) : ascii :=
  if is_upper c then ascii_of_N (code c + 32) else c.

Fixpoint lower (s : string) : string :=
  match s with
  | "" => ""
  | String c t => String (lower_char c) (lower t)
  end.

(** [s.replace(a, b)] for one-character [a] and [b]. *)
Fixpoint replace (a b : ascii) (s : string) : string :=
  match s with
  | "" => ""
  | String c t => String (if Ascii.eqb c a then b else c) (replace a b t)
  end.

(** [s.split(sep)] for a one-character separator: never the empty list. *)
Fixpoint split (sep : ascii) (s : string) : list string :=
  match s with
  | "" => [""]
  | String c t =>
      if Ascii.eqb c sep then "" :: split sep t
      else match split sep t with
           | h :: r => String c h :: r
           | [] => [String c ""]
           end
  end.

(** [sep.join(parts)]. *)
Fixpoint join (sep : string) (parts : list string) : string :=
  match parts with
  | [] => ""
  | [p] => p
  | p :: rest => p +:+ sep +:+ join sep rest
  end.

(** [s[1:]]. *)
Definition tail (s : string) : string :=
  match s with
  | "" => ""
  | String _ t => t
  end.

(** [s.startswith(p)]. *)
Fixpoint startswith (p s : string) : bool :=
  match p, s with
  | "", _ => true
  | String a p', String b s' => Ascii.eqb a b && startswith p' s'
  | String _ _, "" => false
  end.

(** [parts[-1] = x] on a non-empty list. *)
Fixpoint set_last (x : string) (parts : list string) : list string :=
  match parts with
  | [] => []
  | [_] => [x]
  | p :: rest => p :: set_last x rest
  end.

(** The longest prefix of [s] whose characters satisfy [p], and the rest:
    a greedy [[class]*]. *)
Fixpoint span (p : ascii → bool) (s : string) : string * string :=
  match s with
  | "" => ("", "")
  | String c t =>
      if p c then let '(a, r) := span p t in (String c a, r) else ("", s)
  end.

(** The same with at least one character: a greedy [[class]+]. *)
Definition span1 (p : ascii → bool) (s : string) : option (string * string) :=
  match span p s with
  | ("", _) => None
  | (a, r) => Some (a, r)
  end.

(** The double and the single quote character. *)
Definition DQ : ascii := ascii_of_nat 34.
Definition SQ : ascii := ascii_of_nat 39.
Definition dq : string := String DQ "".

(** Python truthiness of a string: non-empty. *)
Definition truthy (s : string) : bool := negb (String.eqb s "").

(** A Python dict literal: a later duplicate key
    overwrites an earlier one. *)
Definition py_dict {K V} `{Countable K} (entries : list (K * V)) : gmap K V :=
  foldl (λ m kv, <[kv.1 := kv.2]> m) ∅ entries.

(** [d.get(k, dflt)]. *)
Definition dict_get {K V} `{Countable K} (d : gmap K V) (k : K) (dflt : V) : V :=
  default dflt (d !! k).

(** ** msg2proto.py: from ROS message text to a proto3 schema *)

Module msg2proto.

(** *** The document model built by [MsgVisitor] *)

(** The dict under the key [type]: [is_complextype] is set only by
    [visit_complextype], [arraybound] only by [visit_arrayspec]. *)
Record TypeRef := {
  package : string;
  typename : string;
  is_complextype : bool;
  is_array : bool;
  arraybound : option string;
}.

(** The dict under the key [field] or [constant]. *)
Record Params := {
  type : TypeRef;
  name : string;
  value : string;
  comment : string;
}.

(** One item of the parsed message: a dict with exactly one key. *)
Inductive Line :=
  | Emptyline
  | Comment (text : string)
  | Field (params : Params)
  | Constant (params : Params).

Abbreviation Document := (list Line).

(** *** TypeMap, forward direction *)

Definition type_table : list (string * string) := [
  ("float64", "double");
  ("float32", "float");
  ("int64", "int64");
  ("uint64", "uint64");
  ("int32", "int32");
  ("uint32", "uint32");
  ("int16", "int32");
  ("uint16", "uint32");
  ("int8", "int32");
  ("uint8", "uint32");
  ("byte", "uint32");
  ("bool", "bool");
  ("char", "string");
  ("string", "string");
  ("wstring", "string");
  ("Header", "std_msgs.Header");
  ("builtin_interfaces/Time", "google.protobuf.Timestamp");
  ("builtin_interfaces/Duration", "google.protobuf.Duration");
  ("std_msgs/Float64", "google.protobuf.DoubleValue");
  ("std_msgs/Float32", "google.protobuf.FloatValue");
  ("std_msgs/Int64", "google.protobuf.Int64Value");
  ("std_msgs/UInt64", "google.protobuf.UInt64Value");
  ("std_msgs/Int32", "google.protobuf.Int32Value");
  ("std_msgs/UInt32", "google.protobuf.UInt32Value");
  ("std_msgs/Bool", "google.protobuf.BoolValue");
  ("std_msgs/String", "google.protobuf.StringValue");
  ("std_msgs/String", "google.protobuf.BytesValue")
].

Definition map_type (field_type : string) : string :=
  dict_get (py_dict type_table) field_type (replace "/" "." field_type).

(** *** to_snake_case: three [re.sub] passes, then [lower()] *)

(** [re.sub('(.)([A-Z][a-z]+)', r'\1_\2', name)].  [in_run] tells that the
    scan is inside the [[a-z]+] of a match, whose characters are consumed
    and cannot start another match. *)
Fixpoint sub_word (in_run : bool) (s : string) : string :=
  match s with
  | "" => ""
  | String c t =>
      if in_run && is_lower c then String c (sub_word true t)
      else
        match t with
        | String u (String l _ as t') =>
            if negb (Ascii.eqb c LF) && is_upper u && is_lower l
            then String c (String "_" (String u (sub_word true t')))
            else String c (sub_word false t)
        | _ => String c (sub_word false t)
        end
  end.

(** [re.sub('__([A-Z])', r'_\1', name)]. *)
Fixpoint sub_underscores (s : string) : string :=
  match s with
  | "" => ""
  | String c t =>
      match t with
      | String c2 (String u t') =>
          if Ascii.eqb c "_" && Ascii.eqb c2 "_" && is_upper u
          then String "_" (String u (sub_underscores t'))
          else String c (sub_underscores t)
      | _ => String c (sub_underscores t)
      end
  end.

(** [re.sub('([a-z0-9])([A-Z])', r'\1_\2', name)]. *)
Fixpoint sub_camel (s : string) : string :=
  match s with
  | "" => ""
  | String c t =>
      match t with
      | String u t' =>
          if (is_lower c || is_digit c) && is_upper u
          then String c (String "_" (String u (sub_camel t')))
          else String c (sub_camel t)
      | _ => String c (sub_camel t)
      end
  end.

Definition to_snake_case (name : string) : string :=
  lower (sub_camel (sub_underscores (sub_word false name))).

(** *** The grammar, with the values [MsgVisitor] builds from each rule

    Every rule is a function from the remaining input to the value the
    visitor returns for the rule and the input left after the match;
    [None] is a failed match.  Ordered choice tries its alternatives in
    order and never reconsiders a successful one; a regular expression
    contributes its single leftmost greedy match. *)

Module grammar.

Definition is_sp (c : ascii) : bool := Ascii.eqb c " " || Ascii.eqb c TAB.
Definition is_eol (c : ascii) : bool := Ascii.eqb c LF || Ascii.eqb c CR.
Definition is_not (x c : ascii) : bool := negb (Ascii.eqb c x).

(** A literal: the input after it. *)
Fixpoint lit (l s : string) : option string :=
  match l, s with
  | "", _ => Some s
  | String a l', String b s' => if Ascii.eqb a b then lit l' s' else None
  | String _ _, "" => None
  end.

(** [[first][rest]*] *)
Definition ident (first rest : ascii → bool) (s : string) : option (string * string) :=
  match s with
  | String c t =>
      if first c then let '(a, r) := span rest t in Some (String c a, r) else None
  | "" => None
  end.

(** [open[^close]*close] *)
Definition bracketed (open close : ascii) (s : string) : option (string * string) :=
  match s with
  | String c t =>
      if Ascii.eqb c open then
        match span (is_not close) t with
        | (body, String _ r) => Some (String open (body +:+ String close ""), r)
        | (_, "") => None
        end
      else None
  | "" => None
  end.

(** [[a-z]?q[^q]*q]: the optional letter is given back when the rest of
    the expression does not match after it. *)
Definition quoted (q : ascii) (s : string) : option (string * string) :=
  let prefixed :=
    match s with
    | String c t =>
        if is_lower c then '(m, r) ← bracketed q q t; Some (String c m, r) else None
    | "" => None
    end in
  match prefixed with
  | Some res => Some res
  | None => bracketed q q s
  end.

(** SP = [[ \t]*]: always matches; the input after the blanks. *)
Definition SP (s : string) : string := (span is_sp s).2.

(** EOL = [[\n\r]] *)
Definition EOL (s : string) : option string :=
  match s with
  | String c t => if is_eol c then Some t else None
  | "" => None
  end.

(** text = [.*]: the dot matches everything but a line feed. *)
Definition text (s : string) : string * string := span (is_not LF) s.

(** arrayval = [\[[^\]]*\]] *)
Definition arrayval (s : string) : option (string * string) := bracketed "[" "]" s.

(** stringval: double-quoted, else single-quoted. *)
Definition stringval (s : string) : option (string * string) :=
  match quoted DQ s with
  | Some res => Some res
  | None => quoted SQ s
  end.

(** boolval = [[Tt]rue] / [[Ff]alse] *)
Definition boolval (s : string) : option (string * string) :=
  match s with
  | String c t =>
      if Ascii.eqb c "T" || Ascii.eqb c "t" then
        r ← lit "rue" t; Some (String c "rue", r)
      else if Ascii.eqb c "F" || Ascii.eqb c "f" then
        r ← lit "alse" t; Some (String c "alse", r)
      else None
  | "" => None
  end.

(** numericval = [[-+\.bBoOxX\d]+] *)
Definition is_numeric (c : ascii) : bool :=
  is_digit c ||
  existsb (Ascii.eqb c) ["-"; "+"; "."; "b"; "B"; "o"; "O"; "x"; "X"]%char.

Definition numericval (s : string) : option (string * string) := span1 is_numeric s.

(** value = numericval / boolval / stringval / arrayval; [visit_value]
    keeps the matched text. *)
Definition value (s : string) : option (string * string) :=
  match numericval s with
  | Some res => Some res
  | None =>
      match boolval s with
      | Some res => Some res
      | None =>
          match stringval s with
          | Some res => Some res
          | None => arrayval s
          end
      end
  end.

Definition constname : string → option (string * string) :=
  ident is_upper (λ c, is_upper c || is_digit c || Ascii.eqb c "_").
Definition fieldname : string → option (string * string) :=
  ident is_lower (λ c, is_lower c || is_digit c || Ascii.eqb c "_").
Definition packagename : string → option (string * string) :=
  ident is_lower (λ c, is_lower c || Ascii.eqb c "_").
Definition msgname : string → option (string * string) :=
  ident is_upper is_word.

(** stringbound = [<=\d+] *)
Definition stringbound (s : string) : option (string * string) :=
  r ← lit "<=" s; '(d, r') ← span1 is_digit r; Some ("<=" +:+ d, r').

(** arraybound = [(<=)?\d+] *)
Definition arraybound (s : string) : option (string * string) :=
  match stringbound s with
  | Some res => Some res
  | None => span1 is_digit s
  end.

(** primitivetype = [[a-z0-9]+]; [visit_primitivetype]. *)
Definition primitivetype (s : string) : option (string * string * bool * string) :=
  '(t, r) ← span1 (λ c, is_lower c || is_digit c) s; Some ("", t, false, r).

(** stringtype = "string" stringbound?; [visit_stringtype] drops the bound. *)
Definition stringtype (s : string) : option (string * string * bool * string) :=
  r ← lit "string" s;
  let r' := match stringbound r with Some (_, r') => r' | None => r end in
  Some ("", "string", false, r').

(** complextype = (packagename "/")? msgname; [visit_complextype]. *)
Definition complextype (s : string) : option (string * string * bool * string) :=
  let '(pkg, r) :=
    match ('(p, r) ← packagename s; r' ← lit "/" r; Some (p, r')) with
    | Some res => res
    | None => ("", s)
    end in
  '(m, r') ← msgname r; Some (pkg, m, true, r').

(** basetype = complextype / stringtype / primitivetype: the keys
    [package], [typename] and [is_complextype] of the type, and the rest. *)
Definition basetype (s : string) : option (string * string * bool * string) :=
  match complextype s with
  | Some res => Some res
  | None =>
      match stringtype s with
      | Some res => Some res
      | None => primitivetype s
      end
  end.

(** arrayspec = "[" arraybound? "]"; [visit_arrayspec] keeps the bound,
    the empty text when there is none. *)
Definition arrayspec (s : string) : option (string * string) :=
  r ← lit "[" s;
  let '(b, r') := match arraybound r with Some res => res | None => ("", r) end in
  r'' ← lit "]" r'; Some (b, r'').

(** type = basetype arrayspec?; [visit_type] merges the two dicts. *)
Definition type (s : string) : option (TypeRef * string) :=
  '(pkg, t, cx, r) ← basetype s;
  match arrayspec r with
  | Some (b, r') => Some (Build_TypeRef pkg t cx true (Some b), r')
  | None => Some (Build_TypeRef pkg t cx false None, r)
  end.

(** comment = "#"+ SP text; [visit_comment] keeps the text ([asscalar]
    returns a text that ends with no NUL character as it is). *)
Definition comment (s : string) : option (string * string) :=
  '(_, r) ← span1 (Ascii.eqb "#") s; Some (text (SP r)).

(** An optional trailing value or comment: the empty text when absent. *)
Definition opt (p : string → option (string * string)) (s : string) : string * string :=
  match p s with
  | Some res => res
  | None => ("", s)
  end.

(** field = type SP fieldname SP !"=" value? SP comment?; [visit_field]. *)
Definition field (s : string) : option (Params * string) :=
  '(t, r) ← type s;
  '(n, r) ← fieldname (SP r);
  let r := SP r in
  match lit "=" r with
  | Some _ => None
  | None =>
      let '(v, r) := opt value r in
      let '(c, r) := opt comment (SP r) in
      Some (Build_Params t n v c, r)
  end.

(** constant = type SP constname SP "=" SP value SP comment?;
    [visit_constant]. *)
Definition constant (s : string) : option (Params * string) :=
  '(t, r) ← type s;
  '(n, r) ← constname (SP r);
  r ← lit "=" (SP r);
  '(v, r) ← value (SP r);
  let '(c, r) := opt comment (SP r) in
  Some (Build_Params t n v c, r).

(** definition = constant / field *)
Definition definition (s : string) : option (Line * string) :=
  match constant s with
  | Some (p, r) => Some (Constant p, r)
  | None => '(p, r) ← field s; Some (Field p, r)
  end.

(** line = SP (comment / definition)? SP EOL; [visit_line] returns the
    optional payload, [None] when the line has none. *)
Definition line (s : string) : option (option Line * string) :=
  let s := SP s in
  let '(payload, r) :=
    match comment s with
    | Some (c, r) => (Some (Comment c), r)
    | None =>
        match definition s with
        | Some (d, r) => (Some d, r)
        | None => (None, s)
        end
    end in
  r ← EOL (SP r); Some (payload, r).

(** emptyline = SP EOL; [visit_emptyline]. *)
Definition emptyline (s : string) : option (Line * string) :=
  r ← EOL (SP s); Some (Emptyline, r).

(** emptyline / line: one item of the document.  A line without payload
    is blanks and an end of line, which [emptyline] has just refused at
    the same place, so that branch is never taken
    (lemma [line_has_payload]). *)
Definition item (s : string) : option (Line * string) :=
  match emptyline s with
  | Some res => Some res
  | None =>
      match line s with
      | Some (Some l, r) => Some (l, r)
      | _ => None
      end
  end.

(** msg = (emptyline / line)*: the items matched and the input left where
    the repetition stops.  Every item consumes a character, so [fuel]
    bounds the number of items by the length of the input. *)
Fixpoint msg (fuel : nat) (s : string) : list Line * string :=
  match fuel with
  | 0 => ([], s)
  | S fuel' =>
      match item s with
      | Some (l, r) => let '(ls, r') := msg fuel' r in (l :: ls, r')
      | None => ([], s)
      end
  end.

(** [grammar.parse]: the match of [msg] must reach the end of the text;
    [None] stands for [ParseError] ([IncompleteParseError]). *)
Definition parse (text : string) : option Document :=
  match msg (String.length text) text with
  | (doc, "") => Some doc
  | (_, String _ _) => None
  end.

End grammar.

(** [parse_msg]: the document, or [None] when the grammar rejects the text. *)
Definition parse_msg (msg : string) : option Document := grammar.parse msg.

(** *** generate_proto *)

Definition INDENT : string := "  ".

(** The loop variables of [generate_proto]. *)
Record State := {
  message : string;
  fieldnumber : nat;
  imports : gset string;
}.

(** The mapped type name of a field: [namespace/typename] through
    [map_type]. *)
Definition mapped_typename (t : TypeRef) : string :=
  let typename := typename t in
  let namespace := package t in
  let typename := if truthy namespace then namespace +:+ "/" +:+ typename else typename in
  map_type typename.

(** [typename_parts] as it stands when its last part is compared with
    [msg_name]. *)
Definition typename_parts (pkg : string) (t : TypeRef) : list string :=
  let typename_parts := split "." (mapped_typename t) in
  if Nat.eqb (length typename_parts) 1 then pkg :: typename_parts else typename_parts.

(** The import set after a field of type [t]. *)
Definition add_import (msg_name pkg : string) (t : TypeRef) (imports : gset string)
    : gset string :=
  if is_complextype t then
    let parts := typename_parts pkg t in
    let final := default "" (last parts) in
    if negb (String.eqb final msg_name) then
      {[ join "/" (set_last (to_snake_case final) parts) ]} ∪ imports
    else imports
  else imports.

(** The text added to [message] for a field numbered [fieldnumber]. *)
Definition field_text (p : Params) (fieldnumber : nat) : string :=
  let field := INDENT in
  let type := type p in
  let label := if is_array type then "repeated" else "" in
  let field := if truthy label then field +:+ label +:+ " " else field in
  let field := field +:+ mapped_typename type +:+ " " in
  let field := field +:+ name p +:+ " = " +:+ pretty fieldnumber +:+ ";" in
  let comment := comment p in
  let comment :=
    match arraybound type with
    | Some bound => if truthy bound then "[" +:+ bound +:+ "] " +:+ comment else comment
    | None => comment
    end in
  let field := if truthy comment then field +:+ " // " +:+ comment else field in
  field +:+ NL.

(** The text added to [message] for a constant. *)
Definition constant_text (p : Params) : string :=
  let constant := INDENT +:+ "// " in
  let constant := constant +:+ INDENT in
  let constant := constant +:+ name p +:+ " = " +:+ value p +:+ ";" in
  let constant :=
    if truthy (comment p) then constant +:+ " // " +:+ comment p else constant in
  constant +:+ NL.

(** The text added to [message] for a comment line. *)
Definition comment_text (text : string) : string :=
  INDENT +:+ ("// " +:+ text) +:+ NL.

(** One turn of the loop over [parsed_msg]. *)
Definition step (msg_name pkg : string) (st : State) (line : Line) : State :=
  match line with
  | Emptyline =>
      {| message := message st +:+ NL;
         fieldnumber := fieldnumber st;
         imports := imports st |}
  | Comment text =>
      {| message := message st +:+ comment_text text;
         fieldnumber := fieldnumber st;
         imports := imports st |}
  | Field p =>
      {| message := message st +:+ field_text p (fieldnumber st);
         fieldnumber := fieldnumber st + 1;
         imports := add_import msg_name pkg (type p) (imports st) |}
  | Constant p =>
      {| message := message st +:+ constant_text p;
         fieldnumber := fieldnumber st;
         imports := imports st |}
  end.

Definition initial (msg_name : string) : State :=
  {| message := "message " +:+ msg_name +:+ " {" +:+ NL;
     fieldnumber := 1;
     imports := ∅ |}.

(** The state when the loop over [parsed_msg] ends. *)
Definition walk (parsed_msg : Document) (msg_name pkg : string) : State :=
  foldl (step msg_name pkg) (initial msg_name) parsed_msg.

(** The import lines.  Python leaves the iteration order of a set
    unspecified; [elements] fixes one. *)
Definition import_lines (imports : gset string) : string :=
  foldl (λ proto i, proto +:+ "import " +:+ dq +:+ i +:+ ".proto" +:+ dq +:+ ";" +:+ NL)
        "" (elements imports).

Definition generate_proto (parsed_msg : Document) (msg_name pkg : string) : string :=
  let proto := "// This file was generated. DO NOT EDIT!" +:+ NL in
  let proto := proto +:+ NL in
  let proto := proto +:+ "syntax = " +:+ dq +:+ "proto3" +:+ dq +:+ ";" +:+ NL in
  let proto :=
    if negb (String.eqb pkg "") then proto +:+ NL +:+ "package " +:+ pkg +:+ ";" +:+ NL
    else proto in
  let st := walk parsed_msg msg_name pkg in
  let message := message st +:+ "}" in
  let proto :=
    if decide (imports st = ∅) then proto
    else proto +:+ NL +:+ import_lines (imports st) in
  proto +:+ NL +:+ message.

(** [convert_msg_file] without the file system: the text written for the
    message file [msg_name] with content [msg], or [None] when nothing is
    written (no document, or an empty one). *)
Definition convert_msg_file (msg_name msg pkg : string) : option string :=
  match parse_msg msg with
  | Some (l :: ls) => Some (generate_proto (l :: ls) msg_name pkg)
  | Some [] => None
  | None => None
  end.

End msg2proto.

(** ** protoc_gen_msg.py: from a parsed proto file to ROS message text *)

Module protoc_gen_msg.

(** *** The descriptor model of [google.protobuf]

    The plugin reads these messages of [descriptor.proto] and
    [plugin.proto]; only the fields it touches are kept.  The numeric
    values of [FieldDescriptorProto.Type] and [FieldDescriptorProto.Label]
    are those of [descriptor.proto]. *)

Definition TYPE_DOUBLE : Z := 1.
Definition TYPE_FLOAT : Z := 2.
Definition TYPE_INT64 : Z := 3.
Definition TYPE_UINT64 : Z := 4.
Definition TYPE_INT32 : Z := 5.
Definition TYPE_FIXED64 : Z := 6.
Definition TYPE_FIXED32 : Z := 7.
Definition TYPE_BOOL : Z := 8.
Definition TYPE_STRING : Z := 9.
Definition TYPE_GROUP : Z := 10.
Definition TYPE_MESSAGE : Z := 11.
Definition TYPE_BYTES : Z := 12.
Definition TYPE_UINT32 : Z := 13.
Definition TYPE_ENUM : Z := 14.
Definition TYPE_SFIXED32 : Z := 15.
Definition TYPE_SFIXED64 : Z := 16.
Definition TYPE_SINT32 : Z := 17.
Definition TYPE_SINT64 : Z := 18.

Definition LABEL_OPTIONAL : Z := 1.
Definition LABEL_REQUIRED : Z := 2.
Definition LABEL_REPEATED : Z := 3.

Record FieldDescriptorProto := {
  field_name : string;
  field_label : Z;
  field_type : Z;
  field_type_name : string;
}.

Record EnumValueDescriptorProto := {
  value_name : string;
  value_number : Z;
}.

Record EnumDescriptorProto := {
  enum_name : string;
  enum_value : list EnumValueDescriptorProto;
}.

Inductive DescriptorProto := {
  message_name : string;
  message_field : list FieldDescriptorProto;
  nested_type : list DescriptorProto;
  message_enum_type : list EnumDescriptorProto;
}.

Record FileDescriptorProto := {
  package : string;
  message_type : list DescriptorProto;
  enum_type : list EnumDescriptorProto;
}.

Record CodeGeneratorRequest := {
  proto_file : list FileDescriptorProto;
}.

Record File := {
  file_name : string;
  file_content : string;
}.

Record CodeGeneratorResponse := {
  error : option string;
  file : list File;
}.

Definition CONSTANT_FIELD_TYPE : string := "uint8".

(** *** TypeMap, reverse direction *)

Definition type_table : list (Z * string) := [
  (TYPE_DOUBLE, "float64");
  (TYPE_FLOAT, "float32");
  (TYPE_INT64, "int64");
  (TYPE_UINT64, "uint64");
  (TYPE_INT32, "int32");
  (TYPE_FIXED64, "uint64");
  (TYPE_FIXED32, "uint32");
  (TYPE_BOOL, "bool");
  (TYPE_STRING, "string");
  (TYPE_GROUP, "TYPE_GROUP");
  (TYPE_MESSAGE, "TYPE_MESSAGE");
  (TYPE_BYTES, "string");
  (TYPE_UINT32, "uint32");
  (TYPE_ENUM, "TYPE_ENUM");
  (TYPE_SFIXED32, "int32");
  (TYPE_SFIXED64, "int64");
  (TYPE_SINT32, "int32");
  (TYPE_SINT64, "int64")
].

Definition map_type (field_type : Z) : string :=
  dict_get (py_dict type_table) field_type "string".

Definition type_name_table : list (string * string) := [
  ("google.protobuf.Timestamp", "builtin_interfaces/Time");
  ("google.protobuf.Duration", "builtin_interfaces/Duration");
  ("google.protobuf.Empty", "std_msgs/Empty");
  ("google.protobuf.DoubleValue", "std_msgs/Float64");
  ("google.protobuf.FloatValue", "std_msgs/Float32");
  ("google.protobuf.Int64Value", "std_msgs/Int64");
  ("google.protobuf.UInt64Value", "std_msgs/UInt64");
  ("google.protobuf.Int32Value", "std_msgs/Int32");
  ("google.protobuf.UInt32Value", "std_msgs/UInt32");
  ("google.protobuf.BoolValue", "std_msgs/Bool");
  ("google.protobuf.StringValue", "std_msgs/String");
  ("google.protobuf.BytesValue", "std_msgs/String")
].

Definition map_type_name (field_type_name : string) : string :=
  dict_get (py_dict type_name_table) field_type_name "std_msgs/String".

Definition label_table : list (Z * string) := [
  (LABEL_OPTIONAL, "LABEL_OPTIONAL");
  (LABEL_REPEATED, "LABEL_REPEATED");
  (LABEL_REQUIRED, "LABEL_REQUIRED")
].

(** [map.get(label_type, label_type)]: the name of the label, or the
    number itself when it has none. *)
Definition map_label (label_type : Z) : string + Z :=
  match py_dict label_table !! label_type with
  | Some l => inl l
  | None => inr label_type
  end.

(** [x == s] for [x] a string or a number and [s] a string. *)
Definition eq_str (x : string + Z) (s : string) : bool :=
  match x with
  | inl x => String.eqb x s
  | inr _ => false
  end.

(** *** generate_message *)

(** Lines 92 to 101: the type written for a field of message kind.
    [None] stands for the [IndexError] of [split('.')[1]] on a type name
    without a period. *)
Definition message_fieldtype (type_name pkg : string) : option string :=
  let fieldtype := type_name in
  second ← split "." fieldtype !! 1;
  let fieldtype :=
    if String.eqb second pkg then default "" (last (split "." fieldtype))
    else tail fieldtype in
  let fieldtype :=
    if startswith "google.protobuf" fieldtype then map_type_name fieldtype
    else fieldtype in
  Some (replace "." "/" fieldtype).

(** The local enum name of a field of enum kind. *)
Definition enum_name_of (type_name : string) : string :=
  default "" (last (split "." type_name)).

(** One turn of the loop over [message.field]: the text of the line and
    the set of referenced enums after it. *)
Definition field_line (pkg : string) (f : FieldDescriptorProto)
    (referenced_enums : gset string) : option (string * gset string) :=
  let fieldname := field_name f in
  let mapped_field_type := map_type (field_type f) in
  '(fieldtype, fieldcomment, referenced_enums) ←
    (if String.eqb mapped_field_type "TYPE_MESSAGE" then
       fieldtype ← message_fieldtype (field_type_name f) pkg;
       Some (fieldtype, "", referenced_enums)
     else if String.eqb mapped_field_type "TYPE_ENUM" then
       let enum_name := enum_name_of (field_type_name f) in
       Some (CONSTANT_FIELD_TYPE, "# " +:+ enum_name, {[ enum_name ]} ∪ referenced_enums)
     else Some (mapped_field_type, "", referenced_enums));
  let fieldtype :=
    if eq_str (map_label (field_label f)) "LABEL_REPEATED" then fieldtype +:+ "[]"
    else fieldtype in
  Some (fieldtype +:+ " " +:+ fieldname +:+ " " +:+ fieldcomment +:+ NL, referenced_enums).

Fixpoint message_fields (pkg : string) (fields : list FieldDescriptorProto)
    (output : string) (referenced_enums : gset string) : option (string * gset string) :=
  match fields with
  | [] => Some (output, referenced_enums)
  | f :: rest =>
      '(l, referenced_enums) ← field_line pkg f referenced_enums;
      message_fields pkg rest (output +:+ l) referenced_enums
  end.

(** [generate_message]: the output, the referenced enums and [errors],
    which is never set. *)
Definition generate_message (message : DescriptorProto) (pkg : string)
    : option (string * gset string * option string) :=
  let errors := None in
  let output := "# This file was generated. DO NOT EDIT!" +:+ NL +:+ NL in
  let output := output +:+ "# " +:+ message_name message +:+ NL in
  '(output, referenced_enums) ← message_fields pkg (message_field message) output ∅;
  Some (output, referenced_enums, errors).

Definition generate_enum (enum : EnumDescriptorProto) : string :=
  foldl (λ output value,
           output +:+ CONSTANT_FIELD_TYPE +:+ " " +:+ value_name value +:+ "="
                  +:+ pretty (value_number value) +:+ NL)
        (NL +:+ "# " +:+ enum_name enum +:+ NL) (enum_value enum).

(** *** generate_msg_file *)

(** One turn of the loop that adds the referenced enums. *)
Definition add_enum (acc : string * gset string) (enum : EnumDescriptorProto)
    : string * gset string :=
  let '(output, referenced_enums) := acc in
  if bool_decide (enum_name enum ∈ referenced_enums) then
    (output +:+ generate_enum enum, referenced_enums ∖ {[ enum_name enum ]})
  else (output, referenced_enums).

Definition add_referenced_enums (enums : list EnumDescriptorProto)
    (output : string) (referenced_enums : gset string) : string * gset string :=
  foldl add_enum (output, referenced_enums) enums.

Definition generate_msg_file (message : DescriptorProto) (pkg : string)
    (enums : list EnumDescriptorProto) (response : CodeGeneratorResponse)
    : option CodeGeneratorResponse :=
  '(output, referenced_enums, errors) ← generate_message message pkg;
  let '(output, _) := add_referenced_enums enums output referenced_enums in
  match errors with
  | Some e => Some {| error := Some e; file := file response |}
  | None =>
      let f := {| file_name := pkg +:+ "/" +:+ message_name message +:+ ".msg";
                  file_content := output |} in
      Some {| error := error response; file := file response ++ [f] |}
  end.

(** *** collect_enums, generate_msg_files, generate_code

    [enums = proto_file.enum_type] is the descriptor's own list, not a
    copy: [enums.extend] appends to the list inside [proto_file].  The
    functions therefore return the descriptor as the call leaves it. *)

Definition collect_enums (proto_file : FileDescriptorProto)
    : list EnumDescriptorProto * FileDescriptorProto :=
  let enums :=
    foldl (λ enums message, enums ++ message_enum_type message)
          (enum_type proto_file) (message_type proto_file) in
  (enums, {| package := package proto_file;
             message_type := message_type proto_file;
             enum_type := enums |}).

(** The loop over the nested messages of one message. *)
Fixpoint nested_msg_files (nested : list DescriptorProto) (pkg : string)
    (enums : list EnumDescriptorProto) (response : CodeGeneratorResponse)
    : option CodeGeneratorResponse :=
  match nested with
  | [] => Some response
  | nested_message :: rest =>
      response ← generate_msg_file nested_message pkg enums response;
      nested_msg_files rest pkg enums response
  end.

(** The loop over the messages of the file. *)
Fixpoint msg_files (messages : list DescriptorProto) (pkg : string)
    (enums : list EnumDescriptorProto) (response : CodeGeneratorResponse)
    : option CodeGeneratorResponse :=
  match messages with
  | [] => Some response
  | message :: rest =>
      response ← generate_msg_file message pkg enums response;
      response ← nested_msg_files (nested_type message) pkg enums response;
      msg_files rest pkg enums response
  end.

Definition generate_msg_files (proto_file : FileDescriptorProto)
    (response : CodeGeneratorResponse)
    : option (FileDescriptorProto * CodeGeneratorResponse) :=
  let '(enums, proto_file) := collect_enums proto_file in
  response ← msg_files (message_type proto_file) (package proto_file) enums response;
  Some (proto_file, response).

(** [generate_code]: the request and the response as the call leaves
    them; [None] stands for an exception ([IndexError] on a request
    without files, or raised by [generate_message]). *)
Definition generate_code (request : CodeGeneratorRequest)
    (response : CodeGeneratorResponse)
    : option (CodeGeneratorRequest * CodeGeneratorResponse) :=
  proto_file ← last (proto_file request);
  '(proto_file, response) ← generate_msg_files proto_file response;
  Some ({| proto_file := removelast (protoc_gen_msg.proto_file request) ++ [proto_file] |},
        response).

End protoc_gen_msg.

(** ** protoc_gen_json.py: the content of a parsed proto file as a list

    The plugin walks the same descriptors as [protoc_gen_msg]; the
    traversal and the naming of types and labels are embedded here. *)

Module protoc_gen_json.

(** *** traverse *)

(** What the traversal yields: an enum or a message, which the code tells
    apart with [isinstance]. *)
Inductive Item :=
  | Enum (enum : protoc_gen_msg.EnumDescriptorProto)
  | Message (message : protoc_gen_msg.DescriptorProto).

(** [_traverse]: the items the generator yields, each with its package.
    For a message these are the message, its nested enums and its nested
    messages; [nested_package] is computed for the nested enums too, but
    they are yielded with [package]. *)
Definition _traverse (package : string) (items : list Item) : list (Item * string) :=
  flat_map
    (λ item,
       (item, package) ::
       match item with
       | Message message =>
           ((λ enum, (Enum enum, package))
              <$> protoc_gen_msg.message_enum_type message)
           ++ ((λ nested_item,
                  (Message nested_item,
                   package +:+ "." +:+ protoc_gen_msg.message_name message))
                 <$> protoc_gen_msg.nested_type message)
       | Enum _ => []
       end)
    items.

(** [traverse]: the chain of the two generators. *)
Definition traverse (proto_file : protoc_gen_msg.FileDescriptorProto)
    : list (Item * string) :=
  _traverse (protoc_gen_msg.package proto_file)
            (Enum <$> protoc_gen_msg.enum_type proto_file)
  ++ _traverse (protoc_gen_msg.package proto_file)
               (Message <$> protoc_gen_msg.message_type proto_file).

(** *** The names of types and labels *)

Definition type_table : list (Z * string) := [
  (protoc_gen_msg.TYPE_DOUBLE, "TYPE_DOUBLE");
  (protoc_gen_msg.TYPE_FLOAT, "TYPE_FLOAT");
  (protoc_gen_msg.TYPE_INT64, "TYPE_INT64");
  (protoc_gen_msg.TYPE_UINT64, "TYPE_UINT64");
  (protoc_gen_msg.TYPE_INT32, "TYPE_INT32");
  (protoc_gen_msg.TYPE_FIXED64, "TYPE_FIXED64");
  (protoc_gen_msg.TYPE_FIXED32, "TYPE_FIXED32");
  (protoc_gen_msg.TYPE_BOOL, "TYPE_BOOL");
  (protoc_gen_msg.TYPE_STRING, "TYPE_STRING");
  (protoc_gen_msg.TYPE_GROUP, "TYPE_GROUP");
  (protoc_gen_msg.TYPE_MESSAGE, "TYPE_MESSAGE");
  (protoc_gen_msg.TYPE_BYTES, "TYPE_BYTES");
  (protoc_gen_msg.TYPE_UINT32, "TYPE_UINT32");
  (protoc_gen_msg.TYPE_ENUM, "TYPE_ENUM");
  (protoc_gen_msg.TYPE_SFIXED32, "TYPE_SFIXED32");
  (protoc_gen_msg.TYPE_SFIXED64, "TYPE_SFIXED64");
  (protoc_gen_msg.TYPE_SINT32, "TYPE_SINT32");
  (protoc_gen_msg.TYPE_SINT64, "TYPE_SINT64")
].

(** [type_map.get(field_type, field_type)]: the name of the type, or the
    number itself when it has none. *)
Definition map_type (field_type : Z) : string + Z :=
  match py_dict type_table !! field_type with
  | Some name => inl name
  | None => inr field_type
  end.

Definition label_table : list (Z * string) := [
  (protoc_gen_msg.LABEL_OPTIONAL, "LABEL_OPTIONAL");
  (protoc_gen_msg.LABEL_REPEATED, "LABEL_REPEATED");
  (protoc_gen_msg.LABEL_REQUIRED, "LABEL_REQUIRED")
].

Definition map_label (label_type : Z) : string + Z :=
  match py_dict label_table !! label_type with
  | Some name => inl name
  | None => inr label_type
  end.

End protoc_gen_json.

(** * Vocabulary of the statements *)

Section vocabulary.
Import msg2proto.

Definition is_field (l : Line) : bool :=
  match l with Field _ => true | _ => false end.

Definition count_fields (doc : Document) : nat := length (filter is_field doc).

(** The text [step] appends for an item when the counter is [n]. *)
Definition line_text (l : Line) (n : nat) : string :=
  match l with
  | Emptyline => NL
  | Comment text => comment_text text
  | Field p => field_text p n
  | Constant p => constant_text p
  end.

(** The text of a comment or of an empty line, the items that only lay
    the output out. *)
Definition layout_text (l : Line) : option string :=
  match l with
  | Emptyline => Some NL
  | Comment text => Some (comment_text text)
  | _ => None
  end.

(** The run of the loop from [st] over [doc], as a list: every item with
    the value of [fieldnumber] when its turn starts. *)
Fixpoint trace (msg_name pkg : string) (st : State) (doc : Document)
    : list (Line * nat) :=
  match doc with
  | [] => []
  | l :: ls => (l, fieldnumber st) :: trace msg_name pkg (step msg_name pkg st l) ls
  end.

Definition concat_text (tr : list (Line * nat)) : string :=
  foldr (λ ln acc, line_text ln.1 ln.2 +:+ acc) "" tr.

End vocabulary.

(** ** TypeMap round trip

    The forward table is keyed by type names, the reverse table by the
    type codes of the descriptor.  Between the two stands the schema
    compiler: a field declared with a scalar keyword of the schema
    language carries the descriptor type of that keyword (for [double],
    [TYPE_DOUBLE], and so on, as [descriptor.proto] documents them). *)

Definition keyword_type_table : list (string * Z) := [
  ("double", protoc_gen_msg.TYPE_DOUBLE);
  ("float", protoc_gen_msg.TYPE_FLOAT);
  ("int64", protoc_gen_msg.TYPE_INT64);
  ("uint64", protoc_gen_msg.TYPE_UINT64);
  ("int32", protoc_gen_msg.TYPE_INT32);
  ("fixed64", protoc_gen_msg.TYPE_FIXED64);
  ("fixed32", protoc_gen_msg.TYPE_FIXED32);
  ("bool", protoc_gen_msg.TYPE_BOOL);
  ("string", protoc_gen_msg.TYPE_STRING);
  ("bytes", protoc_gen_msg.TYPE_BYTES);
  ("uint32", protoc_gen_msg.TYPE_UINT32);
  ("sfixed32", protoc_gen_msg.TYPE_SFIXED32);
  ("sfixed64", protoc_gen_msg.TYPE_SFIXED64);
  ("sint32", protoc_gen_msg.TYPE_SINT32);
  ("sint64", protoc_gen_msg.TYPE_SINT64)
].

(** The descriptor type of a scalar keyword; [None] for any other name. *)
Definition keyword_type (keyword : string) : option Z :=
  py_dict keyword_type_table !! keyword.

Definition toTargetPrimitive (t : string) : string := msg2proto.map_type t.

(** The reverse TypeMap on the name of a scalar of the schema language. *)
Definition toSourcePrimitive (name : string) : option string :=
  protoc_gen_msg.map_type <$> keyword_type name.

Definition scalar_preserving : list string :=
  ["float64"; "float32"; "int64"; "uint64"; "int32"; "uint32"; "bool"; "string"].

(** ** The lines of a text

    [lines s doc r]: the rule [emptyline / line], applied again and again
    from the start of [s], matches the items [doc] one after the other and
    arrives at the input [r]. *)

Inductive lines : string → list msg2proto.Line → string → Prop :=
  | lines_nil s : lines s [] s
  | lines_cons s l r ls r' :
      msg2proto.grammar.item s = Some (l, r) →
      lines r ls r' →
      lines s (l :: ls) r'.

(** [s] holds an end-of-line character. *)
Fixpoint has_eol (s : string) : bool :=
  match s with
  | "" => false
  | String c t => msg2proto.grammar.is_eol c || has_eol t
  end.

(** A character class without end-of-line characters. *)
Definition inline (P : ascii → bool) : Prop :=
  ∀ c, P c = true → msg2proto.grammar.is_eol c = false.

(** The result of a rule on a text, when more text [more] follows it and
    the rule has not looked that far. *)
Definition ext {A} (more : string) (res : option (A * string)) : option (A * string) :=
  match res with
  | Some (v, r) => Some (v, r +:+ more)
  | None => None
  end.

(** A rule that stays on its line: on a text with an end of line it gives
    the same result whatever follows the text, and what it leaves still
    holds an end of line. *)
Definition tokenish {A} (p : string → option (A * string)) : Prop :=
  ∀ s more,
    has_eol s = true →
    p (s +:+ more) = ext more (p s)
    ∧ ∀ v r, p s = Some (v, r) → has_eol r = true.

(** The malformed line of the sixth scenario. *)
Definition bad_line : string := "123abc BadType".

(** ** Enum references and enum blocks of a rendered message *)

(** A field of enum kind, as [generate_message] recognises it: by the
    name [map_type] gives its type code. *)
Definition is_enum_field (f : protoc_gen_msg.FieldDescriptorProto) : bool :=
  String.eqb (protoc_gen_msg.map_type (protoc_gen_msg.field_type f)) "TYPE_ENUM".

(** A field of message kind, as [generate_message] recognises it. *)
Definition is_message_field (f : protoc_gen_msg.FieldDescriptorProto) : bool :=
  String.eqb (protoc_gen_msg.map_type (protoc_gen_msg.field_type f)) "TYPE_MESSAGE".

(** The number of fields of [message] that reference the enum named [n]. *)
Definition references (n : string) (message : protoc_gen_msg.DescriptorProto) : nat :=
  length (filter (λ f, protoc_gen_msg.field_type f = protoc_gen_msg.TYPE_ENUM
                       ∧ protoc_gen_msg.enum_name_of (protoc_gen_msg.field_type_name f) = n)
                 (protoc_gen_msg.message_field message)).

(** The type names of the fields of message kind are qualified: they hold
    a period, as the names the schema compiler writes do. *)
Definition qualified (message : protoc_gen_msg.DescriptorProto) : Prop :=
  Forall (λ f, protoc_gen_msg.field_type f = protoc_gen_msg.TYPE_MESSAGE →
               2 ≤ length (split "." (protoc_gen_msg.field_type_name f)))
         (protoc_gen_msg.message_field message).

(** The enums for which the guard of the loop of [generate_msg_file]
    holds when their turn comes, in the order of the list. *)
Fixpoint inlined (enums : list protoc_gen_msg.EnumDescriptorProto)
    (referenced_enums : gset string) : list protoc_gen_msg.EnumDescriptorProto :=
  match enums with
  | [] => []
  | enum :: rest =>
      if bool_decide (protoc_gen_msg.enum_name enum ∈ referenced_enums) then
        enum :: inlined rest (referenced_enums ∖ {[ protoc_gen_msg.enum_name enum ]})
      else inlined rest referenced_enums
  end.

(** The text of a sequence of enum blocks. *)
Definition blocks_text (blocks : list protoc_gen_msg.EnumDescriptorProto) : string :=
  foldr (λ enum acc, protoc_gen_msg.generate_enum enum +:+ acc) "" blocks.

(** The number of blocks of the enum named [n]. *)
Definition blocks_of (n : string) (blocks : list protoc_gen_msg.EnumDescriptorProto) : nat :=
  length (filter (λ enum, protoc_gen_msg.enum_name enum = n) blocks).

(** ** Type names on the reverse path *)

(** [c in s]. *)
Fixpoint contains (c : ascii) (s : string) : bool :=
  match s with
  | "" => false
  | String x t => Ascii.eqb x c || contains c t
  end.

(** The last segment of a qualified name. *)
Definition local_name (type_name : string) : string :=
  default "" (last (split "." type_name)).

(** The array suffix of a field with the label [repeated]. *)
Definition array_suffix (f : protoc_gen_msg.FieldDescriptorProto) : string :=
  if protoc_gen_msg.eq_str (protoc_gen_msg.map_label (protoc_gen_msg.field_label f))
       "LABEL_REPEATED"
  then "[]" else "".

(** The line of a field whose type is written [fieldtype], without a
    comment. *)
Definition plain_line (fieldtype : string) (f : protoc_gen_msg.FieldDescriptorProto)
    : string :=
  (fieldtype +:+ array_suffix f) +:+ " " +:+ protoc_gen_msg.field_name f +:+ " "
  +:+ "" +:+ NL.

(** ** Reading a rendered line

    [strip] is [str.strip()]: the line as it reads, without the blanks
    around it (the indentation of the message body, the end of line). *)

Definition is_space (c : ascii) : bool :=
  existsb (Ascii.eqb c)
    [" "%char; TAB; LF; CR; ascii_of_nat 11; ascii_of_nat 12].

Definition lstrip (s : string) : string := (span is_space s).2.

Fixpoint rstrip (s : string) : string :=
  match s with
  | "" => ""
  | String c t =>
      match rstrip t with
      | "" => if is_space c then "" else String c ""
      | t' => String c t'
      end
  end.

Definition strip (s : string) : string := rstrip (lstrip s).

(** The trailing comment of a constant or of a field: absent when the
    comment text is empty. *)
Definition trailing_comment (comment : string) : string :=
  if truthy comment then " // " +:+ comment else "".

(** The constant of the third scenario, as the parser returns it. *)
Definition red_constant : msg2proto.Params :=
  {| msg2proto.type :=
       {| msg2proto.package := ""; msg2proto.typename := "uint8";
          msg2proto.is_complextype := false; msg2proto.is_array := false;
          msg2proto.arraybound := None |};
     msg2proto.name := "RED"; msg2proto.value := "0";
     msg2proto.comment := "red color" |}.

(** The field of the second scenario, as the parser returns it. *)
Definition data_field : msg2proto.Params :=
  {| msg2proto.type :=
       {| msg2proto.package := ""; msg2proto.typename := "int32";
          msg2proto.is_complextype := false; msg2proto.is_array := true;
          msg2proto.arraybound := Some "10" |};
     msg2proto.name := "data"; msg2proto.value := "";
     msg2proto.comment := "" |}.

(** A field of the complex type [Point], without namespace. *)
Definition point_field : msg2proto.Params :=
  {| msg2proto.type :=
       {| msg2proto.package := ""; msg2proto.typename := "Point";
          msg2proto.is_complextype := true; msg2proto.is_array := false;
          msg2proto.arraybound := None |};
     msg2proto.name := "origin"; msg2proto.value := "";
     msg2proto.comment := "" |}.

(** ** The descriptor after the plugin has run *)

(** The enums nested in the messages of a file, in the order of the
    messages. *)
Definition nested_enums (messages : list protoc_gen_msg.DescriptorProto)
    : list protoc_gen_msg.EnumDescriptorProto :=
  foldr (λ message acc, protoc_gen_msg.message_enum_type message ++ acc) [] messages.

(** A file with one message that declares an enum of its own, and the
    request for it. *)
Definition level_enum : protoc_gen_msg.EnumDescriptorProto :=
  {| protoc_gen_msg.enum_name := "Level";
     protoc_gen_msg.enum_value :=
       [ {| protoc_gen_msg.value_name := "LOW"; protoc_gen_msg.value_number := 0 |} ] |}.

Definition alarm_file : protoc_gen_msg.FileDescriptorProto :=
  {| protoc_gen_msg.package := "diagnostics";
     protoc_gen_msg.message_type :=
       [ {| protoc_gen_msg.message_name := "Alarm";
            protoc_gen_msg.message_field :=
              [ {| protoc_gen_msg.field_name := "level";
                   protoc_gen_msg.field_label := protoc_gen_msg.LABEL_OPTIONAL;
                   protoc_gen_msg.field_type := protoc_gen_msg.TYPE_ENUM;
                   protoc_gen_msg.field_type_name := ".diagnostics.Alarm.Level" |} ];
            protoc_gen_msg.nested_type := [];
            protoc_gen_msg.message_enum_type := [level_enum] |} ];
     protoc_gen_msg.enum_type := [] |}.

Definition alarm_request : protoc_gen_msg.CodeGeneratorRequest :=
  {| protoc_gen_msg.proto_file := [alarm_file] |}.

Definition empty_response : protoc_gen_msg.CodeGeneratorResponse :=
  {| protoc_gen_msg.error := None; protoc_gen_msg.file := [] |}.

(** ** Names in snake case *)

(** Every character of [s] satisfies [P]. *)
Fixpoint all_chars (P : ascii → bool) (s : string) : bool :=
  match s with
  | "" => true
  | String c t => P c && all_chars P t
  end.

(** [s] holds no upper-case letter. *)
Definition no_upper (s : string) : bool := all_chars (λ c, negb (is_upper c)) s.

(** [s] without the occurrences of [c]. *)
Fixpoint without (c : ascii) (s : string) : string :=
  match s with
  | "" => ""
  | String x t => if Ascii.eqb x c then without c t else String x (without c t)
  end.

(** ** The well-known types *)

(** The message types that the forward table maps to a well-known type of
    the schema language. *)
Definition wellknown_types : list string := [
  "builtin_interfaces/Time"; "builtin_interfaces/Duration";
  "std_msgs/Float64"; "std_msgs/Float32";
  "std_msgs/Int64"; "std_msgs/UInt64";
  "std_msgs/Int32"; "std_msgs/UInt32";
  "std_msgs/Bool"; "std_msgs/String"
].

(** ** The text a line consumes *)

(** [r] is what is left of [s] after some text at its start. *)
Definition suffix_of (r s : string) : Prop := ∃ pre, s = pre +:+ r.

(** The last character of [s] is an end-of-line character. *)
Fixpoint ends_with_eol (s : string) : bool :=
  match s with
  | "" => false
  | String c t =>
      match t with
      | "" => msg2proto.grammar.is_eol c
      | String _ _ => ends_with_eol t
      end
  end.

(** ** Well-formed items *)

(** The first character of [s] satisfies [P]. *)
Definition starts_with (P : ascii → bool) (s : string) : bool :=
  match s with
  | "" => false
  | String c _ => P c
  end.

(** What [MsgVisitor] guarantees of a type: a complex type has a name
    that starts in upper case; any other type has no package and a name
    of lower-case letters and digits; a type is an array exactly when it
    has the key [arraybound]. *)
Definition well_formed_type (t : msg2proto.TypeRef) : bool :=
  (if msg2proto.is_complextype t
   then starts_with is_upper (msg2proto.typename t)
   else String.eqb (msg2proto.package t) ""
        && negb (String.eqb (msg2proto.typename t) "")
        && all_chars (λ c, is_lower c || is_digit c) (msg2proto.typename t))
  && Bool.eqb (msg2proto.is_array t) (bool_decide (is_Some (msg2proto.arraybound t))).

(** What it guarantees of an item: the name of a field starts in lower
    case and holds no upper-case letter; the name of a constant starts in
    upper case and holds no lower-case letter, and a constant has a
    value; no comment holds a line feed. *)
Definition well_formed (l : msg2proto.Line) : bool :=
  match l with
  | msg2proto.Emptyline => true
  | msg2proto.Comment text => negb (contains LF text)
  | msg2proto.Field p =>
      well_formed_type (msg2proto.type p)
      && starts_with is_lower (msg2proto.name p)
      && all_chars (λ c, is_lower c || is_digit c || Ascii.eqb c "_") (msg2proto.name p)
      && negb (contains LF (msg2proto.comment p))
  | msg2proto.Constant p =>
      well_formed_type (msg2proto.type p)
      && starts_with is_upper (msg2proto.name p)
      && all_chars (λ c, is_upper c || is_digit c || Ascii.eqb c "_") (msg2proto.name p)
      && negb (String.eqb (msg2proto.value p) "")
      && negb (contains LF (msg2proto.comment p))
  end.

(** ** The imports of an item *)

(** The import an item asks for: that of a field of a complex type whose
    qualified name does not end in the name of the message; no other
    item asks for one. *)
Definition import_of (msg_name pkg : string) (l : msg2proto.Line) : option string :=
  match l with
  | msg2proto.Field p =>
      let parts := msg2proto.typename_parts pkg (msg2proto.type p) in
      let final := default "" (last parts) in
      if msg2proto.is_complextype (msg2proto.type p)
         && negb (String.eqb final msg_name)
      then Some (join "/" (set_last (msg2proto.to_snake_case final) parts))
      else None
  | _ => None
  end.

(** ** The files of a response *)

(** The messages [generate_msg_files] renders, in the order of their
    files: every message of the file, each followed by the messages
    nested in it. *)
Definition rendered_messages (messages : list protoc_gen_msg.DescriptorProto)
    : list protoc_gen_msg.DescriptorProto :=
  flat_map (λ message, message :: protoc_gen_msg.nested_type message) messages.

(** The name of the file written for a message. *)
Definition msg_file_name (pkg : string) (message : protoc_gen_msg.DescriptorProto)
    : string :=
  pkg +:+ "/" +:+ protoc_gen_msg.message_name message +:+ ".msg".

(** A file with a message [Grid] and a message [Cell] nested in it. *)
Definition grid_file : protoc_gen_msg.FileDescriptorProto :=
  {| protoc_gen_msg.package := "maps";
     protoc_gen_msg.message_type :=
       [ {| protoc_gen_msg.message_name := "Grid";
            protoc_gen_msg.message_field :=
              [ {| protoc_gen_msg.field_name := "cells";
                   protoc_gen_msg.field_label := protoc_gen_msg.LABEL_REPEATED;
                   protoc_gen_msg.field_type := protoc_gen_msg.TYPE_MESSAGE;
                   protoc_gen_msg.field_type_name := ".maps.Grid.Cell" |} ];
            protoc_gen_msg.nested_type :=
              [ {| protoc_gen_msg.message_name := "Cell";
                   protoc_gen_msg.message_field :=
                     [ {| protoc_gen_msg.field_name := "occupied";
                          protoc_gen_msg.field_label := protoc_gen_msg.LABEL_OPTIONAL;
                          protoc_gen_msg.field_type := protoc_gen_msg.TYPE_BOOL;
                          protoc_gen_msg.field_type_name := "" |} ];
                   protoc_gen_msg.nested_type := [];
                   protoc_gen_msg.message_enum_type := [] |} ];
            protoc_gen_msg.message_enum_type := [] |} ];
     protoc_gen_msg.enum_type := [] |}.

(** ** The items of a traversal *)

(** The messages and the enums among the items of a traversal. *)
Definition messages_of (items : list (protoc_gen_json.Item * string))
    : list protoc_gen_msg.DescriptorProto :=
  omap (λ ip, match ip.1 with
              | protoc_gen_json.Message message => Some message
              | protoc_gen_json.Enum _ => None
              end) items.

Definition enums_of (items : list (protoc_gen_json.Item * string))
    : list protoc_gen_msg.EnumDescriptorProto :=
  omap (λ ip, match ip.1 with
              | protoc_gen_json.Enum enum => Some enum
              | protoc_gen_json.Message _ => None
              end) items.

(** ** What the plugin writes, as items of a document *)

(** The names of constants and of fields, as the grammar has them. *)
Definition is_constname (s : string) : bool :=
  starts_with is_upper s
  && all_chars (λ c, is_upper c || is_digit c || Ascii.eqb c "_") s.

Definition is_fieldname (s : string) : bool :=
  starts_with is_lower s
  && all_chars (λ c, is_lower c || is_digit c || Ascii.eqb c "_") s.

(** A text that is the text of a comment: it holds no line feed and does
    not start with a blank. *)
Definition is_comment_text (s : string) : bool :=
  negb (contains LF s) && negb (starts_with msg2proto.grammar.is_sp s).

(** A type of the message language without package and array bound. *)
Definition plain_type (typename : string) (is_array : bool) : msg2proto.TypeRef :=
  {| msg2proto.package := ""; msg2proto.typename := typename;
     msg2proto.is_complextype := false; msg2proto.is_array := is_array;
     msg2proto.arraybound := if is_array then Some "" else None |}.

(** The constant that stands for a value of an enum. *)
Definition constant_of (value : protoc_gen_msg.EnumValueDescriptorProto)
    : msg2proto.Line :=
  msg2proto.Constant
    {| msg2proto.type := plain_type protoc_gen_msg.CONSTANT_FIELD_TYPE false;
       msg2proto.name := protoc_gen_msg.value_name value;
       msg2proto.value := pretty (protoc_gen_msg.value_number value);
       msg2proto.comment := "" |}.

(** The items that stand for an enum: an empty line, the name of the
    enum in a comment and one constant for every value. *)
Definition enum_items (enum : protoc_gen_msg.EnumDescriptorProto)
    : msg2proto.Document :=
  msg2proto.Emptyline :: msg2proto.Comment (protoc_gen_msg.enum_name enum)
  :: (constant_of <$> protoc_gen_msg.enum_value enum).

(** A field the parser of the message language can read back: not of
    message or group kind, with the name of a field, and with an enum
    name that can stand in a comment when it is of enum kind. *)
Definition readable_field (f : protoc_gen_msg.FieldDescriptorProto) : bool :=
  negb (Z.eqb (protoc_gen_msg.field_type f) protoc_gen_msg.TYPE_MESSAGE)
  && negb (Z.eqb (protoc_gen_msg.field_type f) protoc_gen_msg.TYPE_GROUP)
  && is_fieldname (protoc_gen_msg.field_name f)
  && (if Z.eqb (protoc_gen_msg.field_type f) protoc_gen_msg.TYPE_ENUM
      then is_comment_text
             (protoc_gen_msg.enum_name_of (protoc_gen_msg.field_type_name f))
      else true).

(** An enum the parser can read back. *)
Definition readable_enum (enum : protoc_gen_msg.EnumDescriptorProto) : bool :=
  is_comment_text (protoc_gen_msg.enum_name enum)
  && forallb (λ v, is_constname (protoc_gen_msg.value_name v))
             (protoc_gen_msg.enum_value enum).

(** The item that stands for a field: a field of the type the reverse
    table gives, or of type [uint8] with the name of the enum as its
    comment; an array when the field is repeated. *)
Definition field_item (f : protoc_gen_msg.FieldDescriptorProto) : msg2proto.Line :=
  let is_enum := Z.eqb (protoc_gen_msg.field_type f) protoc_gen_msg.TYPE_ENUM in
  msg2proto.Field
    {| msg2proto.type :=
         plain_type
           (if is_enum then protoc_gen_msg.CONSTANT_FIELD_TYPE
            else protoc_gen_msg.map_type (protoc_gen_msg.field_type f))
           (bool_decide (protoc_gen_msg.field_label f = protoc_gen_msg.LABEL_REPEATED));
       msg2proto.name := protoc_gen_msg.field_name f;
       msg2proto.value := "";
       msg2proto.comment :=
         if is_enum
         then protoc_gen_msg.enum_name_of (protoc_gen_msg.field_type_name f)
         else "" |}.

(** The items that stand for a message: the two lines of the header, the
    name of the message in a comment and its fields. *)
Definition message_items (message : protoc_gen_msg.DescriptorProto)
    : msg2proto.Document :=
  msg2proto.Comment "This file was generated. DO NOT EDIT!"
  :: msg2proto.Emptyline
  :: msg2proto.Comment (protoc_gen_msg.message_name message)
  :: (field_item <$> protoc_gen_msg.message_field message).

(** The primitive types of the message language: the keys of the forward
    table that are no message types.  The reverse path writes some of
    them for the fields that are not of message or group kind. *)
Definition primitive_types : list string :=
  ["float64"; "float32"; "int64"; "uint64"; "int32"; "uint32"; "int16"; "uint16";
   "int8"; "uint8"; "byte"; "bool"; "char"; "string"; "wstring"].

(** A message with a field of enum kind and a repeated field. *)
Definition report_message : protoc_gen_msg.DescriptorProto :=
  {| protoc_gen_msg.message_name := "Report";
     protoc_gen_msg.message_field :=
       [ {| protoc_gen_msg.field_name := "level";
            protoc_gen_msg.field_label := protoc_gen_msg.LABEL_OPTIONAL;
            protoc_gen_msg.field_type := protoc_gen_msg.TYPE_ENUM;
            protoc_gen_msg.field_type_name := ".diagnostics.Level" |};
         {| protoc_gen_msg.field_name := "codes";
            protoc_gen_msg.field_label := protoc_gen_msg.LABEL_REPEATED;
            protoc_gen_msg.field_type := protoc_gen_msg.TYPE_SINT32;
            protoc_gen_msg.field_type_name := "" |} ];
     protoc_gen_msg.nested_type := [];
     protoc_gen_msg.message_enum_type := [] |}.

(** The number behind what [map_type] or [map_label] of the JSON plugin
    returns: that of the entry with the name, or the number itself. *)
Definition number_of (table : list (Z * string)) (x : string + Z) : option Z :=
  match x with
  | inl name => (λ found, found.2.1) <$> list_find (λ entry, entry.2 = name) table
  | inr number => Some number
  end.

(** ** Lines of the schema *)

(** An item without the default value of its field. *)
Definition without_value (l : msg2proto.Line) : msg2proto.Line :=
  match l with
  | msg2proto.Field p =>
      msg2proto.Field
        {| msg2proto.type := msg2proto.type p; msg2proto.name := msg2proto.name p;
           msg2proto.value := ""; msg2proto.comment := msg2proto.comment p |}
  | _ => l
  end.

(** A field without default value and comment. *)
Definition plain_field (type : msg2proto.TypeRef) (name : string) : msg2proto.Line :=
  msg2proto.Field
    {| msg2proto.type := type; msg2proto.name := name;
       msg2proto.value := ""; msg2proto.comment := "" |}.

(** The lines of a schema before its imports and its message. *)
Definition preamble (pkg : string) : string :=
  "// This file was generated. DO NOT EDIT!" +:+ NL
  +:+ NL
  +:+ "syntax = " +:+ dq +:+ "proto3" +:+ dq +:+ ";" +:+ NL
  +:+ (if String.eqb pkg "" then "" else NL +:+ "package " +:+ pkg +:+ ";" +:+ NL).

(** A complex type, as [visit_complextype] returns it. *)
Definition complex_type (package typename : string) (is_array : bool)
    (arraybound : option string) : msg2proto.TypeRef :=
  {| msg2proto.package := package; msg2proto.typename := typename;
     msg2proto.is_complextype := true; msg2proto.is_array := is_array;
     msg2proto.arraybound := arraybound |}.

(** ** The text of a field line and of the enum blocks *)

(** The comment of a field as [generate_proto] writes it: the bound of
    the array in brackets, when it has one, before the comment of the
    field. *)
Definition field_comment (p : msg2proto.Params) : string :=
  match msg2proto.arraybound (msg2proto.type p) with
  | Some bound =>
      if truthy bound then "[" +:+ bound +:+ "] " +:+ msg2proto.comment p
      else msg2proto.comment p
  | None => msg2proto.comment p
  end.

(** The lines of a text, as [str.split] at the line feeds gives them. *)
Definition text_lines (text : string) : list string := split LF text.

(** The number of lines of [text] that read [# n]: the headers of the
    blocks of the enum named [n]. *)
Definition block_headers (n : string) (text : string) : nat :=
  length (filter (λ l, l = "# " +:+ n) (text_lines text)).

(** An enum whose name and whose value names hold no line feed. *)
Definition on_one_line (enum : protoc_gen_msg.EnumDescriptorProto) : bool :=
  negb (contains LF (protoc_gen_msg.enum_name enum))
  && forallb (λ v, negb (contains LF (protoc_gen_msg.value_name v)))
             (protoc_gen_msg.enum_value enum).

(** The field [f] with another label. *)
Definition with_label (label : Z) (f : protoc_gen_msg.FieldDescriptorProto)
    : protoc_gen_msg.FieldDescriptorProto :=
  {| protoc_gen_msg.field_name := protoc_gen_msg.field_name f;
     protoc_gen_msg.field_label := label;
     protoc_gen_msg.field_type := protoc_gen_msg.field_type f;
     protoc_gen_msg.field_type_name := protoc_gen_msg.field_type_name f |}.

(** ** ASCII text

    On a text of ASCII characters the classes [\d] and [\w] of Python's
    regular expressions and [str.lower] are the ASCII ones, as they are
    modelled here; [asscalar] returns a text without NUL characters as
    it is. *)

Definition NUL : ascii := ascii_of_nat 0.

Definition is_ascii (c : ascii) : bool := (code c <? 128)%N.

Definition ascii_text (s : string) : bool := all_chars is_ascii s.

(** * Properties *)

(** ** Strings *)

Lemma string_app_assoc (a b c : string) : (a +:+ b) +:+ c = a +:+ (b +:+ c).
Proof. induction a as [|x a IH]; simpl; [done | by rewrite IH]. Qed.

Lemma string_app_nil_r (a : string) : a +:+ "" = a.
Proof. induction a as [|x a IH]; simpl; [done | by rewrite IH]. Qed.

(** ** Texts: characters, lines and numbers *)

Section text_facts.
Import msg2proto msg2proto.grammar.

Lemma contains_app c a b : contains c (a +:+ b) = contains c a || contains c b.
Proof.
  induction a as [|x a IH]; [done|].
  change (String x a +:+ b) with (String x (a +:+ b)). cbn [contains].
  by rewrite IH, orb_assoc.
Qed.

Lemma replace_app a b s t : replace a b (s +:+ t) = replace a b s +:+ replace a b t.
Proof.
  induction s as [|x s IH]; [done|].
  change (String x s +:+ t) with (String x (s +:+ t)). cbn [replace String.append].
  by rewrite IH.
Qed.

Lemma split_whole sep s : contains sep s = false → split sep s = [s].
Proof.
  induction s as [|x s IH]; [done|]. cbn [contains split].
  intros H. apply orb_false_iff in H as [-> H]. by rewrite (IH H).
Qed.

Lemma split_first sep a b :
  contains sep a = false → split sep (a +:+ String sep b) = a :: split sep b.
Proof.
  induction a as [|x a IH].
  - intros _. cbn [String.append split]. by rewrite Ascii.eqb_refl.
  - cbn [contains]. intros H. apply orb_false_iff in H as [Hx H].
    change (String x a +:+ String sep b) with (String x (a +:+ String sep b)).
    cbn [split]. by rewrite Hx, (IH H).
Qed.

Lemma split_nonempty sep s : split sep s ≠ [].
Proof.
  destruct s as [|c t]; simpl; [done|].
  destruct (Ascii.eqb c sep); [done|]. by destruct (split sep t).
Qed.

Lemma split_at_separator sep a b :
  split sep (a +:+ String sep b) = split sep a ++ split sep b.
Proof.
  induction a as [|x a IH].
  - cbn [String.append split]. by rewrite Ascii.eqb_refl.
  - change (String x a +:+ String sep b) with (String x (a +:+ String sep b)).
    cbn [split]. rewrite IH. destruct (Ascii.eqb x sep); [done|].
    pose proof (split_nonempty sep a) as Ha.
    by destruct (split sep a).
Qed.

Lemma foldl_append {A} (g : A → string) (output : string) (l : list A) :
  foldl (λ output x, output +:+ g x) output l
  = output +:+ foldr (λ x acc, g x +:+ acc) "" l.
Proof.
  revert output. induction l as [|x l IH]; intros output; cbn [foldl foldr].
  - by rewrite string_app_nil_r.
  - by rewrite IH, string_app_assoc.
Qed.

Lemma pretty_N_char_digit x : is_digit (pretty_N_char x) = true.
Proof. unfold pretty_N_char. by repeat case_match. Qed.

Lemma pretty_N_go_digits x s :
  ∃ pre, pretty_N_go x s = pre +:+ s ∧ all_chars is_digit pre = true.
Proof.
  revert s. induction (N.lt_wf_0 x) as [x _ IH]; intros s.
  assert (x = 0 ∨ 0 < x)%N as [->|Hx] by lia.
  - exists "". by rewrite pretty_N_go_0.
  - rewrite pretty_N_go_step by done.
    destruct (IH (x `div` 10)%N (N.div_lt x 10 Hx eq_refl)
                (String (pretty_N_char (x `mod` 10)) s)) as (pre & -> & Hpre).
    exists (pre +:+ String (pretty_N_char (x `mod` 10)) ""). split.
    + by rewrite string_app_assoc.
    + clear -Hpre. induction pre as [|c pre IH]; cbn [String.append all_chars].
      * by rewrite pretty_N_char_digit.
      * cbn [all_chars] in Hpre. apply andb_true_iff in Hpre as [-> Hpre].
        by rewrite IH.
Qed.

Lemma pretty_positive_digits (p : positive) :
  all_chars is_digit (pretty p) = true ∧ pretty p ≠ "".
Proof.
  unfold pretty, pretty_positive, pretty, pretty_N.
  rewrite decide_False by done.
  rewrite pretty_N_go_step by lia.
  destruct (pretty_N_go_digits (N.pos p `div` 10)
              (String (pretty_N_char (N.pos p `mod` 10)) "")) as (pre & -> & Hpre).
  split.
  - clear -Hpre. induction pre as [|c pre IH]; cbn [String.append all_chars].
    + by rewrite pretty_N_char_digit.
    + cbn [all_chars] in Hpre. apply andb_true_iff in Hpre as [-> Hpre].
      by rewrite IH.
  - by destruct pre.
Qed.

(** A number is written with digits, after a sign when it is negative:
    with characters of a numeric value. *)
Lemma pretty_Z_numeric (z : Z) :
  all_chars is_numeric (pretty z) = true ∧ pretty z ≠ "".
Proof.
  assert (∀ s, all_chars is_digit s = true → all_chars is_numeric s = true) as Hd.
  { induction s as [|c s IH]; [done|]. cbn [all_chars]. intros H.
    apply andb_true_iff in H as [Hc Hs]. unfold is_numeric at 1.
    by rewrite Hc, (IH Hs). }
  destruct z as [|p|p]; [done| |].
  - destruct (pretty_positive_digits p) as [H1 H2]. split; [by apply Hd | done].
  - destruct (pretty_positive_digits p) as [H1 H2].
    change (pretty (Z.neg p)) with ("-" +:+ pretty p).
    split; [|done]. cbn [String.append all_chars]. by rewrite (Hd _ H1).
Qed.

End text_facts.

(** ** msg2proto: field numbering and order of the rendered items *)

Section generate_proto_walk.
Import msg2proto.

Variables msg_name pkg : string.
Lemma step_message st l :
  message (step msg_name pkg st l) = message st +:+ line_text l (fieldnumber st).
Proof. by destruct l. Qed.

Lemma step_fieldnumber st l :
  fieldnumber (step msg_name pkg st l)
  = if is_field l then S (fieldnumber st) else fieldnumber st.
Proof. destruct l; simpl; lia. Qed.

Lemma trace_items st doc : (trace msg_name pkg st doc).*1 = doc.
Proof.
  revert st. induction doc as [|l ls IH]; intros st; simpl; [done|].
  by rewrite IH.
Qed.

Lemma foldl_step_message st doc :
  message (foldl (step msg_name pkg) st doc)
  = message st +:+ concat_text (trace msg_name pkg st doc).
Proof.
  revert st. induction doc as [|l ls IH]; intros st; simpl.
  - by rewrite string_app_nil_r.
  - by rewrite IH, step_message, string_app_assoc.
Qed.

Lemma foldl_step_fieldnumber st doc :
  fieldnumber (foldl (step msg_name pkg) st doc) = fieldnumber st + count_fields doc.
Proof.
  revert st. unfold count_fields.
  induction doc as [|l ls IH]; intros st; [simpl; lia|].
  cbn [foldl]. rewrite IH, step_fieldnumber, filter_cons.
  destruct l; simpl; lia.
Qed.

Lemma trace_field_numbers st doc :
  (filter (λ ln, is_field ln.1) (trace msg_name pkg st doc)).*2
  = seq (fieldnumber st) (count_fields doc).
Proof.
  revert st. unfold count_fields.
  induction doc as [|l ls IH]; intros st; [done|].
  cbn [trace]. rewrite !filter_cons. cbn [fst].
  specialize (IH (step msg_name pkg st l)). rewrite step_fieldnumber in IH.
  destruct (is_field l).
  - rewrite !decide_True by done. cbn [length seq]. by rewrite fmap_cons, IH.
  - rewrite !decide_False by (by intros []). done.
Qed.

End generate_proto_walk.

(** The text of a field, written out. *)
Lemma field_text_form (p : msg2proto.Params) (n : nat) :
  line_text (msg2proto.Field p) n
  = "  "
    +:+ (if msg2proto.is_array (msg2proto.type p) then "repeated " else "")
    +:+ msg2proto.mapped_typename (msg2proto.type p) +:+ " "
    +:+ msg2proto.name p +:+ " = " +:+ pretty n +:+ ";"
    +:+ trailing_comment (field_comment p) +:+ NL.
Proof.
  unfold line_text, msg2proto.field_text, msg2proto.INDENT.
  fold (field_comment p). unfold trailing_comment.
  destruct (msg2proto.is_array (msg2proto.type p));
    [change (truthy "repeated") with true | change (truthy "") with false];
    cbv iota; destruct (truthy (field_comment p));
    rewrite ?string_app_assoc; reflexivity.
Qed.

(** C1. [generate_proto] renders the items of a document in document
    order, the comments and the empty lines among them: the message body
    is the opening line followed by the text of every item in turn, each
    rendered with the value the counter has at its turn.  The text of an
    empty line is a line feed, that of a comment is the comment after the
    marker [//], and that of a field holds the number the counter has,
    written in decimal, after the name of the field; different numbers
    are written differently.  The counter starts at 1 and moves (by one)
    exactly at the fields, so the numbers the fields are rendered with
    are 1, 2, ..., F in document order, F the number of fields; the text
    returned ends with that body. *)
Theorem generate_proto_order_and_numbering
    (doc : msg2proto.Document) (msg_name pkg : string) :
  let st := msg2proto.walk doc msg_name pkg in
  let tr := trace msg_name pkg (msg2proto.initial msg_name) doc in
  msg2proto.fieldnumber (msg2proto.initial msg_name) = 1
  ∧ tr.*1 = doc
  ∧ msg2proto.message st = "message " +:+ msg_name +:+ " {" +:+ NL +:+ concat_text tr
  ∧ (∀ n, line_text msg2proto.Emptyline n = NL)
  ∧ (∀ text n, line_text (msg2proto.Comment text) n = "  // " +:+ text +:+ NL)
  ∧ (∀ p n, line_text (msg2proto.Field p) n
            = "  "
              +:+ (if msg2proto.is_array (msg2proto.type p) then "repeated " else "")
              +:+ msg2proto.mapped_typename (msg2proto.type p) +:+ " "
              +:+ msg2proto.name p +:+ " = " +:+ pretty n +:+ ";"
              +:+ trailing_comment (field_comment p) +:+ NL)
  ∧ (∀ n m : nat, pretty n = pretty m → n = m)
  ∧ (∀ l n text, layout_text l = Some text → line_text l n = text)
  ∧ (∀ st' l, msg2proto.fieldnumber (msg2proto.step msg_name pkg st' l)
              = if is_field l then S (msg2proto.fieldnumber st')
                else msg2proto.fieldnumber st')
  ∧ (filter (λ ln, is_field ln.1) tr).*2 = seq 1 (count_fields doc)
  ∧ msg2proto.fieldnumber st = 1 + count_fields doc
  ∧ ∃ head, msg2proto.generate_proto doc msg_name pkg
            = head +:+ msg2proto.message st +:+ "}".
Proof.
  intros st tr. subst st tr. unfold msg2proto.walk.
  split; [done|]. split; [apply trace_items|].
  split.
  { rewrite foldl_step_message. simpl. by rewrite !string_app_assoc. }
  split; [done|].
  split; [by intros text n; rewrite <- string_app_assoc|].
  split; [apply field_text_form|].
  split; [by intros n m H; apply (inj pretty)|].
  split; [by intros [] n t [= <-]|].
  split; [apply step_fieldnumber|].
  split; [apply trace_field_numbers|].
  split; [apply foldl_step_fieldnumber|].
  unfold msg2proto.generate_proto, msg2proto.walk.
  eexists. rewrite <- !string_app_assoc. reflexivity.
Qed.

(** ** TypeMap: the scalar-preserving primitives survive a round trip *)

(** C2. For each of float64, float32, int64, uint64, int32, uint32, bool
    and string, the forward TypeMap followed by the reverse TypeMap gives
    the type name back. *)
Theorem primitive_round_trip (t : string) :
  t ∈ scalar_preserving →
  toSourcePrimitive (toTargetPrimitive t) = Some t.
Proof.
  unfold scalar_preserving. intros Hin.
  repeat (apply elem_of_cons in Hin as [->|Hin]; [by vm_compute|]).
  by apply elem_of_nil in Hin.
Qed.

Lemma primitive_round_trip_float64 :
  "float64" ∈ scalar_preserving
  ∧ toSourcePrimitive (toTargetPrimitive "float64") = Some "float64".
Proof.
  assert (H : "float64" ∈ scalar_preserving) by (by vm_compute; left).
  split; [exact H | exact (primitive_round_trip "float64" H)].
Defined.

(** ** msg2proto: the grammar consumes its input line by line *)

(** Case analysis of a match written with option binds and pairs. *)
Ltac split_pairs :=
  repeat match goal with p : (_ * _)%type |- _ => destruct p end.
Ltac cases :=
  repeat (progress (repeat case_match; split_pairs; simplify_option_eq)).

Section grammar_facts.
Import msg2proto msg2proto.grammar.

Lemma span_app p s : (span p s).1 +:+ (span p s).2 = s.
Proof.
  induction s as [|c t IH]; simpl; [done|].
  destruct (p c); [|done]. destruct (span p t); simpl in *. by rewrite IH.
Qed.

Lemma string_length_app (a b : string) :
  String.length (a +:+ b) = String.length a + String.length b.
Proof. induction a as [|x a IH]; simpl; [done | by rewrite IH]. Qed.

Lemma span_length p s : String.length (span p s).2 ≤ String.length s.
Proof.
  rewrite <- (span_app p s) at 2. rewrite string_length_app. lia.
Qed.

Lemma span_eq_length p s a r :
  span p s = (a, r) → String.length r ≤ String.length s.
Proof. intros H. pose proof (span_length p s) as Hl. by rewrite H in Hl. Qed.

Lemma span1_length p s a r :
  span1 p s = Some (a, r) → String.length r ≤ String.length s.
Proof.
  unfold span1. pose proof (span_length p s) as H.
  destruct (span p s) as [[|x a'] r']; intros; simplify_eq; done.
Qed.

Lemma SP_length s : String.length (SP s) ≤ String.length s.
Proof. apply span_length. Qed.

Lemma EOL_length s r : EOL s = Some r → String.length r < String.length s.
Proof.
  destruct s as [|c t]; simpl; [done|].
  destruct (is_eol c); intros; simplify_eq. lia.
Qed.

Lemma lit_length l s r : lit l s = Some r → String.length r ≤ String.length s.
Proof.
  revert s. induction l as [|a l IH]; intros [|b s]; simpl; intros H;
    simplify_eq; simpl; try lia.
  destruct (Ascii.eqb a b); [|done]. apply IH in H. lia.
Qed.

Lemma ident_length f g s a r :
  ident f g s = Some (a, r) → String.length r ≤ String.length s.
Proof.
  destruct s as [|c t]; simpl; [done|].
  pose proof (span_length g t).
  destruct (f c), (span g t); intros; simplify_eq. simpl in *. lia.
Qed.

Lemma bracketed_length o c s a r :
  bracketed o c s = Some (a, r) → String.length r ≤ String.length s.
Proof.
  destruct s as [|x t]; simpl; [done|].
  pose proof (span_length (is_not c) t).
  destruct (Ascii.eqb x o); [|done].
  destruct (span (is_not c) t) as [body [|y r']]; intros; simplify_eq.
  simpl in *. lia.
Qed.

#[local] Arguments span : simpl never.
#[local] Arguments lit : simpl never.
#[local] Arguments bracketed : simpl never.

Lemma quoted_length q s a r :
  quoted q s = Some (a, r) → String.length r ≤ String.length s.
Proof.
  unfold quoted. intros H. cases;
    repeat match goal with
    | H : bracketed _ _ _ = Some _ |- _ => apply bracketed_length in H
    end; simpl in *; lia.
Qed.

(** What a successful match leaves is no longer than what it started from. *)
Ltac shorter :=
  repeat match goal with
  | H : span1 _ _ = Some _ |- _ => apply span1_length in H
  | H : span _ _ = (_, _) |- _ => apply span_eq_length in H
  | H : quoted _ _ = Some _ |- _ => apply quoted_length in H
  | H : bracketed _ _ _ = Some _ |- _ => apply bracketed_length in H
  | H : ident _ _ _ = Some _ |- _ => apply ident_length in H
  | H : lit _ _ = Some _ |- _ => apply lit_length in H
  | H : EOL _ = Some _ |- _ => apply EOL_length in H
  | |- context [SP ?s] => lazymatch goal with
                         | _ : String.length (SP s) ≤ _ |- _ => fail
                         | _ => pose proof (SP_length s)
                         end
  | _ : context [SP ?s] |- _ => lazymatch goal with
                         | _ : String.length (SP s) ≤ _ |- _ => fail
                         | _ => pose proof (SP_length s)
                         end
  end.

Lemma value_length s a r :
  value s = Some (a, r) → String.length r ≤ String.length s.
Proof.
  unfold value, numericval, stringval, arrayval, boolval.
  intros H. cases; shorter; simpl in *; lia.
Qed.

Lemma comment_length s a r :
  comment s = Some (a, r) → String.length r ≤ String.length s.
Proof.
  unfold comment, text. intros H. cases; shorter. lia.
Qed.

Lemma opt_length p s a r :
  (∀ s a r, p s = Some (a, r) → String.length r ≤ String.length s) →
  opt p s = (a, r) → String.length r ≤ String.length s.
Proof.
  unfold opt. intros Hp H. destruct (p s) as [[a' r']|] eqn:E; simplify_eq; [|done].
  by apply Hp in E.
Qed.

Lemma type_length s t r :
  type s = Some (t, r) → String.length r ≤ String.length s.
Proof.
  unfold type, basetype, complextype, stringtype, primitivetype, arrayspec,
    arraybound, stringbound, packagename, msgname.
  intros H. cases; shorter; simpl in *; lia.
Qed.

Lemma field_length s p r :
  field s = Some (p, r) → String.length r ≤ String.length s.
Proof.
  unfold field, fieldname. intros H. cases.
  repeat match goal with
  | H : type _ = Some _ |- _ => apply type_length in H
  | H : opt value _ = _ |- _ => apply (opt_length _ _ _ _ value_length) in H
  | H : opt comment _ = _ |- _ => apply (opt_length _ _ _ _ comment_length) in H
  end; shorter; lia.
Qed.

Lemma constant_length s p r :
  constant s = Some (p, r) → String.length r ≤ String.length s.
Proof.
  unfold constant, constname. intros H. cases.
  repeat match goal with
  | H : type _ = Some _ |- _ => apply type_length in H
  | H : value _ = Some _ |- _ => apply value_length in H
  | H : opt comment _ = _ |- _ => apply (opt_length _ _ _ _ comment_length) in H
  end; shorter; lia.
Qed.

Lemma definition_length s l r :
  definition s = Some (l, r) → String.length r ≤ String.length s.
Proof.
  unfold definition. intros H. cases;
    repeat match goal with
    | H : constant _ = Some _ |- _ => apply constant_length in H
    | H : field _ = Some _ |- _ => apply field_length in H
    end; lia.
Qed.

(** Every item of the document consumes at least one character. *)
Lemma item_length s l r :
  item s = Some (l, r) → String.length r < String.length s.
Proof.
  unfold item, emptyline, line. intros H. cases;
    repeat match goal with
    | H : comment _ = Some _ |- _ => apply comment_length in H
    | H : definition _ = Some _ |- _ => apply definition_length in H
    end; shorter; lia.
Qed.

End grammar_facts.

Section parse_contract.
Import msg2proto msg2proto.grammar.

Lemma item_empty : item "" = None.
Proof. reflexivity. Qed.

(** The repetition stops where no further item matches, and the items it
    has matched are consecutive lines of the text. *)
Lemma msg_lines fuel s :
  String.length s ≤ fuel →
  lines s (msg fuel s).1 (msg fuel s).2 ∧ item (msg fuel s).2 = None.
Proof.
  revert s. induction fuel as [|fuel IH]; intros s Hlen.
  - destruct s; [|simpl in Hlen; lia]. split; [constructor | reflexivity].
  - simpl. destruct (item s) as [[l r]|] eqn:E.
    + pose proof (item_length _ _ _ E) as Hr.
      destruct (IH r ltac:(lia)) as [Hl Hn].
      destruct (msg fuel r) as [ls r'] eqn:Em. simpl in *.
      split; [by econstructor | done].
    + split; [constructor | done].
Qed.

(** Conversely the repetition follows any run of lines to the place where
    no item matches: the fuel never runs out. *)
Lemma lines_msg fuel s doc r :
  lines s doc r → item r = None → String.length s ≤ fuel →
  msg fuel s = (doc, r).
Proof.
  intros Hl Hn. revert fuel. induction Hl as [s|s l r ls r' Hi Hl IH]; intros fuel Hlen.
  - destruct fuel; simpl; [done|]. by rewrite Hn.
  - pose proof (item_length _ _ _ Hi) as Hr.
    destruct fuel as [|fuel]; [lia|]. simpl. rewrite Hi.
    by rewrite (IH Hn fuel ltac:(lia)).
Qed.

Lemma parse_Some text doc : parse text = Some doc ↔ lines text doc "".
Proof.
  unfold parse. split.
  - destruct (msg_lines (String.length text) text ltac:(lia)) as [Hl _].
    destruct (msg (String.length text) text) as [d [|c r]]; [|done].
    by intros [= <-].
  - intros Hl. by rewrite (lines_msg (String.length text) _ _ _ Hl item_empty ltac:(lia)).
Qed.

Lemma parse_None text :
  parse text = None
  ↔ ∃ doc rest, lines text doc rest ∧ rest ≠ "" ∧ item rest = None.
Proof.
  unfold parse. split.
  - destruct (msg_lines (String.length text) text ltac:(lia)) as [Hl Hn].
    destruct (msg (String.length text) text) as [d [|c r]]; [done|].
    intros _. by exists d, (String c r).
  - intros (doc & rest & Hl & Hne & Hn).
    rewrite (lines_msg (String.length text) _ _ _ Hl Hn ltac:(lia)). by destruct rest.
Qed.

(** No line starts with the malformed text, whatever follows it. *)
Lemma bad_line_no_item post : item (bad_line +:+ post) = None.
Proof. reflexivity. Qed.

Lemma SP_idem s : SP (SP s) = SP s.
Proof.
  unfold SP. induction s as [|c t IH]; [done|].
  unfold span; fold span. destruct (is_sp c) eqn:E.
  - destruct (span is_sp t); simpl in *. done.
  - simpl. unfold span; fold span. by rewrite E.
Qed.

(** A line that matches where [emptyline] does not has a payload. *)
Lemma line_has_payload s r : emptyline s = None → line s ≠ Some (None, r).
Proof.
  unfold emptyline, line. intros He Hl.
  destruct (comment (SP s)) as [[c r1]|]; [by simplify_option_eq|].
  destruct (definition (SP s)) as [[d r1]|]; [by simplify_option_eq|].
  rewrite SP_idem in Hl. by simplify_option_eq.
Qed.

End parse_contract.

(** ** msg2proto: a line does not look past its end

    A line that matches ends with an end-of-line character, and nothing
    in its match has looked further: the same line matches, with the same
    item, whatever text follows. *)

Section stability.
Import msg2proto msg2proto.grammar.

#[local] Arguments span : simpl never.
#[local] Arguments lit : simpl never.
#[local] Arguments bracketed : simpl never.

Lemma has_eol_app_r a b : has_eol b = true → has_eol (a +:+ b) = true.
Proof.
  induction a as [|x a IH]; simpl; [done|].
  intros H. rewrite (IH H). apply orb_true_r.
Qed.

Lemma has_eol_nonempty s : has_eol s = true → s ≠ "".
Proof. by destruct s. Qed.

Lemma span_ext P s more :
  (span P s).2 ≠ "" →
  span P (s +:+ more) = ((span P s).1, (span P s).2 +:+ more).
Proof.
  induction s as [|c t IH]; [done|].
  unfold span; fold span. simpl String.append. unfold span; fold span.
  destruct (P c); [|done].
  destruct (span P t) as [a r] eqn:E. simpl in *.
  intros Hr. by rewrite (IH Hr).
Qed.

Lemma span_has_eol P s :
  inline P → has_eol s = true → has_eol (span P s).2 = true.
Proof.
  intros HP. induction s as [|c t IH]; [done|].
  unfold span; fold span. destruct (P c) eqn:Ec; [|done].
  simpl. rewrite (HP c Ec). simpl. intros H.
  destruct (span P t). simpl in *. by apply IH.
Qed.

Lemma span_inline_ext P s more :
  inline P → has_eol s = true →
  span P (s +:+ more) = ((span P s).1, (span P s).2 +:+ more).
Proof.
  intros HP He. apply span_ext, has_eol_nonempty. by apply span_has_eol.
Qed.

(** A failed match gives the same on the longer text. *)
Ltac failed := split; [reflexivity | intros ? ? ?; discriminate].

Lemma span1_tokenish P : inline P → tokenish (span1 P).
Proof.
  intros HP s more He. unfold span1.
  rewrite (span_inline_ext P s more HP He).
  pose proof (span_has_eol P s HP He) as Hr.
  destruct (span P s) as [[|x a] r]; simpl in *; [failed|].
  split; [done|]. by intros v r' [= <- <-].
Qed.

Lemma ident_tokenish f g : inline f → inline g → tokenish (ident f g).
Proof.
  intros Hf Hg [|c t] more He; [done|]. unfold ident.
  change (String c t +:+ more) with (String c (t +:+ more)). cbv iota beta.
  destruct (f c) eqn:Ec; [|failed].
  simpl in He. rewrite (Hf c Ec) in He. simpl in He.
  rewrite (span_inline_ext g t more Hg He).
  pose proof (span_has_eol g t Hg He) as Hr.
  destruct (span g t) as [a r]; simpl in *.
  split; [done|]. by intros v r' [= <- <-].
Qed.

Lemma lit_ext l s more :
  has_eol l = false → has_eol s = true →
  lit l (s +:+ more) = (λ r, r +:+ more) <$> lit l s
  ∧ ∀ r, lit l s = Some r → has_eol r = true.
Proof.
  revert s. induction l as [|a l IH]; intros s Hl He.
  - unfold lit. destruct s; simpl; split; try done; by intros r [= <-].
  - destruct s as [|b s]; [done|].
    simpl in Hl. apply orb_false_iff in Hl as [Ha Hl].
    change (String b s +:+ more) with (String b (s +:+ more)).
    unfold lit; fold lit.
    destruct (Ascii.eqb_spec a b) as [<-|Hab]; [|done].
    simpl in He. rewrite Ha in He. simpl in He. by apply IH.
Qed.

Lemma SP_ext s more :
  has_eol s = true → SP (s +:+ more) = SP s +:+ more ∧ has_eol (SP s) = true.
Proof.
  assert (inline is_sp) as HP.
  { intros c. unfold is_sp, is_eol. intros H.
    apply orb_true_iff in H as [H|H]; apply Ascii.eqb_eq in H; by subst c. }
  intros He. unfold SP. rewrite (span_inline_ext is_sp s more HP He).
  split; [done | by apply span_has_eol].
Qed.

(** The classes of the grammar's names and numbers hold no end of line. *)
Ltac inline_class :=
  let c := fresh "c" in let Hc := fresh "Hc" in let E := fresh "E" in
  intros c Hc; destruct (is_eol c) eqn:E; [|reflexivity];
  unfold is_eol in E; apply orb_true_iff in E as [E|E];
  apply Ascii.eqb_eq in E; subst c; vm_compute in Hc; discriminate Hc.

Lemma inline_digit : inline is_digit.
Proof. inline_class. Qed.
Lemma inline_word : inline is_word.
Proof. inline_class. Qed.
Lemma inline_lower : inline is_lower.
Proof. inline_class. Qed.
Lemma inline_upper : inline is_upper.
Proof. inline_class. Qed.
Lemma inline_numeric : inline is_numeric.
Proof. inline_class. Qed.
Lemma inline_hash : inline (Ascii.eqb "#").
Proof. inline_class. Qed.

(** One step of a rule on the longer text: the sub-rule [p], known to
    stay on its line by [lem], gives what it gives on the text itself. *)
Ltac step_rule p lem :=
  match goal with
  | He : has_eol ?u = true |- context [p (?u +:+ ?more)] =>
      let E := fresh "E" in
      let Hr := fresh "Hr" in
      destruct (lem u more He) as [E Hr]; rewrite E; clear E;
      let v := fresh "v" in
      let r := fresh "r" in
      let Ep := fresh "Ep" in
      destruct (p u) as [[v r]|] eqn:Ep;
      [specialize (Hr _ _ eq_refl) | clear Hr];
      cbn [ext mbind option_bind]
  end.

(** The same for a literal. *)
Ltac step_lit l :=
  match goal with
  | He : has_eol ?u = true |- context [lit l (?u +:+ ?more)] =>
      let E := fresh "E" in
      let Hr := fresh "Hr" in
      destruct (lit_ext l u more eq_refl He) as [E Hr]; rewrite E; clear E;
      let r := fresh "r" in
      let Ep := fresh "Ep" in
      destruct (lit l u) as [r|] eqn:Ep;
      [specialize (Hr _ eq_refl) | clear Hr];
      cbn [fmap option_fmap option_map mbind option_bind]
  end.

(** The same for blanks. *)
Ltac step_SP :=
  match goal with
  | He : has_eol ?u = true |- context [SP (?u +:+ ?more)] =>
      let E := fresh "E" in
      let Hr := fresh "Hr" in
      destruct (SP_ext u more He) as [E Hr]; rewrite E; clear E
  end.

(** A match that succeeds on both texts, with the same value. *)
Ltac matched :=
  split; [reflexivity |];
  let H := fresh in intros ? ? H; injection H as <- <-; assumption.

Lemma stringbound_tokenish : tokenish stringbound.
Proof.
  intros s more He. unfold stringbound.
  step_lit "<="; [|failed].
  step_rule (span1 is_digit) (span1_tokenish is_digit inline_digit); [|failed].
  matched.
Qed.

Lemma arraybound_tokenish : tokenish arraybound.
Proof.
  intros s more He. unfold arraybound.
  step_rule stringbound stringbound_tokenish; [matched|].
  step_rule (span1 is_digit) (span1_tokenish is_digit inline_digit); [matched | failed].
Qed.

Lemma primitivetype_tokenish : tokenish primitivetype.
Proof.
  assert (inline (λ c, is_lower c || is_digit c)) as HP by inline_class.
  intros s more He. unfold primitivetype.
  step_rule (span1 (λ c, is_lower c || is_digit c)) (span1_tokenish _ HP);
    [matched | failed].
Qed.

Lemma stringtype_tokenish : tokenish stringtype.
Proof.
  intros s more He. unfold stringtype.
  step_lit "string"; [|failed].
  step_rule stringbound stringbound_tokenish; matched.
Qed.

Lemma packagename_tokenish : tokenish packagename.
Proof.
  apply ident_tokenish; [apply inline_lower | inline_class].
Qed.

Lemma msgname_tokenish : tokenish msgname.
Proof. apply ident_tokenish; [apply inline_upper | apply inline_word]. Qed.

Lemma fieldname_tokenish : tokenish fieldname.
Proof. apply ident_tokenish; [apply inline_lower | inline_class]. Qed.

Lemma constname_tokenish : tokenish constname.
Proof. apply ident_tokenish; [apply inline_upper | inline_class]. Qed.

Lemma numericval_tokenish : tokenish numericval.
Proof. apply span1_tokenish, inline_numeric. Qed.

Lemma complextype_tokenish : tokenish complextype.
Proof.
  intros s more He. unfold complextype.
  step_rule packagename packagename_tokenish.
  - step_lit "/".
    + step_rule msgname msgname_tokenish; [matched | failed].
    + step_rule msgname msgname_tokenish; [matched | failed].
  - step_rule msgname msgname_tokenish; [matched | failed].
Qed.

Lemma basetype_tokenish : tokenish basetype.
Proof.
  intros s more He. unfold basetype.
  step_rule complextype complextype_tokenish; [matched|].
  step_rule stringtype stringtype_tokenish; [matched|].
  step_rule primitivetype primitivetype_tokenish; [matched | failed].
Qed.

Lemma arrayspec_tokenish : tokenish arrayspec.
Proof.
  intros s more He. unfold arrayspec.
  step_lit "["; [|failed].
  step_rule arraybound arraybound_tokenish.
  - step_lit "]"; [matched | failed].
  - step_lit "]"; [matched | failed].
Qed.

Lemma type_tokenish : tokenish type.
Proof.
  intros s more He. unfold type.
  step_rule basetype basetype_tokenish; [|failed].
  destruct v as [[pkg t] cx].
  step_rule arrayspec arrayspec_tokenish; matched.
Qed.

Lemma boolval_tokenish : tokenish boolval.
Proof.
  intros [|c t] more He; [done|]. unfold boolval.
  change (String c t +:+ more) with (String c (t +:+ more)). cbv iota beta.
  simpl in He.
  destruct (Ascii.eqb c "T" || Ascii.eqb c "t") eqn:Et.
  { assert (is_eol c = false) as Hc.
    { apply orb_true_iff in Et as [E|E]; apply Ascii.eqb_eq in E; by subst c. }
    rewrite Hc in He. simpl in He.
    step_lit "rue"; [matched | failed]. }
  destruct (Ascii.eqb c "F" || Ascii.eqb c "f") eqn:Ef; [|failed].
  assert (is_eol c = false) as Hc.
  { apply orb_true_iff in Ef as [E|E]; apply Ascii.eqb_eq in E; by subst c. }
  rewrite Hc in He. simpl in He.
  step_lit "alse"; [matched | failed].
Qed.

(** *** Values: a literal that is closed stays as it is *)

Lemma bracketed_ext o c s m r more :
  bracketed o c s = Some (m, r) →
  bracketed o c (s +:+ more) = Some (m, r +:+ more).
Proof.
  destruct s as [|x t]; [done|]. unfold bracketed.
  change (String x t +:+ more) with (String x (t +:+ more)). cbv iota beta.
  destruct (Ascii.eqb x o); [|done].
  destruct (span (is_not c) t) as [body [|y r']] eqn:E; [done|].
  intros [= <- <-].
  rewrite (span_ext (is_not c) t more) by (rewrite E; done).
  rewrite E. reflexivity.
Qed.

Lemma bracketed_first o c x t :
  Ascii.eqb x o = false → bracketed o c (String x t) = None.
Proof. unfold bracketed. by intros ->. Qed.

Lemma bracketed_starts o c s m r :
  bracketed o c s = Some (m, r) → ∃ t, s = String o t.
Proof.
  destruct s as [|x t]; [done|]. unfold bracketed.
  destruct (Ascii.eqb_spec x o) as [->|]; [eauto | done].
Qed.

Lemma quoted_ext q s m r more :
  is_lower q = false →
  quoted q s = Some (m, r) →
  quoted q (s +:+ more) = Some (m, r +:+ more).
Proof.
  intros Hq. destruct s as [|x t]; [done|]. unfold quoted.
  change (String x t +:+ more) with (String x (t +:+ more)). cbv iota beta.
  destruct (is_lower x) eqn:Ex.
  - destruct (bracketed q q t) as [[m' r']|] eqn:Eb; cbn [mbind option_bind].
    + intros [= <- <-]. by rewrite (bracketed_ext _ _ _ _ _ more Eb).
    + intros Hs. apply bracketed_starts in Hs as [t' [= -> _]]. congruence.
  - intros Hs. apply (bracketed_ext _ _ _ _ _ more Hs).
Qed.

(** Where a single-quoted literal starts, no double-quoted one does. *)
Lemma quoted_other s m r more :
  quoted SQ s = Some (m, r) → quoted DQ (s +:+ more) = None.
Proof.
  destruct s as [|x t]; [done|]. unfold quoted.
  change (String x t +:+ more) with (String x (t +:+ more)). cbv iota beta.
  destruct (is_lower x) eqn:Ex.
  - assert (Ascii.eqb x DQ = false) as Hx.
    { destruct (Ascii.eqb_spec x DQ) as [->|]; [done | reflexivity]. }
    destruct (bracketed SQ SQ t) as [[m' r']|] eqn:Eb; cbn [mbind option_bind].
    + intros _. apply bracketed_starts in Eb as [t' ->].
      change (String SQ t' +:+ more) with (String SQ (t' +:+ more)).
      rewrite (bracketed_first DQ DQ SQ) by reflexivity. cbn [mbind option_bind].
      by apply bracketed_first.
    + intros Hs. apply bracketed_starts in Hs as [t' [= -> _]]. done.
  - intros Hs. apply bracketed_starts in Hs as [t' [= -> _]].
    by apply bracketed_first.
Qed.

Lemma stringval_ext s m r more :
  stringval s = Some (m, r) → stringval (s +:+ more) = Some (m, r +:+ more).
Proof.
  unfold stringval. destruct (quoted DQ s) as [[m' r']|] eqn:Ed.
  - intros [= <- <-]. by rewrite (quoted_ext DQ _ _ _ more eq_refl Ed).
  - intros Hs. rewrite (quoted_other _ _ _ more Hs).
    by apply (quoted_ext SQ).
Qed.

(** Where an array literal starts, no string literal does. *)
Lemma arrayval_other s m r more :
  arrayval s = Some (m, r) → stringval (s +:+ more) = None.
Proof.
  intros Hs. apply bracketed_starts in Hs as [t ->]. reflexivity.
Qed.

Lemma value_ext s v r more :
  has_eol s = true →
  value s = Some (v, r) → value (s +:+ more) = Some (v, r +:+ more).
Proof.
  intros He. unfold value.
  step_rule numericval numericval_tokenish; [by intros [= <- <-]|].
  step_rule boolval boolval_tokenish; [by intros [= <- <-]|].
  destruct (stringval s) as [[m r']|] eqn:Es.
  - intros [= <- <-]. by rewrite (stringval_ext _ _ _ more Es).
  - intros Ha. rewrite (arrayval_other _ _ _ more Ha).
    by apply bracketed_ext.
Qed.

(** At a comment or at the end of the line there is no value. *)
Lemma value_none c t :
  Ascii.eqb c "#" || is_eol c = true → value (String c t) = None.
Proof.
  intros H. apply orb_true_iff in H as [H|H].
  - apply Ascii.eqb_eq in H as ->. reflexivity.
  - unfold is_eol in H. apply orb_true_iff in H as [H|H];
      apply Ascii.eqb_eq in H as ->; reflexivity.
Qed.

(** *** Comments and the end of the line *)

Lemma EOL_ext s r more : EOL s = Some r → EOL (s +:+ more) = Some (r +:+ more).
Proof.
  destruct s as [|c t]; [done|]. unfold EOL.
  change (String c t +:+ more) with (String c (t +:+ more)). cbv iota beta.
  destruct (is_eol c); [by intros [= <-] | done].
Qed.

Lemma EOL_none s more : EOL s = None → s ≠ "" → EOL (s +:+ more) = None.
Proof.
  destruct s as [|c t]; [done|]. unfold EOL.
  change (String c t +:+ more) with (String c (t +:+ more)). cbv iota beta.
  by destruct (is_eol c).
Qed.

Lemma EOL_starts s r : EOL s = Some r → ∃ c, s = String c r ∧ is_eol c = true.
Proof.
  destruct s as [|c t]; [done|]. unfold EOL.
  destruct (is_eol c) eqn:E; [|done]. intros [= <-]. eauto.
Qed.

Lemma SP_nonempty_ext s more : SP s ≠ "" → SP (s +:+ more) = SP s +:+ more.
Proof. intros H. unfold SP in *. by rewrite span_ext. Qed.

Lemma comment_ext s c r more :
  comment s = Some (c, r) → r ≠ "" →
  comment (s +:+ more) = Some (c, r +:+ more).
Proof.
  unfold comment, span1, text. intros H Hr.
  destruct (span (Ascii.eqb "#") s) as [[|h hs] r1] eqn:E1; [done|].
  cbn [mbind option_bind] in H.
  assert (SP r1 ≠ "") as Hsp.
  { intros E. rewrite E in H. by injection H as _ <-. }
  assert (r1 ≠ "") as Hr1 by (by intros ->).
  rewrite (span_ext (Ascii.eqb "#") s more) by (by rewrite E1).
  rewrite E1. cbn [fst snd mbind option_bind].
  rewrite (SP_nonempty_ext _ more Hsp).
  injection H as H.
  rewrite (span_ext (is_not LF) (SP r1) more) by (by rewrite H).
  by rewrite H.
Qed.

Lemma comment_none s more :
  comment s = None → s ≠ "" → comment (s +:+ more) = None.
Proof.
  unfold comment, span1. intros H Hs.
  destruct (span (Ascii.eqb "#") s) as [[|h hs] r1] eqn:E1; [|done].
  assert (r1 = s) as ->.
  { pose proof (span_app (Ascii.eqb "#") s) as Ha. by rewrite E1 in Ha. }
  rewrite (span_ext (Ascii.eqb "#") s more) by (by rewrite E1).
  by rewrite E1.
Qed.

Lemma comment_starts s c r : comment s = Some (c, r) → ∃ t, s = String "#" t.
Proof.
  unfold comment, span1. destruct s as [|x t]; [done|].
  unfold span; fold span. destruct (Ascii.eqb_spec "#" x) as [<-|]; [eauto | done].
Qed.

(** *** What a match leaves is the end of what it started from *)

Lemma has_eol_cons c t : has_eol t = true → has_eol (String c t) = true.
Proof. simpl. intros ->. apply orb_true_r. Qed.

Lemma span_back P s a r :
  span P s = (a, r) → has_eol r = true → has_eol s = true.
Proof.
  intros E Hr. rewrite <- (span_app P s), E. by apply has_eol_app_r.
Qed.

Lemma span1_back P s a r :
  span1 P s = Some (a, r) → has_eol r = true → has_eol s = true.
Proof.
  unfold span1. destruct (span P s) as [[|x a'] r'] eqn:E; [done|].
  intros [= <- <-]. by apply (span_back P s _ _ E).
Qed.

Lemma SP_back s : has_eol (SP s) = true → has_eol s = true.
Proof.
  unfold SP. destruct (span is_sp s) as [a r] eqn:E. by apply (span_back _ _ _ _ E).
Qed.

Lemma lit_back l s r : lit l s = Some r → has_eol r = true → has_eol s = true.
Proof.
  revert s. induction l as [|a l IH]; intros [|b s]; unfold lit; fold lit;
    try done; try (by intros [= <-]).
  destruct (Ascii.eqb a b); [|done]. intros H Hr. apply has_eol_cons. eauto.
Qed.

Lemma ident_back f g s a r :
  ident f g s = Some (a, r) → has_eol r = true → has_eol s = true.
Proof.
  destruct s as [|c t]; [done|]. unfold ident.
  destruct (f c); [|done]. destruct (span g t) as [a' r'] eqn:E.
  intros [= <- <-] Hr. apply has_eol_cons. by apply (span_back _ _ _ _ E).
Qed.

Lemma bracketed_back o c s m r :
  bracketed o c s = Some (m, r) → has_eol r = true → has_eol s = true.
Proof.
  destruct s as [|x t]; [done|]. unfold bracketed.
  destruct (Ascii.eqb x o); [|done].
  destruct (span (is_not c) t) as [body [|y r']] eqn:E; [done|].
  intros [= <- <-] Hr. apply has_eol_cons.
  apply (span_back _ _ _ _ E). by apply has_eol_cons.
Qed.

Lemma quoted_back q s m r :
  quoted q s = Some (m, r) → has_eol r = true → has_eol s = true.
Proof.
  unfold quoted. intros H Hr. cases;
    repeat match goal with
    | H : bracketed _ _ _ = Some _ |- _ =>
        apply bracketed_back in H; [|assumption]
    end; try assumption; by apply has_eol_cons.
Qed.

(** The end of line that a match leaves was there when it started. *)
Ltac back_with lem H :=
  first [ generalize (lem _ _ _ H) | generalize (lem _ _ _ _ H)
        | generalize (lem _ _ _ _ _ H) ];
  clear H; intros H.
Ltac back :=
  repeat match goal with
  | H : span1 _ _ = Some _ |- _ => back_with span1_back H
  | H : span _ _ = (_, _) |- _ => back_with span_back H
  | H : quoted _ _ = Some _ |- _ => back_with quoted_back H
  | H : bracketed _ _ _ = Some _ |- _ => back_with bracketed_back H
  | H : ident _ _ _ = Some _ |- _ => back_with ident_back H
  | H : lit _ _ = Some _ |- _ => back_with lit_back H
  | |- context [SP ?s] => lazymatch goal with
                         | _ : has_eol (SP s) = true → _ |- _ => fail
                         | _ => pose proof (SP_back s)
                         end
  | _ : context [SP ?s] |- _ => lazymatch goal with
                         | _ : has_eol (SP s) = true → _ |- _ => fail
                         | _ => pose proof (SP_back s)
                         end
  end.

Lemma value_back s a r :
  value s = Some (a, r) → has_eol r = true → has_eol s = true.
Proof.
  unfold value, numericval, stringval, arrayval, boolval.
  intros H. cases; back; try tauto; intros; apply has_eol_cons; tauto.
Qed.

Lemma comment_back s a r :
  comment s = Some (a, r) → has_eol r = true → has_eol s = true.
Proof. unfold comment, text. intros H. cases; back. tauto. Qed.

Lemma opt_back p s a r :
  (∀ s a r, p s = Some (a, r) → has_eol r = true → has_eol s = true) →
  opt p s = (a, r) → has_eol r = true → has_eol s = true.
Proof.
  unfold opt. intros Hp H. destruct (p s) as [[a' r']|] eqn:E; simplify_eq; [|done].
  by eapply Hp.
Qed.

Lemma type_back s t r :
  type s = Some (t, r) → has_eol r = true → has_eol s = true.
Proof.
  unfold type, basetype, complextype, stringtype, primitivetype, arrayspec,
    arraybound, stringbound, packagename, msgname.
  intros H. cases; back; tauto.
Qed.

Lemma field_back s p r :
  field s = Some (p, r) → has_eol r = true → has_eol s = true.
Proof.
  unfold field, fieldname. intros H. cases.
  repeat match goal with
  | H : type _ = Some _ |- _ => back_with type_back H
  | H : opt value _ = _ |- _ =>
      generalize (opt_back _ _ _ _ value_back H); clear H; intros H
  | H : opt comment _ = _ |- _ =>
      generalize (opt_back _ _ _ _ comment_back H); clear H; intros H
  end; back; tauto.
Qed.

Lemma constant_back s p r :
  constant s = Some (p, r) → has_eol r = true → has_eol s = true.
Proof.
  unfold constant, constname. intros H. cases.
  repeat match goal with
  | H : type _ = Some _ |- _ => back_with type_back H
  | H : value _ = Some _ |- _ => back_with value_back H
  | H : opt comment _ = _ |- _ =>
      generalize (opt_back _ _ _ _ comment_back H); clear H; intros H
  end; back; tauto.
Qed.

Lemma definition_back s l r :
  definition s = Some (l, r) → has_eol r = true → has_eol s = true.
Proof.
  unfold definition. intros H Hr.
  destruct (constant s) as [[p r0]|] eqn:Ec.
  - injection H as <- <-. by apply (constant_back _ _ _ Ec).
  - destruct (field s) as [[p r0]|] eqn:Ef; [|done].
    injection H as <- <-. by apply (field_back _ _ _ Ef).
Qed.

(** *** The rest of a line after its value *)

Lemma EOL_SP_has_eol r r' : EOL (SP r) = Some r' → has_eol r = true.
Proof.
  intros H. apply EOL_starts in H as (c & E & Hc).
  apply SP_back. rewrite E. simpl. by rewrite Hc.
Qed.

Lemma EOL_SP_nonempty r r' : EOL (SP r) = Some r' → SP r ≠ "".
Proof. intros H E. by rewrite E in H. Qed.

Lemma tail_ext u c r r' more :
  opt comment (SP u) = (c, r) → EOL (SP r) = Some r' →
  opt comment (SP (u +:+ more)) = (c, r +:+ more).
Proof.
  unfold opt. intros H Ht.
  assert (r ≠ "") as Hr by (intros ->; done).
  assert (SP u ≠ "") as Hu.
  { intros E. rewrite E in H. change (comment "") with (@None (string * string)) in H.
    by injection H as _ <-. }
  rewrite (SP_nonempty_ext _ more Hu).
  destruct (comment (SP u)) as [[c' r1]|] eqn:Ec.
  - injection H as <- <-. by rewrite (comment_ext _ _ _ more Ec Hr).
  - injection H as <- <-. by rewrite (comment_none _ more Ec Hu).
Qed.

(** Where the value of a field is left out, a comment or the end of the
    line stands. *)
Lemma tail_starts x c r r' :
  opt comment (SP (SP x)) = (c, r) → EOL (SP r) = Some r' →
  ∃ y t, SP x = String y t ∧ Ascii.eqb y "#" || is_eol y = true.
Proof.
  rewrite SP_idem. unfold opt. intros H Ht.
  destruct (comment (SP x)) as [[c' r1]|] eqn:Ec.
  - apply comment_starts in Ec as [t ->]. by exists "#"%char, t.
  - injection H as <- <-. rewrite SP_idem in Ht.
    apply EOL_starts in Ht as (y & -> & Hy). exists y, r'.
    split; [done|]. rewrite Hy. apply orb_true_r.
Qed.

(** *** Fields, constants and lines *)

(** A field name starts in lower case, the name of a constant in upper
    case. *)
Lemma lower_not_upper c : is_lower c = true → is_upper c = false.
Proof.
  unfold is_lower, is_upper, in_range, code.
  change (N_of_ascii "a") with 97%N. change (N_of_ascii "z") with 122%N.
  change (N_of_ascii "A") with 65%N. change (N_of_ascii "Z") with 90%N.
  intros H. apply andb_true_iff in H as [H1 H2].
  apply N.leb_le in H1. apply andb_false_iff. right. apply N.leb_gt. lia.
Qed.

Lemma fieldname_not_constname u n r : fieldname u = Some (n, r) → constname u = None.
Proof.
  destruct u as [|c t]; [done|]. unfold fieldname, constname, ident.
  destruct (is_lower c) eqn:Ec; [|done]. intros _.
  by rewrite (lower_not_upper c Ec).
Qed.

Lemma value_tail_ext x v r4 c r r' more :
  has_eol (SP x) = true →
  opt value (SP x) = (v, r4) →
  opt comment (SP r4) = (c, r) → EOL (SP r) = Some r' →
  opt value (SP x +:+ more) = (v, r4 +:+ more).
Proof.
  intros He. unfold opt at 1 3.
  destruct (value (SP x)) as [[v' r4']|] eqn:Ev.
  - intros [= <- <-] _ _. by rewrite (value_ext _ _ _ more He Ev).
  - intros [= <- <-] Ec Ht.
    destruct (tail_starts _ _ _ _ Ec Ht) as (y & t & Ey & Hy).
    rewrite Ey. change (String y t +:+ more) with (String y (t +:+ more)).
    by rewrite (value_none y _ Hy).
Qed.

Lemma field_ext s p r r' more :
  has_eol s = true →
  field s = Some (p, r) → EOL (SP r) = Some r' →
  field (s +:+ more) = Some (p, r +:+ more).
Proof.
  intros He H Ht. revert H. unfold field.
  step_rule type type_tokenish; [|done].
  step_SP.
  step_rule fieldname fieldname_tokenish; [|done].
  step_SP.
  step_lit "="; [done|].
  destruct (opt value (SP r1)) as [v1 r4] eqn:Ev.
  destruct (opt comment (SP r4)) as [c r5] eqn:Ec. intros [= <- <-].
  rewrite (value_tail_ext _ _ _ _ _ _ more Hr2 Ev Ec Ht).
  by rewrite (tail_ext _ _ _ _ more Ec Ht).
Qed.

Lemma constant_ext s p r r' more :
  has_eol s = true →
  constant s = Some (p, r) → EOL (SP r) = Some r' →
  constant (s +:+ more) = Some (p, r +:+ more).
Proof.
  intros He H Ht. revert H. unfold constant.
  step_rule type type_tokenish; [|done].
  step_SP.
  step_rule constname constname_tokenish; [|done].
  step_SP.
  step_lit "="; [|done].
  step_SP.
  destruct (value (SP r2)) as [[v1 r4]|] eqn:Ev; [|done].
  rewrite (value_ext _ _ _ more Hr4 Ev). cbn [mbind option_bind].
  destruct (opt comment (SP r4)) as [c r5] eqn:Ec. intros [= <- <-].
  by rewrite (tail_ext _ _ _ _ more Ec Ht).
Qed.

(** Where a field matches, no constant does. *)
Lemma constant_none_of_field s p r more :
  has_eol s = true →
  field s = Some (p, r) → constant (s +:+ more) = None.
Proof.
  intros He H. revert H. unfold field, constant.
  step_rule type type_tokenish; [|done].
  step_SP.
  destruct (fieldname (SP r0)) as [[n r1]|] eqn:En; [|done]. intros _.
  destruct (constname_tokenish (SP r0) more Hr0) as [-> _].
  by rewrite (fieldname_not_constname _ _ _ En).
Qed.

Lemma definition_ext s l r r' more :
  has_eol s = true →
  definition s = Some (l, r) → EOL (SP r) = Some r' →
  definition (s +:+ more) = Some (l, r +:+ more).
Proof.
  intros He H Ht. revert H. unfold definition.
  destruct (constant s) as [[p r0]|] eqn:Ec.
  - intros [= <- <-]. by rewrite (constant_ext _ _ _ _ more He Ec Ht).
  - destruct (field s) as [[p r0]|] eqn:Ef; [|done].
    cbn [mbind option_bind]. intros [= <- <-].
    rewrite (constant_none_of_field _ _ _ more He Ef).
    by rewrite (field_ext _ _ _ _ more He Ef Ht).
Qed.

Lemma line_ext s l r more :
  line s = Some (Some l, r) → line (s +:+ more) = Some (Some l, r +:+ more).
Proof.
  unfold line. intros H.
  assert (SP s ≠ "") as Hs.
  { intros E. rewrite E in H.
    change (comment "") with (@None (string * string)) in H.
    change (definition "") with (@None (Line * string)) in H.
    cbv iota beta in H. by destruct (EOL (SP "")). }
  rewrite (SP_nonempty_ext _ more Hs). revert H.
  destruct (comment (SP s)) as [[c r1]|] eqn:Ec.
  - destruct (EOL (SP r1)) as [r2|] eqn:Et; [|done].
    cbn [mbind option_bind]. intros [= <- <-].
    assert (r1 ≠ "") as Hr1 by (intros ->; done).
    rewrite (comment_ext _ _ _ more Ec Hr1).
    rewrite (SP_nonempty_ext _ more (EOL_SP_nonempty _ _ Et)).
    by rewrite (EOL_ext _ _ more Et).
  - rewrite (comment_none _ more Ec Hs).
    destruct (definition (SP s)) as [[d r1]|] eqn:Ed.
    + destruct (EOL (SP r1)) as [r2|] eqn:Et; [|done].
      cbn [mbind option_bind]. intros [= <- <-].
      assert (has_eol (SP s) = true) as He.
      { apply (definition_back _ _ _ Ed). by apply (EOL_SP_has_eol _ _ Et). }
      rewrite (definition_ext _ _ _ _ more He Ed Et).
      rewrite (SP_nonempty_ext _ more (EOL_SP_nonempty _ _ Et)).
      by rewrite (EOL_ext _ _ more Et).
    + destruct (EOL (SP (SP s))); [|done]. cbn [mbind option_bind]. done.
Qed.

(** The same item matches when more text follows the line. *)
Lemma item_ext s l r more :
  item s = Some (l, r) → item (s +:+ more) = Some (l, r +:+ more).
Proof.
  unfold item, emptyline.
  destruct (EOL (SP s)) as [r1|] eqn:Ee; cbn [mbind option_bind].
  - intros [= <- <-].
    rewrite (SP_nonempty_ext _ more (EOL_SP_nonempty _ _ Ee)).
    by rewrite (EOL_ext _ _ more Ee).
  - destruct (line s) as [[[l'|] r1]|] eqn:El; try done.
    intros [= <- <-].
    assert (SP s ≠ "") as Hs.
    { intros E. unfold line in El. rewrite E in El.
      change (comment "") with (@None (string * string)) in El.
      change (definition "") with (@None (Line * string)) in El.
      cbv iota beta in El. by destruct (EOL (SP "")). }
    rewrite (SP_nonempty_ext _ more Hs).
    rewrite (EOL_none _ more Ee Hs). cbn [mbind option_bind].
    by rewrite (line_ext _ _ _ more El).
Qed.

(** The lines of a text are lines of every text that continues it. *)
Lemma lines_ext s doc r more :
  lines s doc r → lines (s +:+ more) doc (r +:+ more).
Proof.
  induction 1 as [s|s l r ls r' Hi Hl IH]; [constructor|].
  econstructor; [by apply item_ext | exact IH].
Qed.

End stability.

(** C3. [parse_msg] returns a document exactly when consecutive lines of
    the grammar cover the text up to its end, the document being the items
    of these lines; it returns no document exactly when the lines stop
    before the end, at a place where no line matches, and then the items
    matched so far are dropped.  In particular a text whose lines arrive
    at the malformed line [123abc BadType] is rejected as a whole,
    whatever follows the line, and nothing is written for it; such is
    every text made of a text that parses, the malformed line and
    anything after it. *)
Theorem parse_msg_all_or_nothing :
  (∀ text doc, msg2proto.parse_msg text = Some doc ↔ lines text doc "")
  ∧ (∀ text,
       msg2proto.parse_msg text = None
       ↔ ∃ doc rest, lines text doc rest ∧ rest ≠ ""
                     ∧ msg2proto.grammar.item rest = None)
  ∧ (∀ text doc post,
       lines text doc (bad_line +:+ post) →
       msg2proto.parse_msg text = None
       ∧ ∀ msg_name pkg, msg2proto.convert_msg_file msg_name text pkg = None)
  ∧ (∀ pre doc post,
       msg2proto.parse_msg pre = Some doc →
       lines (pre +:+ bad_line +:+ post) doc (bad_line +:+ post)
       ∧ msg2proto.parse_msg (pre +:+ bad_line +:+ post) = None
       ∧ ∀ msg_name pkg,
           msg2proto.convert_msg_file msg_name (pre +:+ bad_line +:+ post) pkg = None).
Proof.
  assert (∀ text doc post,
            lines text doc (bad_line +:+ post) →
            msg2proto.parse_msg text = None
            ∧ ∀ msg_name pkg, msg2proto.convert_msg_file msg_name text pkg = None)
    as Hbad.
  { intros text doc post Hl.
    assert (msg2proto.parse_msg text = None) as Hnone.
    { apply parse_None. exists doc, (bad_line +:+ post).
      split; [done|]. split; [done | apply bad_line_no_item]. }
    split; [done|]. intros msg_name pkg.
    unfold msg2proto.convert_msg_file. by rewrite Hnone. }
  split; [apply parse_Some|]. split; [apply parse_None|]. split; [exact Hbad|].
  intros pre doc post Hp. apply parse_Some in Hp.
  apply (lines_ext _ _ _ (bad_line +:+ post)) in Hp.
  change ("" +:+ (bad_line +:+ post)) with (bad_line +:+ post) in Hp.
  split; [exact Hp | by apply (Hbad _ doc post)].
Qed.

Lemma parse_msg_rejects_bad_line_after_a_field :
  msg2proto.parse_msg ("int32 x" +:+ NL)
  = Some [msg2proto.Field
            {| msg2proto.type :=
                 {| msg2proto.package := ""; msg2proto.typename := "int32";
                    msg2proto.is_complextype := false; msg2proto.is_array := false;
                    msg2proto.arraybound := None |};
               msg2proto.name := "x"; msg2proto.value := "";
               msg2proto.comment := "" |}]
  ∧ msg2proto.parse_msg
      (("int32 x" +:+ NL) +:+ bad_line +:+ (NL +:+ "int32 y" +:+ NL)) = None.
Proof.
  assert (msg2proto.parse_msg ("int32 x" +:+ NL)
          = Some [msg2proto.Field
                    {| msg2proto.type :=
                         {| msg2proto.package := ""; msg2proto.typename := "int32";
                            msg2proto.is_complextype := false;
                            msg2proto.is_array := false;
                            msg2proto.arraybound := None |};
                       msg2proto.name := "x"; msg2proto.value := "";
                       msg2proto.comment := "" |}]) as Hpre
    by (vm_compute; reflexivity).
  split; [exact Hpre|].
  exact (proj1 (proj2 (proj2 (proj2 (proj2 parse_msg_all_or_nothing))
                         ("int32 x" +:+ NL) _ (NL +:+ "int32 y" +:+ NL) Hpre))).
Defined.

(** ** protoc_gen_msg: the reverse TypeMap *)

Section reverse_type_map.
Import protoc_gen_msg.

(** The type codes without an entry in the table are those outside 1..18. *)
Lemma type_table_entry (t : Z) :
  py_dict type_table !! t = None ↔ (t < 1 ∨ 18 < t)%Z.
Proof.
  split.
  - intros Hnone.
    destruct (decide (1 ≤ t ≤ 18)%Z) as [Hin|Hout]; [|lia].
    assert (t = 1 ∨ t = 2 ∨ t = 3 ∨ t = 4 ∨ t = 5 ∨ t = 6 ∨ t = 7 ∨ t = 8 ∨ t = 9
            ∨ t = 10 ∨ t = 11 ∨ t = 12 ∨ t = 13 ∨ t = 14 ∨ t = 15 ∨ t = 16
            ∨ t = 17 ∨ t = 18)%Z as Hcases by lia.
    destruct_or!; subst t; vm_compute in Hnone; discriminate Hnone.
  - intros Hout. unfold py_dict, type_table. cbn [foldl fst snd].
    unfold TYPE_DOUBLE, TYPE_FLOAT, TYPE_INT64, TYPE_UINT64, TYPE_INT32,
      TYPE_FIXED64, TYPE_FIXED32, TYPE_BOOL, TYPE_STRING, TYPE_GROUP,
      TYPE_MESSAGE, TYPE_BYTES, TYPE_UINT32, TYPE_ENUM, TYPE_SFIXED32,
      TYPE_SFIXED64, TYPE_SINT32, TYPE_SINT64.
    rewrite !lookup_insert_ne by lia. apply lookup_empty.
Qed.

Lemma map_type_no_entry (t : Z) :
  py_dict type_table !! t = None → map_type t = "string".
Proof. unfold map_type, dict_get. by intros ->. Qed.

(** The names [TYPE_MESSAGE] and [TYPE_ENUM] are the entries of the
    message kind and of the enum kind, and of no other type code. *)
Lemma map_type_kind (t : Z) :
  String.eqb (map_type t) "TYPE_MESSAGE" = bool_decide (t = TYPE_MESSAGE)
  ∧ String.eqb (map_type t) "TYPE_ENUM" = bool_decide (t = TYPE_ENUM).
Proof.
  destruct (decide (1 ≤ t ≤ 18)%Z) as [Hin|Hout].
  - assert (t = 1 ∨ t = 2 ∨ t = 3 ∨ t = 4 ∨ t = 5 ∨ t = 6 ∨ t = 7 ∨ t = 8 ∨ t = 9
            ∨ t = 10 ∨ t = 11 ∨ t = 12 ∨ t = 13 ∨ t = 14 ∨ t = 15 ∨ t = 16
            ∨ t = 17 ∨ t = 18)%Z as Hcases by lia.
    destruct_or!; subst t; by vm_compute.
  - rewrite (map_type_no_entry t) by (apply type_table_entry; lia).
    unfold TYPE_MESSAGE, TYPE_ENUM.
    rewrite !bool_decide_eq_false_2 by lia. done.
Qed.

Lemma is_message_field_kind f :
  is_message_field f = bool_decide (field_type f = TYPE_MESSAGE).
Proof. apply map_type_kind. Qed.

Lemma is_enum_field_kind f :
  is_enum_field f = bool_decide (field_type f = TYPE_ENUM).
Proof. apply map_type_kind. Qed.

End reverse_type_map.

(** ** protoc_gen_msg: every referenced enum is inlined once *)

Section enum_inlining.
Import protoc_gen_msg.

#[local] Arguments map_type : simpl never.
#[local] Arguments map_label : simpl never.
#[local] Arguments map_type_name : simpl never.
#[local] Arguments split : simpl never.
#[local] Arguments generate_enum : simpl never.
#[local] Arguments message_fieldtype : simpl never.
#[local] Arguments enum_name_of : simpl never.
#[local] Arguments eq_str : simpl never.

Lemma add_referenced_enums_text enums output referenced_enums :
  (add_referenced_enums enums output referenced_enums).1
  = output +:+ blocks_text (inlined enums referenced_enums).
Proof.
  unfold add_referenced_enums.
  revert output referenced_enums.
  induction enums as [|e es IH]; intros output refs; simpl.
  - by rewrite string_app_nil_r.
  - destruct (bool_decide (enum_name e ∈ refs)); simpl.
    + by rewrite IH, string_app_assoc.
    + apply IH.
Qed.

Lemma inlined_unreferenced n enums refs :
  n ∉ refs → blocks_of n (inlined enums refs) = 0.
Proof.
  unfold blocks_of. revert refs.
  induction enums as [|e es IH]; intros refs Hn; simpl; [done|].
  case_bool_decide as He.
  - rewrite filter_cons. rewrite decide_False by (intros <-; done).
    apply IH. rewrite elem_of_difference. tauto.
  - by apply IH.
Qed.

Lemma inlined_referenced n enums refs :
  n ∈ refs → n ∈ enum_name <$> enums → blocks_of n (inlined enums refs) = 1.
Proof.
  unfold blocks_of. revert refs.
  induction enums as [|e es IH]; intros refs Hn Hin; simpl.
  - by apply elem_of_nil in Hin.
  - rewrite fmap_cons in Hin. apply elem_of_cons in Hin.
    case_bool_decide as He.
    + rewrite filter_cons. destruct (decide (enum_name e = n)) as [Heq|Hne].
      * simpl. f_equal. apply (inlined_unreferenced n).
        rewrite elem_of_difference, elem_of_singleton. intros [_ Hd]. by apply Hd.
      * apply IH.
        -- rewrite elem_of_difference, elem_of_singleton. split; [done | congruence].
        -- destruct Hin as [Hin|Hin]; [congruence | done].
    + apply IH; [done|]. destruct Hin as [Hin|Hin]; [congruence | done].
Qed.

Lemma field_line_refs pkg f refs l refs' :
  field_line pkg f refs = Some (l, refs') →
  refs' = if is_enum_field f
          then {[ enum_name_of (field_type_name f) ]} ∪ refs else refs.
Proof.
  unfold field_line, is_enum_field. intros H.
  destruct (String.eqb_spec (map_type (field_type f)) "TYPE_MESSAGE") as [Em|Em].
  - rewrite Em. change (String.eqb "TYPE_MESSAGE" "TYPE_ENUM") with false.
    destruct (message_fieldtype (field_type_name f) pkg) as [ft|];
      cbn [mbind option_bind] in H; [|done].
    apply (inj Some), (f_equal snd) in H. symmetry. exact H.
  - destruct (String.eqb (map_type (field_type f)) "TYPE_ENUM");
      cbn [mbind option_bind] in H;
      apply (inj Some), (f_equal snd) in H; symmetry; exact H.
Qed.

Lemma message_fields_refs pkg fields output refs output' refs' n :
  message_fields pkg fields output refs = Some (output', refs') →
  n ∈ refs' ↔ n ∈ refs ∨ Exists (λ f, is_enum_field f
                                       ∧ enum_name_of (field_type_name f) = n) fields.
Proof.
  revert output refs. induction fields as [|f fs IH]; intros output refs;
    cbn [message_fields].
  - intros H. apply (inj Some), (f_equal snd) in H. cbn [snd] in H. subst refs'.
    rewrite Exists_nil. tauto.
  - destruct (field_line pkg f refs) as [[l refs1]|] eqn:E;
      cbn [mbind option_bind]; [|discriminate].
    intros H. apply IH in H. rewrite H, Exists_cons.
    apply field_line_refs in E. subst refs1.
    destruct (is_enum_field f).
    + rewrite elem_of_union, elem_of_singleton. cbn [Is_true]. intuition.
    + cbn [Is_true]. intuition.
Qed.

Lemma field_line_total pkg f refs :
  (is_message_field f → 2 ≤ length (split "." (field_type_name f))) →
  is_Some (field_line pkg f refs).
Proof.
  unfold field_line, is_message_field, message_fieldtype. intros Hq.
  destruct (String.eqb (map_type (field_type f)) "TYPE_MESSAGE").
  - specialize (Hq I).
    destruct (lookup_lt_is_Some_2 (split "." (field_type_name f)) 1 ltac:(lia))
      as [second ->]. cbn [mbind option_bind]. eexists. reflexivity.
  - destruct (String.eqb (map_type (field_type f)) "TYPE_ENUM");
      cbn [mbind option_bind]; eexists; reflexivity.
Qed.

Lemma message_fields_total pkg fields output refs :
  Forall (λ f, is_message_field f → 2 ≤ length (split "." (field_type_name f)))
         fields →
  is_Some (message_fields pkg fields output refs).
Proof.
  intros Hq. revert output refs.
  induction Hq as [|f fs Hf _ IH]; intros output refs; cbn [message_fields].
  - eexists. reflexivity.
  - destruct (field_line_total pkg f refs Hf) as [[l refs1] ->].
    cbn [mbind option_bind]. apply IH.
Qed.

Lemma references_Exists n message :
  1 ≤ references n message →
  Exists (λ f, is_enum_field f ∧ enum_name_of (field_type_name f) = n)
         (message_field message).
Proof.
  unfold references. intros H.
  destruct (filter _ (message_field message)) as [|f fs] eqn:E; [simpl in H; lia|].
  assert (f ∈ filter (λ f, field_type f = TYPE_ENUM
                           ∧ enum_name_of (field_type_name f) = n)
                     (message_field message)) as Hin by (rewrite E; left).
  apply list_elem_of_filter in Hin as [[Hk Hn] Hin].
  apply Exists_exists. exists f. split; [done|]. split; [|done].
  rewrite is_enum_field_kind. by apply bool_decide_pack.
Qed.

Lemma qualified_message_fields message :
  qualified message →
  Forall (λ f, is_message_field f → 2 ≤ length (split "." (field_type_name f)))
         (message_field message).
Proof.
  unfold qualified. intros Hq. eapply Forall_impl; [exact Hq|].
  intros f Hf Hm. apply Hf.
  rewrite is_message_field_kind in Hm. by apply bool_decide_unpack in Hm.
Qed.

End enum_inlining.

(** ** protoc_gen_msg: the headers of the enum blocks in the text *)

Section block_lines.
Import protoc_gen_msg.

#[local] Arguments split : simpl never.

Lemma headers_line n l rest :
  contains LF l = false →
  block_headers n (l +:+ String LF rest)
  = (if decide (l = "# " +:+ n) then 1 else 0) + block_headers n rest.
Proof.
  intros Hl. unfold block_headers, text_lines.
  rewrite (split_first _ _ _ Hl), filter_cons.
  by destruct (decide (l = "# " +:+ n)).
Qed.

Lemma pretty_Z_one_line (z : Z) : contains LF (pretty z) = false.
Proof.
  destruct (pretty_Z_numeric z) as [H _].
  induction (pretty z) as [|c s IH]; [done|].
  cbn [all_chars contains] in *. apply andb_true_iff in H as [Hc Hs].
  rewrite (IH Hs), orb_false_r.
  destruct (Ascii.eqb_spec c LF) as [->|]; [discriminate Hc | done].
Qed.

Lemma headers_values n values rest :
  forallb (λ v, negb (contains LF (value_name v))) values = true →
  block_headers n
    (foldr (λ value acc,
              (CONSTANT_FIELD_TYPE +:+ " " +:+ value_name value +:+ "="
               +:+ pretty (value_number value) +:+ NL) +:+ acc) "" values
     +:+ rest)
  = block_headers n rest.
Proof.
  induction values as [|v vs IH]; cbn [forallb foldr]; [done|].
  intros H. apply andb_true_iff in H as [Hv Hvs]. apply negb_true_iff in Hv.
  match goal with
  | |- block_headers n (((?t +:+ ?b +:+ ?v +:+ ?e +:+ ?p +:+ NL) +:+ ?acc) +:+ rest) = _ =>
      replace (((t +:+ b +:+ v +:+ e +:+ p +:+ NL) +:+ acc) +:+ rest)
        with ((t +:+ b +:+ v +:+ e +:+ p) +:+ String LF (acc +:+ rest))
        by (rewrite !string_app_assoc; reflexivity)
  end.
  rewrite headers_line.
  - rewrite decide_False by (intros H; discriminate H). by rewrite IH.
  - rewrite !contains_app, Hv, pretty_Z_one_line. reflexivity.
Qed.

Lemma headers_enum n enum rest :
  on_one_line enum = true →
  block_headers n (generate_enum enum +:+ rest)
  = (if decide (enum_name enum = n) then 1 else 0) + block_headers n rest.
Proof.
  unfold on_one_line. intros H. apply andb_true_iff in H as [Hn Hv].
  apply negb_true_iff in Hn. unfold generate_enum.
  rewrite (foldl_append (λ value,
             CONSTANT_FIELD_TYPE +:+ " " +:+ value_name value +:+ "="
             +:+ pretty (value_number value) +:+ NL)).
  match goal with
  | |- block_headers n (((NL +:+ ?h +:+ ?name +:+ NL) +:+ ?vs) +:+ rest) = _ =>
      replace (((NL +:+ h +:+ name +:+ NL) +:+ vs) +:+ rest)
        with ("" +:+ String LF ((h +:+ name) +:+ String LF (vs +:+ rest)))
        by (rewrite !string_app_assoc; reflexivity)
  end.
  rewrite (headers_line n "" _ eq_refl).
  rewrite decide_False by (intros H; discriminate H).
  rewrite headers_line by (by rewrite contains_app, Hn).
  rewrite (headers_values _ _ _ Hv).
  destruct (decide (enum_name enum = n)) as [->|Hne].
  - by rewrite decide_True.
  - rewrite decide_False; [done|]. intros H. apply Hne.
    by apply (f_equal (λ s, tail (tail s))) in H.
Qed.

Lemma headers_blocks n blocks :
  forallb on_one_line blocks = true →
  block_headers n (blocks_text blocks) = blocks_of n blocks.
Proof.
  unfold blocks_of.
  induction blocks as [|e es IH]; cbn [forallb]; [done|].
  intros H. apply andb_true_iff in H as [He Hes].
  change (blocks_text (e :: es)) with (generate_enum e +:+ blocks_text es).
  rewrite (headers_enum _ _ _ He), (IH Hes), filter_cons.
  by destruct (decide (enum_name e = n)).
Qed.

Lemma inlined_on_one_line enums refs :
  forallb on_one_line enums = true →
  forallb on_one_line (inlined enums refs) = true.
Proof.
  revert refs. induction enums as [|e es IH]; intros refs; cbn [forallb inlined];
    [done|].
  intros H. apply andb_true_iff in H as [He Hes].
  case_bool_decide; [cbn [forallb]; rewrite He|]; by apply IH.
Qed.

(** The lines of a text that follows a full line. *)
Lemma headers_after_line n a b :
  block_headers n ((a +:+ NL) +:+ b) = block_headers n (a +:+ NL) + block_headers n b.
Proof.
  unfold block_headers, text_lines, NL.
  rewrite string_app_assoc. change (String LF "" +:+ b) with (String LF b).
  rewrite !split_at_separator, !filter_app, !length_app.
  change (split LF "") with [""]. rewrite filter_cons, decide_False by done.
  simpl. lia.
Qed.

(** The rendered fields end with a line feed. *)
Lemma field_line_eol pkg f refs l refs' :
  field_line pkg f refs = Some (l, refs') → ∃ a, l = a +:+ NL.
Proof.
  unfold field_line. intros H.
  match type of H with
  | mbind _ ?m = _ => destruct m as [[[ft fc] r]|]; [|discriminate H]
  end.
  cbn [mbind option_bind] in H. injection H as <- _.
  match goal with
  | |- ∃ a, ?t +:+ String " " (?n +:+ String " " (?c +:+ NL)) = _ =>
      exists (t +:+ " " +:+ n +:+ " " +:+ c)
  end.
  by rewrite !string_app_assoc.
Qed.

Lemma message_fields_eol pkg fields : ∀ output refs out refs',
  message_fields pkg fields (output +:+ NL) refs = Some (out, refs') →
  ∃ a, out = a +:+ NL.
Proof.
  induction fields as [|f fields IH]; intros output refs out refs' H.
  - injection H as <- _. by eexists.
  - cbn [message_fields] in H.
    destruct (field_line pkg f refs) as [[l r]|] eqn:El; [|discriminate H].
    cbn [mbind option_bind] in H.
    destruct (field_line_eol _ _ _ _ _ El) as [a ->].
    rewrite <- string_app_assoc in H. by apply IH in H.
Qed.

Lemma generate_message_eol message pkg output refs errors :
  generate_message message pkg = Some (output, refs, errors) →
  ∃ a, output = a +:+ NL.
Proof.
  unfold generate_message. intros H.
  match type of H with
  | mbind _ ?m = _ => destruct m as [[o r]|] eqn:Em; [|discriminate H]
  end.
  cbn [mbind option_bind] in H. injection H as <- _ _.
  rewrite <- !string_app_assoc in Em. by apply message_fields_eol in Em.
Qed.

End block_lines.

(** C4. A message whose fields reference the enum named [n] at least once
    (its message-kind type names being qualified, so that rendering
    succeeds), rendered against a list of enums that holds an enum of that
    name, yields one file whose content is the rendered fields followed by
    enum blocks, and exactly one of these blocks is a block of [n].  A
    block is an empty line, the line [# Name] and one line for every
    value of the enum; when the names of the enums and of their values
    hold no line feed, exactly one line of the text after the rendered
    fields reads [# n], and the content of the file has one such line
    more than the rendered fields have. *)
Theorem enum_inlined_exactly_once
    (message : protoc_gen_msg.DescriptorProto) (pkg : string)
    (enums : list protoc_gen_msg.EnumDescriptorProto)
    (response : protoc_gen_msg.CodeGeneratorResponse) (n : string) :
  1 ≤ references n message →
  n ∈ protoc_gen_msg.enum_name <$> enums →
  qualified message →
  ∃ output referenced_enums blocks,
    protoc_gen_msg.generate_message message pkg = Some (output, referenced_enums, None)
    ∧ n ∈ referenced_enums
    ∧ blocks = inlined enums referenced_enums
    ∧ protoc_gen_msg.generate_msg_file message pkg enums response
      = Some {| protoc_gen_msg.error := protoc_gen_msg.error response;
                protoc_gen_msg.file :=
                  protoc_gen_msg.file response ++
                  [ {| protoc_gen_msg.file_name :=
                         pkg +:+ "/" +:+ protoc_gen_msg.message_name message +:+ ".msg";
                       protoc_gen_msg.file_content := output +:+ blocks_text blocks |} ] |}
    ∧ blocks_of n blocks = 1
    ∧ (∀ enum,
         protoc_gen_msg.generate_enum enum
         = NL +:+ "# " +:+ protoc_gen_msg.enum_name enum +:+ NL
           +:+ foldr (λ value acc,
                        ("uint8" +:+ " " +:+ protoc_gen_msg.value_name value +:+ "="
                         +:+ pretty (protoc_gen_msg.value_number value) +:+ NL)
                        +:+ acc) "" (protoc_gen_msg.enum_value enum))
    ∧ (forallb on_one_line enums = true →
       block_headers n (blocks_text blocks) = 1
       ∧ block_headers n (output +:+ blocks_text blocks)
         = block_headers n output + 1).
Proof.
  intros Hk Hin Hq.
  unfold protoc_gen_msg.generate_msg_file, protoc_gen_msg.generate_message.
  cbv zeta.
  match goal with
  | |- context [protoc_gen_msg.message_fields ?p ?fs ?o ?r] =>
      destruct (message_fields_total p fs o r (qualified_message_fields _ Hq))
        as [[output refs] E]
  end.
  rewrite E. cbn [mbind option_bind].
  assert (n ∈ refs) as Hn.
  { apply (message_fields_refs _ _ _ _ _ _ n) in E. apply E. right.
    by apply references_Exists. }
  assert (∃ a, output = a +:+ NL) as [a Ha].
  { apply (generate_message_eol message pkg output refs None).
    unfold protoc_gen_msg.generate_message. cbv zeta. by rewrite E. }
  exists output, refs, (inlined enums refs).
  split; [reflexivity|]. split; [exact Hn|]. split; [reflexivity|]. split.
  { pose proof (add_referenced_enums_text enums output refs) as Ht.
    destruct (protoc_gen_msg.add_referenced_enums enums output refs) as [o r].
    cbn [fst] in Ht. rewrite Ht. reflexivity. }
  split; [by apply inlined_referenced|]. split.
  - intros enum. unfold protoc_gen_msg.generate_enum.
    rewrite (foldl_append (λ value,
               protoc_gen_msg.CONSTANT_FIELD_TYPE +:+ " "
               +:+ protoc_gen_msg.value_name value +:+ "="
               +:+ pretty (protoc_gen_msg.value_number value) +:+ NL)).
    rewrite !string_app_assoc. reflexivity.
  - intros Hl.
    assert (block_headers n (blocks_text (inlined enums refs)) = 1) as Hb.
    { rewrite headers_blocks by (by apply inlined_on_one_line).
      by apply inlined_referenced. }
    split; [exact Hb|]. by rewrite Ha, headers_after_line, Hb.
Qed.

Lemma enum_inlined_exactly_once_status :
  let status :=
    {| protoc_gen_msg.enum_name := "Status";
       protoc_gen_msg.enum_value :=
         [ {| protoc_gen_msg.value_name := "OK"; protoc_gen_msg.value_number := 0 |};
           {| protoc_gen_msg.value_name := "ERR"; protoc_gen_msg.value_number := 1 |} ] |} in
  let field n :=
    {| protoc_gen_msg.field_name := n;
       protoc_gen_msg.field_label := protoc_gen_msg.LABEL_OPTIONAL;
       protoc_gen_msg.field_type := protoc_gen_msg.TYPE_ENUM;
       protoc_gen_msg.field_type_name := ".diagnostics.Status" |} in
  let message :=
    {| protoc_gen_msg.message_name := "Report";
       protoc_gen_msg.message_field := [field "status"; field "previous"];
       protoc_gen_msg.nested_type := [];
       protoc_gen_msg.message_enum_type := [] |} in
  references "Status" message = 2
  ∧ ∃ output referenced_enums blocks,
      protoc_gen_msg.generate_message message "diagnostics"
      = Some (output, referenced_enums, None)
      ∧ "Status" ∈ referenced_enums
      ∧ blocks = inlined [status; status] referenced_enums
      ∧ protoc_gen_msg.generate_msg_file message "diagnostics" [status; status]
          {| protoc_gen_msg.error := None; protoc_gen_msg.file := [] |}
        = Some {| protoc_gen_msg.error := None;
                  protoc_gen_msg.file :=
                    [] ++
                    [ {| protoc_gen_msg.file_name := "diagnostics/Report.msg";
                         protoc_gen_msg.file_content := output +:+ blocks_text blocks |} ] |}
      ∧ blocks_of "Status" blocks = 1
      ∧ blocks_text blocks
        = NL +:+ "# Status" +:+ NL +:+ "uint8 OK=0" +:+ NL +:+ "uint8 ERR=1" +:+ NL
      ∧ block_headers "Status" (blocks_text blocks) = 1
      ∧ block_headers "Status" (output +:+ blocks_text blocks) = 1.
Proof.
  intros status field message. split; [by vm_compute|].
  destruct (enum_inlined_exactly_once message "diagnostics" [status; status]
              {| protoc_gen_msg.error := None; protoc_gen_msg.file := [] |} "Status")
    as (output & refs & blocks & Hg & Hn & Hb & Hf & Hc & He & Hh).
  - vm_compute. lia.
  - left.
  - unfold qualified. cbn [protoc_gen_msg.message_field message].
    repeat (apply Forall_cons; split; [intros H; discriminate H|]).
    apply Forall_nil_2.
  - exists output, refs, blocks.
    split; [exact Hg|]. split; [exact Hn|]. split; [exact Hb|].
    split; [exact Hf|]. split; [exact Hc|].
    destruct (Hh eq_refl) as [Hh1 Hh2].
    split; [|split; [exact Hh1|]].
    + assert (Some (output, refs, @None string)
              = Some ("# This file was generated. DO NOT EDIT!" +:+ NL +:+ NL
                      +:+ "# Report" +:+ NL
                      +:+ "uint8 status # Status" +:+ NL
                      +:+ "uint8 previous # Status" +:+ NL,
                      {[ "Status" ]} ∪ ({[ "Status" ]} ∪ ∅), None)) as Ho
        by (rewrite <- Hg; reflexivity).
      injection Ho as _ ->. subst blocks.
      assert (inlined [status; status] ({[ "Status" ]} ∪ ({[ "Status" ]} ∪ ∅))
              = [status]) as -> by (by vm_compute).
      reflexivity.
    + rewrite Hh2.
      assert (Some (output, refs, @None string)
              = Some ("# This file was generated. DO NOT EDIT!" +:+ NL +:+ NL
                      +:+ "# Report" +:+ NL
                      +:+ "uint8 status # Status" +:+ NL
                      +:+ "uint8 previous # Status" +:+ NL,
                      {[ "Status" ]} ∪ ({[ "Status" ]} ∪ ∅), None)) as Ho
        by (rewrite <- Hg; reflexivity).
      injection Ho as -> _. reflexivity.
Defined.

(** ** protoc_gen_msg: the type written for a field *)

Section field_types.
Import protoc_gen_msg.

#[local] Arguments map_type : simpl never.
#[local] Arguments map_label : simpl never.
#[local] Arguments map_type_name : simpl never.
#[local] Arguments message_fieldtype : simpl never.
#[local] Arguments enum_name_of : simpl never.
#[local] Arguments eq_str : simpl never.

(** No segment of [split sep s] holds the separator, and a character
    that is not in [s] is in none of its segments. *)
Lemma split_segments sep c s :
  (Ascii.eqb sep c = true ∨ contains c s = false) →
  Forall (λ seg, contains c seg = false) (split sep s).
Proof.
  induction s as [|x t IH]; simpl; intros H.
  - by repeat constructor.
  - destruct (Ascii.eqb_spec x sep) as [->|Hx].
    + constructor; [done|]. apply IH.
      destruct H as [H|H]; [by left|].
      right. by apply orb_false_iff in H as [_ H].
    + assert (Ascii.eqb x c = false ∧ (Ascii.eqb sep c = true ∨ contains c t = false))
        as [Hxc Ht].
      { destruct H as [H|H].
        - apply Ascii.eqb_eq in H as <-.
          split; [by apply Ascii.eqb_neq | left; apply Ascii.eqb_refl].
        - apply orb_false_iff in H as [H1 H2]. split; [done | by right]. }
      specialize (IH Ht).
      destruct (split sep t) as [|h r].
      * constructor; [|constructor]. simpl. by rewrite Hxc.
      * apply Forall_cons in IH as [Hh Hr].
        constructor; [|done]. simpl. by rewrite Hxc, Hh.
Qed.

Lemma local_name_segment type_name :
  local_name type_name ∈ split "." type_name.
Proof.
  unfold local_name. pose proof (split_nonempty "." type_name) as Hne.
  destruct (last (split "." type_name)) as [x|] eqn:E.
  - simpl. by apply last_Some_elem_of.
  - by apply last_None in E.
Qed.

Lemma local_name_no_period type_name : contains "." (local_name type_name) = false.
Proof.
  pose proof (split_segments "." "." type_name (or_introl eq_refl)) as H.
  rewrite Forall_forall in H. apply H, local_name_segment.
Qed.

Lemma local_name_no_slash type_name :
  contains "/" type_name = false → contains "/" (local_name type_name) = false.
Proof.
  intros Hc. pose proof (split_segments "." "/" type_name (or_intror Hc)) as H.
  rewrite Forall_forall in H. apply H, local_name_segment.
Qed.

Lemma replace_absent a b s : contains a s = false → replace a b s = s.
Proof.
  induction s as [|x t IH]; simpl; [done|].
  intros H. apply orb_false_iff in H as [-> H]. by rewrite IH.
Qed.

Lemma startswith_contains c p s :
  contains c p = true → startswith p s = true → contains c s = true.
Proof.
  revert s. induction p as [|a p IH]; intros s; simpl; [done|].
  destruct s as [|b s]; [done|]. simpl.
  intros Hc Hs. apply andb_true_iff in Hs as [Hab Hs].
  apply Ascii.eqb_eq in Hab as <-.
  apply orb_true_iff in Hc as [->|Hc]; [done|].
  rewrite (IH _ Hc Hs). apply orb_true_r.
Qed.

Lemma message_field_line pkg f refs :
  is_message_field f →
  field_line pkg f refs
  = (fieldtype ← message_fieldtype (field_type_name f) pkg;
     Some (plain_line fieldtype f, refs)).
Proof.
  unfold is_message_field, field_line, plain_line, array_suffix. intros Hm.
  apply Is_true_eq_true in Hm. rewrite Hm.
  destruct (message_fieldtype (field_type_name f) pkg) as [ft|];
    cbn [mbind option_bind]; [|done].
  destruct (eq_str (map_label (field_label f)) "LABEL_REPEATED");
    [reflexivity | by rewrite string_app_nil_r].
Qed.

End field_types.

(** C5, as the code has it. A field of message kind whose type lives in
    the current package, the package being the first namespace of the
    type name, is written with the local name alone, the last part of
    the type name, which holds no period (and no slash unless the type
    name holds one); this is so for a type nested in a message of the
    package too.  A first namespace holds no period: the names of the
    types of a package whose name holds one are left out here.  For a
    type of another package the leading character is dropped; what is
    left goes through the table of well-known types when it starts with
    [google.protobuf], and then has its periods turned into slashes. *)
Theorem message_fieldtype_resolution
    (f : protoc_gen_msg.FieldDescriptorProto) (pkg namespace : string)
    (referenced_enums : gset string) :
  let type_name := protoc_gen_msg.field_type_name f in
  protoc_gen_msg.field_type f = protoc_gen_msg.TYPE_MESSAGE →
  split "." type_name !! 1 = Some namespace →
  contains "." namespace = false
  ∧ (namespace = pkg →
     protoc_gen_msg.field_line pkg f referenced_enums
     = Some (plain_line (local_name type_name) f, referenced_enums)
     ∧ contains "." (local_name type_name) = false
     ∧ (contains "/" type_name = false → contains "/" (local_name type_name) = false))
  ∧ (namespace ≠ pkg →
     startswith ("." +:+ pkg +:+ ".") type_name = false →
     protoc_gen_msg.field_line pkg f referenced_enums
     = Some (plain_line
               (replace "." "/"
                  (if startswith "google.protobuf" (tail type_name)
                   then protoc_gen_msg.map_type_name (tail type_name)
                   else tail type_name)) f, referenced_enums)).
Proof.
  intros type_name Hm Hns. subst type_name.
  assert (is_message_field f) as Hm'.
  { rewrite is_message_field_kind. by apply bool_decide_pack. }
  rewrite (message_field_line _ _ _ Hm').
  unfold protoc_gen_msg.message_fieldtype. rewrite Hns. cbn [mbind option_bind].
  split.
  { pose proof (split_segments "." "." (protoc_gen_msg.field_type_name f)
                  (or_introl eq_refl)) as H.
    rewrite Forall_forall in H. apply H. by apply list_elem_of_lookup_2 in Hns. }
  split.
  - intros ->. rewrite String.eqb_refl. fold (local_name (protoc_gen_msg.field_type_name f)).
    pose proof (local_name_no_period (protoc_gen_msg.field_type_name f)) as Hp.
    split; [|split; [done | apply local_name_no_slash]].
    destruct (startswith "google.protobuf" (local_name (protoc_gen_msg.field_type_name f)))
      eqn:Es.
    + apply (startswith_contains ".") in Es; [congruence | reflexivity].
    + by rewrite (replace_absent _ _ _ Hp).
  - intros Hne _. apply String.eqb_neq in Hne. by rewrite Hne.
Qed.

Lemma message_fieldtype_resolution_header :
  let f :=
    {| protoc_gen_msg.field_name := "header";
       protoc_gen_msg.field_label := protoc_gen_msg.LABEL_OPTIONAL;
       protoc_gen_msg.field_type := protoc_gen_msg.TYPE_MESSAGE;
       protoc_gen_msg.field_type_name := ".diagnostics.Header" |} in
  protoc_gen_msg.field_line "diagnostics" f ∅ = Some ("Header header " +:+ NL, ∅)
  ∧ contains "." "Header" = false.
Proof.
  intros f.
  assert (protoc_gen_msg.field_type f = protoc_gen_msg.TYPE_MESSAGE) as Hm
    by reflexivity.
  assert (split "." (protoc_gen_msg.field_type_name f) !! 1 = Some "diagnostics")
    as Hns by reflexivity.
  destruct (message_fieldtype_resolution f "diagnostics" "diagnostics" ∅ Hm Hns)
    as (_ & Hsame & _).
  destruct (Hsame eq_refl) as (Hline & Hdot & _).
  split; [exact Hline | exact Hdot].
Defined.

(** A well-known type outside the current package is not written as its
    qualified path: the table of well-known types replaces it. *)
Lemma wellknown_type_is_remapped :
  let f :=
    {| protoc_gen_msg.field_name := "stamp";
       protoc_gen_msg.field_label := protoc_gen_msg.LABEL_OPTIONAL;
       protoc_gen_msg.field_type := protoc_gen_msg.TYPE_MESSAGE;
       protoc_gen_msg.field_type_name := ".google.protobuf.Timestamp" |} in
  split "." (protoc_gen_msg.field_type_name f) !! 1 = Some "google"
  ∧ protoc_gen_msg.field_line "diagnostics" f ∅
    = Some ("builtin_interfaces/Time stamp " +:+ NL, ∅)
  ∧ protoc_gen_msg.field_line "diagnostics" f ∅
    ≠ Some (plain_line (replace "." "/" (tail (protoc_gen_msg.field_type_name f))) f, ∅).
Proof.
  intros f. split; [reflexivity|]. split; [by vm_compute|].
  vm_compute. intros H. discriminate H.
Qed.

(** A type nested in a message of the current package lives in the
    package: it is written with its local name, as the file of the nested
    message is named, and not with the path through the message. *)
Example nested_type_is_written_by_its_local_name :
  let f :=
    {| protoc_gen_msg.field_name := "cells";
       protoc_gen_msg.field_label := protoc_gen_msg.LABEL_REPEATED;
       protoc_gen_msg.field_type := protoc_gen_msg.TYPE_MESSAGE;
       protoc_gen_msg.field_type_name := ".maps.Grid.Cell" |} in
  split "." (protoc_gen_msg.field_type_name f) !! 1 = Some "maps"
  ∧ protoc_gen_msg.field_line "maps" f ∅ = Some ("Cell[] cells " +:+ NL, ∅)
  ∧ protoc_gen_msg.field_line "maps" f ∅
    ≠ Some (plain_line (replace "." "/" (tail (protoc_gen_msg.field_type_name f))) f, ∅).
Proof.
  intros f. split; [reflexivity|]. split; [by vm_compute|].
  vm_compute. intros H. discriminate H.
Qed.

(** ** protoc_gen_msg: fields of primitive type *)

Section primitive_fields.
Import protoc_gen_msg.

#[local] Arguments map_label : simpl never.
#[local] Arguments eq_str : simpl never.

Lemma primitive_field_line pkg f refs :
  is_message_field f = false → is_enum_field f = false →
  field_line pkg f refs = Some (plain_line (map_type (field_type f)) f, refs).
Proof.
  unfold is_message_field, is_enum_field, field_line, plain_line, array_suffix.
  intros -> ->. cbn [mbind option_bind].
  destruct (eq_str (map_label (field_label f)) "LABEL_REPEATED");
    [reflexivity | by rewrite string_app_nil_r].
Qed.

End primitive_fields.

(** C6, as the code has it. A field that is neither of message kind nor of
    enum kind is written with the entry of the reverse table for its type,
    and rendering it cannot fail.  The type codes without an entry are
    those outside 1..18, and they are written [string].  The group kind is
    not one of them: its entry is the name [TYPE_GROUP]. *)
Theorem primitive_field_rendering
    (f : protoc_gen_msg.FieldDescriptorProto) (pkg : string)
    (referenced_enums : gset string) :
  protoc_gen_msg.field_type f ≠ protoc_gen_msg.TYPE_MESSAGE →
  protoc_gen_msg.field_type f ≠ protoc_gen_msg.TYPE_ENUM →
  protoc_gen_msg.field_line pkg f referenced_enums
  = Some (plain_line (protoc_gen_msg.map_type (protoc_gen_msg.field_type f)) f,
          referenced_enums)
  ∧ (∀ t : Z, py_dict protoc_gen_msg.type_table !! t = None ↔ (t < 1 ∨ 18 < t)%Z)
  ∧ (∀ t : Z, py_dict protoc_gen_msg.type_table !! t = None →
              protoc_gen_msg.map_type t = "string")
  ∧ py_dict protoc_gen_msg.type_table !! protoc_gen_msg.TYPE_GROUP = Some "TYPE_GROUP".
Proof.
  intros Hm He.
  split.
  { apply primitive_field_line.
    - rewrite is_message_field_kind. by apply bool_decide_eq_false_2.
    - rewrite is_enum_field_kind. by apply bool_decide_eq_false_2. }
  split; [apply type_table_entry|].
  split; [apply map_type_no_entry | reflexivity].
Qed.

Lemma primitive_field_rendering_unknown_code :
  let f :=
    {| protoc_gen_msg.field_name := "u";
       protoc_gen_msg.field_label := protoc_gen_msg.LABEL_REPEATED;
       protoc_gen_msg.field_type := 99;
       protoc_gen_msg.field_type_name := "" |} in
  protoc_gen_msg.field_line "diagnostics" f ∅ = Some ("string[] u " +:+ NL, ∅).
Proof.
  intros f.
  assert (protoc_gen_msg.field_type f ≠ protoc_gen_msg.TYPE_MESSAGE) as Hm
    by (intros H; discriminate H).
  assert (protoc_gen_msg.field_type f ≠ protoc_gen_msg.TYPE_ENUM) as He
    by (intros H; discriminate H).
  exact (proj1 (primitive_field_rendering f "diagnostics" ∅ Hm He)).
Defined.

(** A field of group kind is not written [string]: the table has an entry
    for the group kind, and the entry is written as the type. *)
Lemma group_field_is_not_string :
  let f :=
    {| protoc_gen_msg.field_name := "g";
       protoc_gen_msg.field_label := protoc_gen_msg.LABEL_OPTIONAL;
       protoc_gen_msg.field_type := protoc_gen_msg.TYPE_GROUP;
       protoc_gen_msg.field_type_name := "" |} in
  protoc_gen_msg.field_type f ≠ protoc_gen_msg.TYPE_MESSAGE
  ∧ protoc_gen_msg.field_type f ≠ protoc_gen_msg.TYPE_ENUM
  ∧ protoc_gen_msg.map_type (protoc_gen_msg.field_type f) ≠ "string"
  ∧ protoc_gen_msg.field_line "diagnostics" f ∅ = Some ("TYPE_GROUP g " +:+ NL, ∅)
  ∧ protoc_gen_msg.field_line "diagnostics" f ∅ ≠ Some (plain_line "string" f, ∅).
Proof.
  intros f. split; [intros H; discriminate H|]. split; [intros H; discriminate H|].
  split; [vm_compute; intros H; discriminate H|].
  split; [by vm_compute|].
  vm_compute. intros H. discriminate H.
Qed.

(** ** msg2proto: constants, arrays and imports *)

Section generate_proto_items.
Import msg2proto.

Variables msg_name pkg : string.

(** The counter is all the numbering of the later items depends on. *)
Lemma trace_fieldnumber st st' doc :
  fieldnumber st = fieldnumber st' →
  trace msg_name pkg st doc = trace msg_name pkg st' doc.
Proof.
  revert st st'. induction doc as [|l ls IH]; intros st st' Hn; [done|].
  cbn [trace]. rewrite Hn. f_equal. apply IH.
  rewrite !step_fieldnumber. by rewrite Hn.
Qed.

Lemma trace_app st pre post :
  trace msg_name pkg st (pre ++ post)
  = trace msg_name pkg st pre
    ++ trace msg_name pkg (foldl (step msg_name pkg) st pre) post.
Proof.
  revert st. induction pre as [|l ls IH]; intros st; [done|].
  cbn [app trace foldl]. by rewrite IH.
Qed.

(** The import set is all the imports of the later items depend on. *)
Lemma foldl_step_imports st st' doc :
  imports st = imports st' →
  imports (foldl (step msg_name pkg) st doc)
  = imports (foldl (step msg_name pkg) st' doc).
Proof.
  revert st st'. induction doc as [|l ls IH]; intros st st' Hi; [done|].
  cbn [foldl]. apply IH. destruct l; cbn [step imports]; by rewrite ?Hi.
Qed.

Lemma constant_text_form p :
  constant_text p
  = "  //   " +:+ name p +:+ " = " +:+ value p +:+ ";"
    +:+ trailing_comment (comment p) +:+ NL.
Proof.
  unfold constant_text, trailing_comment, INDENT.
  destruct (truthy (comment p)); rewrite ?string_app_assoc; reflexivity.
Qed.

End generate_proto_items.

(** A constant without line feeds is written on one line, a comment. *)
Lemma constant_text_one_line (p : msg2proto.Params) :
  contains LF (msg2proto.name p) = false →
  contains LF (msg2proto.value p) = false →
  contains LF (msg2proto.comment p) = false →
  ∃ body, msg2proto.constant_text p = "  // " +:+ body +:+ NL
          ∧ contains LF body = false.
Proof.
  intros Hn Hv Hc. rewrite constant_text_form.
  exists ("  " +:+ msg2proto.name p +:+ " = " +:+ msg2proto.value p +:+ ";"
          +:+ trailing_comment (msg2proto.comment p)).
  split; [by rewrite !string_app_assoc|].
  unfold trailing_comment.
  destruct (truthy (msg2proto.comment p));
    rewrite !contains_app, Hn, Hv, ?Hc; reflexivity.
Qed.

(** C7, as the code has it. A constant is written with the indent of
    the body, the comment marker, a blank and one more indent, then
    [NAME = value;] and the trailing comment if the constant has one.
    When its name, its value and its comment hold no line feed this is
    one line, and the whole of it after the indent is a comment.  (The
    grammar lets a string or an array value run over several lines; such
    a value is written as it is.)  A constant leaves the counter as it
    is: the items before and after it are rendered with the numbers they
    have in the document without the constant.  The constant line
    [uint8 RED = 0 # red color] parses to one constant, which is written
    [  //   RED = 0; // red color]. *)
Theorem constant_is_a_comment_line :
  (∀ p, msg2proto.constant_text p
        = "  //   " +:+ msg2proto.name p +:+ " = " +:+ msg2proto.value p +:+ ";"
          +:+ trailing_comment (msg2proto.comment p) +:+ NL)
  ∧ (∀ p, contains LF (msg2proto.name p) = false →
          contains LF (msg2proto.value p) = false →
          contains LF (msg2proto.comment p) = false →
          ∃ body, msg2proto.constant_text p = "  // " +:+ body +:+ NL
                  ∧ contains LF body = false)
  ∧ (∀ msg_name pkg st p,
       msg2proto.message (msg2proto.step msg_name pkg st (msg2proto.Constant p))
       = msg2proto.message st +:+ msg2proto.constant_text p
       ∧ msg2proto.fieldnumber (msg2proto.step msg_name pkg st (msg2proto.Constant p))
         = msg2proto.fieldnumber st)
  ∧ (∀ msg_name pkg pre p post,
       let st := msg2proto.initial msg_name in
       let before := trace msg_name pkg st pre in
       let after :=
         trace msg_name pkg (foldl (msg2proto.step msg_name pkg) st pre) post in
       trace msg_name pkg st (pre ++ post) = before ++ after
       ∧ trace msg_name pkg st (pre ++ msg2proto.Constant p :: post)
         = before ++ (msg2proto.Constant p, 1 + count_fields pre) :: after)
  ∧ msg2proto.parse_msg ("uint8 RED = 0 # red color" +:+ NL)
    = Some [msg2proto.Constant red_constant]
  ∧ msg2proto.constant_text red_constant = "  //   RED = 0; // red color" +:+ NL
  ∧ strip (msg2proto.constant_text red_constant) = "//   RED = 0; // red color".
Proof.
  split; [apply constant_text_form|].
  split; [apply constant_text_one_line|].
  split; [by intros|].
  split.
  { intros msg_name pkg pre p post st before after. subst st before after.
    split; [apply trace_app|].
    rewrite trace_app. f_equal. cbn [trace]. f_equal.
    - f_equal. rewrite foldl_step_fieldnumber. simpl. lia.
    - by apply trace_fieldnumber. }
  split; [by vm_compute|]. split; by vm_compute.
Qed.

(** The line written for the constant of the third scenario is not
    [// RED = 0; // red color], also when it is read without the blanks
    around it: an indent follows the comment marker. *)
Lemma constant_line_has_inner_indent :
  msg2proto.parse_msg ("uint8 RED = 0 # red color" +:+ NL)
  = Some [msg2proto.Constant red_constant]
  ∧ msg2proto.message
      (msg2proto.walk [msg2proto.Constant red_constant] "Color" "")
    = "message Color {" +:+ NL +:+ "  //   RED = 0; // red color" +:+ NL
  ∧ strip (msg2proto.constant_text red_constant) ≠ "// RED = 0; // red color".
Proof.
  split; [by vm_compute|]. split; [by vm_compute|].
  vm_compute. intros H. discriminate H.
Qed.

(** A value that runs over two lines is written as it is: the text after
    its line feed is not part of the comment. *)
Example constant_value_over_two_lines :
  msg2proto.parse_msg
    ("string GREETING = " +:+ dq +:+ "a" +:+ NL +:+ "b" +:+ dq +:+ NL)
  = Some [msg2proto.Constant
            {| msg2proto.type :=
                 {| msg2proto.package := ""; msg2proto.typename := "string";
                    msg2proto.is_complextype := false; msg2proto.is_array := false;
                    msg2proto.arraybound := None |};
               msg2proto.name := "GREETING";
               msg2proto.value := dq +:+ "a" +:+ NL +:+ "b" +:+ dq;
               msg2proto.comment := "" |}]
  ∧ msg2proto.message
      (msg2proto.walk
         [msg2proto.Constant
            {| msg2proto.type :=
                 {| msg2proto.package := ""; msg2proto.typename := "string";
                    msg2proto.is_complextype := false; msg2proto.is_array := false;
                    msg2proto.arraybound := None |};
               msg2proto.name := "GREETING";
               msg2proto.value := dq +:+ "a" +:+ NL +:+ "b" +:+ dq;
               msg2proto.comment := "" |}] "Hello" "")
    = "message Hello {" +:+ NL
      +:+ "  //   GREETING = " +:+ dq +:+ "a" +:+ NL
      +:+ "b" +:+ dq +:+ ";" +:+ NL.
Proof. split; by vm_compute. Qed.

(** C8. A field with the array modifier is written with the label
    [repeated] before its mapped type.  A bound, when the array has one,
    is put in brackets in front of the comment text, a blank between the
    two: the trailing comment is present even if the field has no comment
    of its own.  The field line [int32[10] data] parses to one array field
    of bound 10, and as the only field of a message in the empty package
    it is written [  repeated int32 data = 1; // [10] ], which reads
    [repeated int32 data = 1; // [10]]. *)
Theorem array_field_is_repeated :
  (∀ p n b,
     msg2proto.is_array (msg2proto.type p) = true →
     msg2proto.arraybound (msg2proto.type p) = Some b →
     b ≠ "" →
     msg2proto.field_text p n
     = "  " +:+ "repeated " +:+ msg2proto.mapped_typename (msg2proto.type p) +:+ " "
       +:+ msg2proto.name p +:+ " = " +:+ pretty n +:+ ";"
       +:+ " // " +:+ "[" +:+ b +:+ "] " +:+ msg2proto.comment p +:+ NL)
  ∧ (∀ p n,
     msg2proto.is_array (msg2proto.type p) = true →
     msg2proto.arraybound (msg2proto.type p) = None
     ∨ msg2proto.arraybound (msg2proto.type p) = Some "" →
     msg2proto.field_text p n
     = "  " +:+ "repeated " +:+ msg2proto.mapped_typename (msg2proto.type p) +:+ " "
       +:+ msg2proto.name p +:+ " = " +:+ pretty n +:+ ";"
       +:+ trailing_comment (msg2proto.comment p) +:+ NL)
  ∧ msg2proto.parse_msg ("int32[10] data" +:+ NL) = Some [msg2proto.Field data_field]
  ∧ msg2proto.convert_msg_file "Data" ("int32[10] data" +:+ NL) ""
    = Some ("// This file was generated. DO NOT EDIT!" +:+ NL
            +:+ NL
            +:+ "syntax = " +:+ dq +:+ "proto3" +:+ dq +:+ ";" +:+ NL
            +:+ NL
            +:+ "message Data {" +:+ NL
            +:+ "  repeated int32 data = 1; // [10] " +:+ NL
            +:+ "}")
  ∧ msg2proto.field_text data_field 1 = "  repeated int32 data = 1; // [10] " +:+ NL
  ∧ strip (msg2proto.field_text data_field 1) = "repeated int32 data = 1; // [10]".
Proof.
  split.
  { intros p n b Ha Hb Hne. unfold msg2proto.field_text, msg2proto.INDENT.
    rewrite Ha, Hb.
    assert (truthy b = true) as ->.
    { unfold truthy. by apply negb_true_iff, String.eqb_neq. }
    change (truthy "repeated") with true. cbv iota.
    assert (truthy ("[" +:+ b +:+ "] " +:+ msg2proto.comment p) = true) as ->
      by reflexivity.
    rewrite !string_app_assoc. reflexivity. }
  split.
  { intros p n Ha Hb. unfold msg2proto.field_text, msg2proto.INDENT, trailing_comment.
    rewrite Ha. change (truthy "repeated") with true. cbv iota.
    assert (match msg2proto.arraybound (msg2proto.type p) with
            | Some bound =>
                if truthy bound
                then "[" +:+ bound +:+ "] " +:+ msg2proto.comment p
                else msg2proto.comment p
            | None => msg2proto.comment p
            end = msg2proto.comment p) as ->
      by (destruct Hb as [-> | ->]; reflexivity).
    destruct (truthy (msg2proto.comment p));
      rewrite !string_app_assoc; reflexivity. }
  split; [by vm_compute|]. split; [by vm_compute|]. split; by vm_compute.
Qed.

(** C9. A field of a complex type whose mapped and qualified name ends in
    the name of the message being rendered adds nothing to the imports:
    its turn of the loop leaves the import set as it is, and the import
    set of a document is that of the document without the field. *)
Theorem self_reference_adds_no_import
    (msg_name pkg : string) (st : msg2proto.State) (p : msg2proto.Params) :
  msg2proto.is_complextype (msg2proto.type p) = true →
  last (msg2proto.typename_parts pkg (msg2proto.type p)) = Some msg_name →
  msg2proto.imports (msg2proto.step msg_name pkg st (msg2proto.Field p))
  = msg2proto.imports st
  ∧ ∀ pre post,
      msg2proto.imports (msg2proto.walk (pre ++ msg2proto.Field p :: post) msg_name pkg)
      = msg2proto.imports (msg2proto.walk (pre ++ post) msg_name pkg).
Proof.
  intros Hc Hlast.
  assert (∀ st', msg2proto.imports (msg2proto.step msg_name pkg st' (msg2proto.Field p))
                 = msg2proto.imports st') as Hstep.
  { intros st'. cbn [msg2proto.step msg2proto.imports].
    unfold msg2proto.add_import. rewrite Hc, Hlast. cbn [default].
    by rewrite String.eqb_refl. }
  split; [apply Hstep|].
  intros pre post. unfold msg2proto.walk.
  rewrite !foldl_app. cbn [foldl].
  apply foldl_step_imports, Hstep.
Qed.

Lemma self_reference_adds_no_import_point :
  msg2proto.imports
    (msg2proto.step "Point" "geometry" (msg2proto.initial "Point")
       (msg2proto.Field point_field))
  = msg2proto.imports (msg2proto.initial "Point")
  ∧ ∀ pre post,
      msg2proto.imports
        (msg2proto.walk (pre ++ msg2proto.Field point_field :: post) "Point" "geometry")
      = msg2proto.imports (msg2proto.walk (pre ++ post) "Point" "geometry").
Proof.
  apply (self_reference_adds_no_import "Point" "geometry"
           (msg2proto.initial "Point") point_field); reflexivity.
Defined.

(** ** protoc_gen_msg: what the plugin leaves of the request *)

Section descriptor_after.
Import protoc_gen_msg.

Lemma collect_enums_list enums messages :
  foldl (λ enums message, enums ++ message_enum_type message) enums messages
  = enums ++ nested_enums messages.
Proof.
  revert enums. induction messages as [|m ms IH]; intros enums; simpl.
  - by rewrite app_nil_r.
  - by rewrite IH, <- app_assoc.
Qed.

Lemma collect_enums_file proto_file :
  (collect_enums proto_file).2
  = {| package := package proto_file;
       message_type := message_type proto_file;
       enum_type := enum_type proto_file ++ nested_enums (message_type proto_file) |}.
Proof. unfold collect_enums. cbn [snd]. by rewrite collect_enums_list. Qed.

Lemma last_removelast {A} (l : list A) x :
  last l = Some x → l = removelast l ++ [x].
Proof.
  induction l as [|a l IH]; [done|]. destruct l as [|b l].
  - by intros [= ->].
  - intros H. change (removelast (a :: b :: l)) with (a :: removelast (b :: l)).
    cbn [app]. f_equal. apply IH. exact H.
Qed.

End descriptor_after.

(** C10, as the code has it. When [generate_code] produces its response,
    the request holds the same files, and the selected file, the last one,
    has its package and its messages as before, the fields and the nested
    enum list of every message with them.  Its top-level enum list is not
    as before: [collect_enums] has appended to it the enums nested in the
    messages of the file, in the order of the messages. *)
Theorem generate_code_extends_top_level_enums
    (request request' : protoc_gen_msg.CodeGeneratorRequest)
    (response response' : protoc_gen_msg.CodeGeneratorResponse) :
  protoc_gen_msg.generate_code request response = Some (request', response') →
  ∃ others selected selected',
    protoc_gen_msg.proto_file request = others ++ [selected]
    ∧ protoc_gen_msg.proto_file request' = others ++ [selected']
    ∧ protoc_gen_msg.package selected' = protoc_gen_msg.package selected
    ∧ protoc_gen_msg.message_type selected' = protoc_gen_msg.message_type selected
    ∧ protoc_gen_msg.enum_type selected'
      = protoc_gen_msg.enum_type selected
        ++ nested_enums (protoc_gen_msg.message_type selected).
Proof.
  unfold protoc_gen_msg.generate_code, protoc_gen_msg.generate_msg_files.
  intros H.
  destruct (last (protoc_gen_msg.proto_file request)) as [selected|] eqn:El;
    cbn [mbind option_bind] in H; [|discriminate H].
  pose proof (collect_enums_file selected) as Hf.
  destruct (protoc_gen_msg.collect_enums selected) as [enums selected'].
  cbn [snd] in Hf. subst selected'.
  match type of H with
  | context [protoc_gen_msg.msg_files ?ms ?p ?e ?r] =>
      destruct (protoc_gen_msg.msg_files ms p e r) as [r'|];
        cbn [mbind option_bind] in H; [|discriminate H]
  end.
  apply (inj Some) in H. apply (f_equal fst) in H. cbn [fst] in H. subst request'.
  eexists _, selected, _.
  split; [by apply last_removelast|].
  split; [reflexivity|]. split; [reflexivity|]. split; reflexivity.
Qed.

Lemma generate_code_extends_top_level_enums_alarm :
  ∃ request' response',
    protoc_gen_msg.generate_code alarm_request empty_response
    = Some (request', response')
    ∧ ∃ others selected selected',
        protoc_gen_msg.proto_file alarm_request = others ++ [selected]
        ∧ protoc_gen_msg.proto_file request' = others ++ [selected']
        ∧ protoc_gen_msg.package selected' = protoc_gen_msg.package selected
        ∧ protoc_gen_msg.message_type selected' = protoc_gen_msg.message_type selected
        ∧ protoc_gen_msg.enum_type selected'
          = protoc_gen_msg.enum_type selected
            ++ nested_enums (protoc_gen_msg.message_type selected).
Proof.
  eexists _, _. split.
  - vm_compute. reflexivity.
  - eapply (generate_code_extends_top_level_enums alarm_request _ empty_response).
    vm_compute. reflexivity.
Defined.

(** The plugin does not leave the descriptor as it was: after
    [generate_code] the top-level enum list of the file holds the enum
    that the message declares. *)
Lemma generate_code_changes_the_request :
  protoc_gen_msg.enum_type alarm_file = []
  ∧ (∃ response',
      protoc_gen_msg.generate_code alarm_request empty_response
      = Some ({| protoc_gen_msg.proto_file :=
                   [ {| protoc_gen_msg.package := "diagnostics";
                        protoc_gen_msg.message_type :=
                          protoc_gen_msg.message_type alarm_file;
                        protoc_gen_msg.enum_type := [level_enum] |} ] |},
              response'))
  ∧ (fst <$> protoc_gen_msg.generate_code alarm_request empty_response)
    ≠ Some alarm_request.
Proof.
  split; [reflexivity|]. split.
  - eexists. vm_compute. reflexivity.
  - intros H.
    apply (f_equal (λ r, length ∘ protoc_gen_msg.enum_type
                         <$> (r ≫= last ∘ protoc_gen_msg.proto_file))) in H.
    vm_compute in H. discriminate H.
Qed.

(** ** The scenarios of the specification, run on the embedding *)

(** The first scenario: a field with a default value and a comment. *)
Example scenario_field_with_comment :
  msg2proto.convert_msg_file "Point" ("float64 x 3.5 # x coordinate" +:+ NL) "geometry"
  = Some ("// This file was generated. DO NOT EDIT!" +:+ NL
          +:+ NL
          +:+ "syntax = " +:+ dq +:+ "proto3" +:+ dq +:+ ";" +:+ NL
          +:+ NL
          +:+ "package geometry;" +:+ NL
          +:+ NL
          +:+ "message Point {" +:+ NL
          +:+ "  double x = 1; // x coordinate" +:+ NL
          +:+ "}").
Proof. by vm_compute. Qed.

(** The fourth scenario: a field of enum kind and the block of its enum. *)
Example scenario_enum_field :
  protoc_gen_msg.generate_code alarm_request empty_response
  = Some ({| protoc_gen_msg.proto_file :=
               [ {| protoc_gen_msg.package := "diagnostics";
                    protoc_gen_msg.message_type := protoc_gen_msg.message_type alarm_file;
                    protoc_gen_msg.enum_type := [level_enum] |} ] |},
          {| protoc_gen_msg.error := None;
             protoc_gen_msg.file :=
               [ {| protoc_gen_msg.file_name := "diagnostics/Alarm.msg";
                    protoc_gen_msg.file_content :=
                      "# This file was generated. DO NOT EDIT!" +:+ NL
                      +:+ NL
                      +:+ "# Alarm" +:+ NL
                      +:+ "uint8 level # Level" +:+ NL
                      +:+ NL
                      +:+ "# Level" +:+ NL
                      +:+ "uint8 LOW=0" +:+ NL |} ] |}).
Proof. by vm_compute. Qed.

(** The grammar is permissive: the text of the malformed line is accepted
    where it is not a line, here inside the array literal that is the
    default value of a field. *)
Example bad_text_inside_a_default :
  msg2proto.parse_msg
    ("int32[] x [" +:+ NL +:+ bad_line +:+ NL +:+ "]" +:+ NL)
  = Some [msg2proto.Field
            {| msg2proto.type :=
                 {| msg2proto.package := ""; msg2proto.typename := "int32";
                    msg2proto.is_complextype := false; msg2proto.is_array := true;
                    msg2proto.arraybound := Some "" |};
               msg2proto.name := "x";
               msg2proto.value := "[" +:+ NL +:+ bad_line +:+ NL +:+ "]";
               msg2proto.comment := "" |}].
Proof. by vm_compute. Qed.

(** * Further properties of the code *)

(** ** msg2proto: names in snake case *)

Section snake_case.
Import msg2proto.

Lemma lower_char_not_upper c : is_upper (lower_char c) = false.
Proof. by destruct c as [[] [] [] [] [] [] [] []]. Qed.

Lemma lower_no_upper s : no_upper (lower s) = true.
Proof.
  induction s as [|c t IH]; [done|].
  unfold no_upper in *. cbn [lower all_chars].
  by rewrite lower_char_not_upper, IH.
Qed.

Lemma lower_fixed s : no_upper s = true → lower s = s.
Proof.
  unfold no_upper. induction s as [|c t IH]; [done|]. cbn [lower all_chars].
  intros H. apply andb_true_iff in H as [Hc Ht].
  unfold lower_char. apply negb_true_iff in Hc. rewrite Hc. by rewrite IH.
Qed.

Lemma sub_word_fixed b s : no_upper s = true → sub_word b s = s.
Proof.
  unfold no_upper. revert b. induction s as [|c t IH]; intros b; [done|].
  cbn [all_chars]. intros H. apply andb_true_iff in H as [Hc Ht].
  cbn [sub_word]. destruct (b && is_lower c); [by rewrite IH|].
  destruct t as [|u [|l t']]; [done | by rewrite IH |].
  assert (is_upper u = false) as Hu.
  { cbn [all_chars] in Ht. apply andb_true_iff in Ht as [Hu _].
    by apply negb_true_iff in Hu. }
  rewrite Hu, andb_false_r. cbn [andb]. by rewrite IH.
Qed.

Lemma sub_underscores_fixed s : no_upper s = true → sub_underscores s = s.
Proof.
  unfold no_upper. induction s as [|c t IH]; [done|].
  cbn [all_chars]. intros H. apply andb_true_iff in H as [Hc Ht].
  cbn [sub_underscores]. destruct t as [|c2 [|u t']]; [done | by rewrite IH |].
  assert (is_upper u = false) as Hu.
  { cbn [all_chars] in Ht. apply andb_true_iff in Ht as [_ Ht].
    apply andb_true_iff in Ht as [Hu _]. by apply negb_true_iff in Hu. }
  rewrite Hu, andb_false_r. by rewrite IH.
Qed.

Lemma sub_camel_fixed s : no_upper s = true → sub_camel s = s.
Proof.
  unfold no_upper. induction s as [|c t IH]; [done|].
  cbn [all_chars]. intros H. apply andb_true_iff in H as [Hc Ht].
  cbn [sub_camel]. destruct t as [|u t']; [done|].
  assert (is_upper u = false) as Hu.
  { cbn [all_chars] in Ht. apply andb_true_iff in Ht as [Hu _].
    by apply negb_true_iff in Hu. }
  rewrite Hu, andb_false_r. by rewrite IH.
Qed.

End snake_case.

(** X1. The name [to_snake_case] returns holds no upper-case letter, and
    converting it once more changes nothing. *)
Theorem to_snake_case_is_lower_case (name : string) :
  no_upper (msg2proto.to_snake_case name) = true
  ∧ msg2proto.to_snake_case (msg2proto.to_snake_case name)
    = msg2proto.to_snake_case name.
Proof.
  assert (no_upper (msg2proto.to_snake_case name) = true) as H
    by apply lower_no_upper.
  split; [exact H|].
  generalize dependent (msg2proto.to_snake_case name). intros lowered H.
  unfold msg2proto.to_snake_case.
  rewrite (sub_word_fixed _ _ H), (sub_underscores_fixed _ H), (sub_camel_fixed _ H).
  by apply lower_fixed.
Qed.

Section snake_case_letters.
Import msg2proto.

Lemma lower_char_underscore c : Ascii.eqb (lower_char c) "_" = Ascii.eqb c "_".
Proof. by destruct c as [[] [] [] [] [] [] [] []]. Qed.

Lemma upper_not_underscore c : is_upper c = true → Ascii.eqb c "_" = false.
Proof. by destruct c as [[] [] [] [] [] [] [] []]. Qed.

Lemma without_lower s : without "_" (lower s) = lower (without "_" s).
Proof.
  induction s as [|c t IH]; [done|]. cbn [lower without].
  rewrite lower_char_underscore. destruct (Ascii.eqb c "_"); [done|].
  cbn [lower]. by rewrite IH.
Qed.

Lemma without_sub_word n : ∀ b s,
  String.length s ≤ n → without "_" (sub_word b s) = without "_" s.
Proof.
  induction n as [|n IH]; intros b [|c t] Hn; try done; [simpl in Hn; lia|].
  cbn [String.length] in Hn. cbn [sub_word].
  destruct (b && is_lower c).
  { cbn [without]. by rewrite IH by lia. }
  destruct t as [|u [|l t']]; [done | cbn [without]; by rewrite IH by lia |].
  destruct (negb (Ascii.eqb c LF) && is_upper u && is_lower l).
  - cbn [without]. change (Ascii.eqb "_" "_") with true. cbv iota.
    cbn [String.length] in Hn. by rewrite (IH true (String l t')) by (cbn in *; lia).
  - cbn [without]. by rewrite (IH false (String u (String l t'))) by (cbn in *; lia).
Qed.

Lemma without_sub_underscores n : ∀ s,
  String.length s ≤ n → without "_" (sub_underscores s) = without "_" s.
Proof.
  induction n as [|n IH]; intros [|c t] Hn; try done; [simpl in Hn; lia|].
  cbn [String.length] in Hn. cbn [sub_underscores].
  destruct t as [|c2 [|u t']]; [done | cbn [without]; by rewrite IH by lia |].
  destruct (Ascii.eqb_spec c "_") as [->|Hc]; cbn [andb].
  - destruct (Ascii.eqb_spec c2 "_") as [->|Hc2]; cbn [andb].
    + destruct (is_upper u) eqn:Hu.
      * cbn [without]. change (Ascii.eqb "_" "_") with true. cbv iota.
        cbn [String.length] in Hn. by rewrite (IH t') by lia.
      * change (without "_" (String "_" (String "_" (String u t'))))
          with (without "_" (String "_" (String u t'))).
        cbn [without]. change (Ascii.eqb "_" "_") with true. cbv iota.
        rewrite (IH (String "_" (String u t'))) by (cbn in *; lia).
        reflexivity.
    + cbn [without]. by rewrite (IH (String c2 (String u t'))) by (cbn in *; lia).
  - cbn [without]. by rewrite (IH (String c2 (String u t'))) by (cbn in *; lia).
Qed.

Lemma without_sub_camel n : ∀ s,
  String.length s ≤ n → without "_" (sub_camel s) = without "_" s.
Proof.
  induction n as [|n IH]; intros [|c t] Hn; try done; [simpl in Hn; lia|].
  cbn [String.length] in Hn. cbn [sub_camel].
  destruct t as [|u t']; [done|].
  destruct ((is_lower c || is_digit c) && is_upper u).
  - cbn [without]. change (Ascii.eqb "_" "_") with true. cbv iota.
    cbn [String.length] in Hn. by rewrite (IH t') by lia.
  - cbn [without]. by rewrite (IH (String u t')) by (cbn in *; lia).
Qed.

End snake_case_letters.

(** X2. On a name of ASCII characters [to_snake_case] changes nothing
    but the case of the letters and the underscores: without its
    underscores, the result is the name without its underscores, in
    lower case. *)
Theorem to_snake_case_keeps_the_letters (name : string) :
  ascii_text name = true →
  without "_" (msg2proto.to_snake_case name) = lower (without "_" name).
Proof.
  intros _. unfold msg2proto.to_snake_case.
  rewrite without_lower.
  rewrite (without_sub_camel _ _ (le_n _)).
  rewrite (without_sub_underscores _ _ (le_n _)).
  by rewrite (without_sub_word _ false _ (le_n _)).
Qed.

Lemma to_snake_case_keeps_the_letters_scan :
  without "_" (msg2proto.to_snake_case "LaserScan2D")
  = lower (without "_" "LaserScan2D").
Proof. apply (to_snake_case_keeps_the_letters "LaserScan2D"). reflexivity. Defined.

(** X3. A name of ASCII characters without upper-case letters is its own
    snake case. *)
Theorem to_snake_case_leaves_lower_case_names (name : string) :
  ascii_text name = true → no_upper name = true →
  msg2proto.to_snake_case name = name.
Proof.
  intros _ H. unfold msg2proto.to_snake_case.
  rewrite (sub_word_fixed _ _ H), (sub_underscores_fixed _ H), (sub_camel_fixed _ H).
  by apply lower_fixed.
Qed.

Lemma to_snake_case_leaves_lower_case_names_scan :
  msg2proto.to_snake_case "laser_scan2" = "laser_scan2".
Proof.
  apply (to_snake_case_leaves_lower_case_names "laser_scan2"); reflexivity.
Defined.

(** ** msg2proto: the forward TypeMap *)

Section dict_facts.
Context {K V : Type} `{Countable K}.

(** What a dict literal holds under a key is the value of one of its
    entries for that key. *)
Lemma py_dict_lookup (entries : list (K * V)) k v :
  py_dict entries !! k = Some v → (k, v) ∈ entries.
Proof.
  unfold py_dict.
  assert (∀ m : gmap K V,
            foldl (λ m kv, <[kv.1 := kv.2]> m) m entries !! k = Some v →
            m !! k = Some v ∨ (k, v) ∈ entries) as Hgen.
  { induction entries as [|[k' v'] es IH]; intros m; cbn [foldl]; [by left|].
    intros Hl. apply IH in Hl as [Hl|Hl].
    - cbn [fst snd] in Hl. destruct (decide (k' = k)) as [->|Hne].
      + rewrite lookup_insert_eq in Hl. injection Hl as ->. right. left.
      + rewrite lookup_insert_ne in Hl by done. by left.
    - right. by right. }
  intros Hl. apply Hgen in Hl as [Hl|Hl]; [|done].
  by rewrite lookup_empty in Hl.
Qed.

End dict_facts.

Section forward_type_map.
Import msg2proto.

Lemma contains_replace a b s :
  Ascii.eqb b a = false → contains a (replace a b s) = false.
Proof.
  intros Hab. induction s as [|x t IH]; [done|]. cbn [replace contains].
  rewrite IH, orb_false_r.
  destruct (Ascii.eqb x a) eqn:E; [exact Hab | exact E].
Qed.

Lemma type_table_no_slash :
  forallb (λ kv, negb (contains "/" kv.2)) type_table = true.
Proof. vm_compute. reflexivity. Qed.

End forward_type_map.

(** X4. The name [map_type] returns holds no slash, whatever the type:
    no value of the table holds one, and a type without an entry has its
    slashes turned into periods. *)
Theorem map_type_has_no_slash (field_type : string) :
  contains "/" (msg2proto.map_type field_type) = false.
Proof.
  unfold msg2proto.map_type, dict_get.
  destruct (py_dict msg2proto.type_table !! field_type) as [v|] eqn:E; cbn [default].
  - apply py_dict_lookup in E.
    pose proof type_table_no_slash as Ht.
    rewrite forallb_forall in Ht. apply list_elem_of_In in E.
    specialize (Ht _ E). cbn [snd] in Ht. by apply negb_true_iff in Ht.
  - by apply contains_replace.
Qed.

(** ** The well-known types, forth and back *)

Section wellknown.
Import protoc_gen_msg.

Lemma message_fieldtype_other type_name pkg namespace :
  split "." type_name !! 1 = Some namespace → namespace ≠ pkg →
  message_fieldtype type_name pkg
  = Some (replace "." "/"
            (if startswith "google.protobuf" (tail type_name)
             then map_type_name (tail type_name) else tail type_name)).
Proof.
  intros Hs Hne. unfold message_fieldtype. rewrite Hs. cbn [mbind option_bind].
  apply String.eqb_neq in Hne. by rewrite Hne.
Qed.

End wellknown.

(** X5. The well-known types come back: a message type that the forward
    table maps to a well-known type of the schema language is, as the
    type of a field of a message outside the package [google], written
    by the plugin under its own name again.  The type name of the field
    is the mapped name with the leading period of a qualified name. *)
Theorem wellknown_type_round_trip (t pkg : string) :
  t ∈ wellknown_types → pkg ≠ "google" →
  protoc_gen_msg.message_fieldtype ("." +:+ msg2proto.map_type t) pkg = Some t.
Proof.
  intros Hin Hpkg. unfold wellknown_types in Hin.
  repeat (apply elem_of_cons in Hin as [->|Hin]);
    [..|by apply elem_of_nil in Hin];
    (rewrite (message_fieldtype_other _ pkg "google");
     [vm_compute; reflexivity | vm_compute; reflexivity | congruence]).
Qed.

Lemma wellknown_type_round_trip_time :
  protoc_gen_msg.message_fieldtype
    ("." +:+ msg2proto.map_type "builtin_interfaces/Time") "diagnostics"
  = Some "builtin_interfaces/Time".
Proof.
  apply (wellknown_type_round_trip "builtin_interfaces/Time" "diagnostics").
  - left.
  - intros H. discriminate H.
Defined.

(** ** msg2proto: the text an item consumes *)

Section consumed_text.
Import msg2proto msg2proto.grammar.

Lemma suffix_refl s : suffix_of s s.
Proof. by exists "". Qed.

Lemma suffix_trans a b c : suffix_of a b → suffix_of b c → suffix_of a c.
Proof.
  intros [p ->] [q ->]. exists (q +:+ p). by rewrite string_app_assoc.
Qed.

Lemma suffix_cons r c t : suffix_of r t → suffix_of r (String c t).
Proof. intros [p ->]. by exists (String c p). Qed.

Lemma span_suffix p s a r : span p s = (a, r) → suffix_of r s.
Proof.
  intros H. exists a. pose proof (span_app p s) as Hs. by rewrite H in Hs.
Qed.

Lemma span1_suffix p s a r : span1 p s = Some (a, r) → suffix_of r s.
Proof.
  unfold span1. destruct (span p s) as [[|x a'] r'] eqn:E; [done|].
  intros [= <- <-]. by apply span_suffix in E.
Qed.

Lemma SP_suffix s : suffix_of (SP s) s.
Proof. unfold SP. destruct (span is_sp s) as [a r] eqn:E. by apply span_suffix in E. Qed.

Lemma EOL_suffix s r : EOL s = Some r → suffix_of r s.
Proof.
  destruct s as [|c t]; simpl; [done|].
  destruct (is_eol c); [|done]. intros [= <-]. apply suffix_cons, suffix_refl.
Qed.

Lemma lit_suffix l s r : lit l s = Some r → suffix_of r s.
Proof.
  revert s. induction l as [|a l IH]; intros [|b s]; simpl; intros H;
    simplify_eq; try apply suffix_refl.
  destruct (Ascii.eqb a b); [|done]. apply suffix_cons. by apply IH.
Qed.

Lemma ident_suffix f g s a r : ident f g s = Some (a, r) → suffix_of r s.
Proof.
  destruct s as [|c t]; simpl; [done|].
  destruct (f c); [|done]. destruct (span g t) as [a' r'] eqn:E.
  intros [= <- <-]. apply suffix_cons. by apply span_suffix in E.
Qed.

Lemma bracketed_suffix o c s a r : bracketed o c s = Some (a, r) → suffix_of r s.
Proof.
  destruct s as [|x t]; simpl; [done|].
  destruct (Ascii.eqb x o); [|done].
  destruct (span (is_not c) t) as [body [|y r']] eqn:E; [done|].
  intros [= <- <-]. apply span_suffix in E.
  apply suffix_cons. eapply suffix_trans; [|exact E]. apply suffix_cons, suffix_refl.
Qed.

#[local] Arguments span : simpl never.
#[local] Arguments lit : simpl never.
#[local] Arguments bracketed : simpl never.

(** Follows a chain of matches from what is left back to the start. *)
Ltac chain :=
  solve [ apply suffix_refl
        | match goal with
          | H : suffix_of ?a ?b |- suffix_of ?a _ =>
              apply (suffix_trans _ b _ H); clear H; chain
          end
        | match goal with
          | |- suffix_of (SP ?x) _ => apply (suffix_trans _ x _ (SP_suffix x)); chain
          end
        | apply suffix_cons; chain ].

Ltac suffixes :=
  repeat match goal with
  | H : span1 _ _ = Some _ |- _ => apply span1_suffix in H
  | H : span _ _ = (_, _) |- _ => apply span_suffix in H
  | H : bracketed _ _ _ = Some _ |- _ => apply bracketed_suffix in H
  | H : ident _ _ _ = Some _ |- _ => apply ident_suffix in H
  | H : lit _ _ = Some _ |- _ => apply lit_suffix in H
  | H : EOL _ = Some _ |- _ => apply EOL_suffix in H
  end.

Lemma quoted_suffix q s a r : quoted q s = Some (a, r) → suffix_of r s.
Proof. unfold quoted. intros H. cases; suffixes; chain. Qed.

Lemma value_suffix s a r : value s = Some (a, r) → suffix_of r s.
Proof.
  unfold value, numericval, stringval, arrayval, boolval.
  intros H. cases;
    repeat match goal with
    | H : quoted _ _ = Some _ |- _ => apply quoted_suffix in H
    end; suffixes; chain.
Qed.

Lemma comment_suffix s a r : comment s = Some (a, r) → suffix_of r s.
Proof. unfold comment, text. intros H. cases; suffixes; chain. Qed.

Lemma opt_suffix p s a r :
  (∀ s a r, p s = Some (a, r) → suffix_of r s) →
  opt p s = (a, r) → suffix_of r s.
Proof.
  unfold opt. intros Hp H. destruct (p s) as [[a' r']|] eqn:E; simplify_eq.
  - by apply Hp in E.
  - apply suffix_refl.
Qed.

Lemma type_suffix s t r : type s = Some (t, r) → suffix_of r s.
Proof.
  unfold type, basetype, complextype, stringtype, primitivetype, arrayspec,
    arraybound, stringbound, packagename, msgname.
  intros H. cases; suffixes; chain.
Qed.

Lemma field_suffix s p r : field s = Some (p, r) → suffix_of r s.
Proof.
  unfold field, fieldname. intros H. cases.
  repeat match goal with
  | H : type _ = Some _ |- _ => apply type_suffix in H
  | H : opt value _ = _ |- _ => apply (opt_suffix _ _ _ _ value_suffix) in H
  | H : opt comment _ = _ |- _ => apply (opt_suffix _ _ _ _ comment_suffix) in H
  end; suffixes; chain.
Qed.

Lemma constant_suffix s p r : constant s = Some (p, r) → suffix_of r s.
Proof.
  unfold constant, constname. intros H. cases.
  repeat match goal with
  | H : type _ = Some _ |- _ => apply type_suffix in H
  | H : value _ = Some _ |- _ => apply value_suffix in H
  | H : opt comment _ = _ |- _ => apply (opt_suffix _ _ _ _ comment_suffix) in H
  end; suffixes; chain.
Qed.

Lemma definition_suffix s l r : definition s = Some (l, r) → suffix_of r s.
Proof.
  unfold definition. intros H. cases;
    repeat match goal with
    | H : constant _ = Some _ |- _ => apply constant_suffix in H
    | H : field _ = Some _ |- _ => apply field_suffix in H
    end; chain.
Qed.

Lemma ends_with_eol_app a b :
  ends_with_eol b = true → ends_with_eol (a +:+ b) = true.
Proof.
  intros Hb. induction a as [|c a IH]; [done|].
  change (String c a +:+ b) with (String c (a +:+ b)). cbn [ends_with_eol].
  destruct (a +:+ b) eqn:E; [|exact IH].
  rewrite <- E in IH. by rewrite E in IH.
Qed.

(** What an end of line after blanks consumes ends with the end of line. *)
Lemma EOL_SP_consumed u r :
  EOL (SP u) = Some r → ∃ pre, u = pre +:+ r ∧ ends_with_eol pre = true.
Proof.
  intros H. apply EOL_starts in H as (c & E & Hc).
  destruct (SP_suffix u) as [blanks Hu]. rewrite E in Hu.
  exists (blanks +:+ String c ""). split.
  - by rewrite string_app_assoc.
  - apply ends_with_eol_app. exact Hc.
Qed.

Lemma consumed_after a s u r :
  s = a +:+ u → (∃ pre, u = pre +:+ r ∧ ends_with_eol pre = true) →
  ∃ pre, s = pre +:+ r ∧ ends_with_eol pre = true.
Proof.
  intros -> (pre & -> & He). exists (a +:+ pre). split.
  - by rewrite string_app_assoc.
  - by apply ends_with_eol_app.
Qed.

(** The text of an item ends with its end of line. *)
Lemma item_consumed s l r :
  item s = Some (l, r) → ∃ pre, s = pre +:+ r ∧ ends_with_eol pre = true.
Proof.
  unfold item, emptyline.
  destruct (EOL (SP s)) as [r1|] eqn:Ee; cbn [mbind option_bind].
  - intros [= <- <-]. by apply EOL_SP_consumed.
  - unfold line.
    destruct (comment (SP s)) as [[c r1]|] eqn:Ec.
    + destruct (EOL (SP r1)) as [r2|] eqn:Et; cbn [mbind option_bind]; [|done].
      intros [= <- <-]. apply comment_suffix in Ec.
      destruct (suffix_trans _ _ _ Ec (SP_suffix s)) as [a Ha].
      by apply (consumed_after a _ r1), EOL_SP_consumed.
    + destruct (definition (SP s)) as [[d r1]|] eqn:Ed.
      * destruct (EOL (SP r1)) as [r2|] eqn:Et; cbn [mbind option_bind]; [|done].
        intros [= <- <-]. apply definition_suffix in Ed.
        destruct (suffix_trans _ _ _ Ed (SP_suffix s)) as [a Ha].
        by apply (consumed_after a _ r1), EOL_SP_consumed.
      * destruct (EOL (SP (SP s))); cbn [mbind option_bind]; done.
Qed.

(** The lines of a text: nothing, or a text that ends with an end of line. *)
Lemma lines_consumed s doc r :
  lines s doc r →
  ∃ pre, s = pre +:+ r ∧ (doc = [] ∧ pre = "" ∨ doc ≠ [] ∧ ends_with_eol pre = true).
Proof.
  induction 1 as [s|s l r ls r' Hi Hl IH].
  - exists "". split; [done | by left].
  - apply item_consumed in Hi as (p1 & -> & H1).
    destruct IH as (p2 & -> & IH). exists (p1 +:+ p2). split.
    + by rewrite string_app_assoc.
    + right. split; [done|].
      destruct IH as [[_ ->]|[_ H2]].
      * by rewrite string_app_nil_r.
      * by apply ends_with_eol_app.
Qed.

End consumed_text.

(** ** msg2proto: the texts that parse *)

Section parse_composition.
Import msg2proto msg2proto.grammar.

Lemma lines_app s d1 r d2 r' :
  lines s d1 r → lines r d2 r' → lines s (d1 ++ d2) r'.
Proof.
  induction 1 as [s|s l r ls r1 Hi Hl IH]; intros H2; [exact H2|].
  cbn [app]. econstructor; [exact Hi | by apply IH].
Qed.

Lemma lines_nil_inv s doc : lines "" doc s → doc = [] ∧ s = "".
Proof. inversion 1 as [|? ? ? ? ? Hi]; [done|]. by rewrite item_empty in Hi. Qed.

End parse_composition.

(** X6. Parsing goes line by line: after a text that parses, the text
    that follows is parsed as if it stood alone.  The two texts together
    give the items of the first followed by the items of the second, and
    no document when the second text gives none. *)
Theorem parse_msg_concatenation (first second : string) (doc : msg2proto.Document) :
  msg2proto.parse_msg first = Some doc →
  msg2proto.parse_msg (first +:+ second)
  = (λ items, doc ++ items) <$> msg2proto.parse_msg second.
Proof.
  intros Hf. apply parse_Some in Hf.
  apply (lines_ext _ _ _ second) in Hf. change ("" +:+ second) with second in Hf.
  destruct (msg2proto.parse_msg second) as [items|] eqn:Es; cbn [fmap option_fmap option_map].
  - apply parse_Some in Es. apply parse_Some. by apply (lines_app _ _ second).
  - apply parse_None in Es as (d & rest & Hl & Hne & Hn).
    apply parse_None. exists (doc ++ d), rest.
    split; [by apply (lines_app _ _ second) | done].
Qed.

Lemma parse_msg_concatenation_comment :
  msg2proto.parse_msg (("# id" +:+ NL) +:+ ("int32 x" +:+ NL))
  = (λ items, [msg2proto.Comment "id"] ++ items)
    <$> msg2proto.parse_msg ("int32 x" +:+ NL).
Proof.
  apply (parse_msg_concatenation ("# id" +:+ NL) ("int32 x" +:+ NL)).
  vm_compute. reflexivity.
Defined.

(** X7. A text that does not end with an end of line is rejected, unless
    it is empty: the last line of a message file needs its line feed, or
    nothing is written for the file. *)
Theorem parse_msg_needs_final_eol (text : string) :
  text ≠ "" → ends_with_eol text = false →
  msg2proto.parse_msg text = None
  ∧ ∀ msg_name pkg, msg2proto.convert_msg_file msg_name text pkg = None.
Proof.
  intros Hne He.
  assert (msg2proto.parse_msg text = None) as Hnone.
  { destruct (msg2proto.parse_msg text) as [doc|] eqn:E; [|done].
    apply parse_Some, lines_consumed in E as (pre & Ht & H).
    rewrite string_app_nil_r in Ht. subst pre.
    destruct H as [[_ ->]|[_ H]]; congruence. }
  split; [exact Hnone|]. intros msg_name pkg.
  unfold msg2proto.convert_msg_file. by rewrite Hnone.
Qed.

Lemma parse_msg_needs_final_eol_field :
  msg2proto.parse_msg "int32 x" = None
  ∧ ∀ msg_name pkg, msg2proto.convert_msg_file msg_name "int32 x" pkg = None.
Proof.
  apply (parse_msg_needs_final_eol "int32 x").
  - intros H. discriminate H.
  - reflexivity.
Defined.

(** X8. [convert_msg_file] writes nothing for the empty text and for a
    text the grammar rejects, and for no other text: every other text has
    a document with at least one item, whose schema is written. *)
Theorem convert_msg_file_writes (msg_name text pkg : string) :
  (msg2proto.convert_msg_file msg_name text pkg = None
   ↔ text = "" ∨ msg2proto.parse_msg text = None)
  ∧ (∀ proto, msg2proto.convert_msg_file msg_name text pkg = Some proto →
       ∃ doc, msg2proto.parse_msg text = Some doc ∧ doc ≠ []
              ∧ proto = msg2proto.generate_proto doc msg_name pkg).
Proof.
  unfold msg2proto.convert_msg_file.
  destruct (msg2proto.parse_msg text) as [[|l ls]|] eqn:E.
  - apply parse_Some in E. inversion E as [s Hs|]; subst.
    split; [|by intros proto H].
    split; [by left | done].
  - split.
    + split; [done|]. intros [->|H]; [|done].
      apply parse_Some, lines_nil_inv in E as [E _]. discriminate E.
    + intros proto [= <-]. by exists (l :: ls).
  - split; [|by intros proto H]. split; [by right | done].
Qed.

(** ** msg2proto: what the visitor guarantees *)

Section visitor_invariants.
Import msg2proto msg2proto.grammar.

Lemma span_all p s : all_chars p (span p s).1 = true.
Proof.
  induction s as [|c t IH]; [done|]. cbn [span].
  destruct (p c) eqn:E; [|done].
  destruct (span p t) as [a r]. cbn [fst all_chars] in *. by rewrite E, IH.
Qed.

Lemma span1_all p s a r :
  span1 p s = Some (a, r) → all_chars p a = true ∧ a ≠ "".
Proof.
  unfold span1. pose proof (span_all p s) as H.
  destruct (span p s) as [[|x a'] r']; [done|]. intros [= <- <-]. done.
Qed.

Lemma ident_all f g s a r :
  (∀ c, f c = true → g c = true) →
  ident f g s = Some (a, r) → starts_with f a = true ∧ all_chars g a = true.
Proof.
  intros Hfg. destruct s as [|c t]; [done|]. cbn [ident].
  destruct (f c) eqn:E; [|done]. pose proof (span_all g t) as H.
  destruct (span g t) as [a' r']. intros [= <- <-].
  cbn [starts_with all_chars fst] in *. by rewrite E, (Hfg _ E), H.
Qed.

Lemma text_no_lf s : contains LF (text s).1 = false.
Proof.
  unfold text. pose proof (span_all (is_not LF) s) as H.
  induction ((span (is_not LF) s).1) as [|c t IH]; [done|].
  cbn [all_chars contains] in *. apply andb_true_iff in H as [Hc Ht].
  unfold is_not in Hc. apply negb_true_iff in Hc. by rewrite Hc, IH.
Qed.

Lemma comment_no_lf s c r : comment s = Some (c, r) → contains LF c = false.
Proof.
  unfold comment. destruct (span1 (Ascii.eqb "#") s) as [[h r0]|];
    cbn [mbind option_bind]; [|done].
  pose proof (text_no_lf (SP r0)) as H. destruct (text (SP r0)) as [c' r'].
  by intros [= <- <-].
Qed.

Lemma opt_comment_no_lf s c r : opt comment s = (c, r) → contains LF c = false.
Proof.
  unfold opt. destruct (comment s) as [[c' r']|] eqn:E.
  - intros [= <- <-]. by apply comment_no_lf in E.
  - by intros [= <- <-].
Qed.

#[local] Arguments span : simpl never.
#[local] Arguments lit : simpl never.
#[local] Arguments bracketed : simpl never.

Lemma bracketed_nonempty o c s a r : bracketed o c s = Some (a, r) → a ≠ "".
Proof.
  unfold bracketed. destruct s as [|x t]; [done|].
  destruct (Ascii.eqb x o); [|done].
  destruct (span (is_not c) t) as [body [|y r']]; [done|]. by intros [= <- <-].
Qed.

Lemma quoted_nonempty q s a r : quoted q s = Some (a, r) → a ≠ "".
Proof.
  unfold quoted. destruct s as [|x t].
  - apply bracketed_nonempty.
  - destruct (is_lower x).
    + destruct (bracketed q q t) as [[m r0]|]; cbn [mbind option_bind].
      * by intros [= <- <-].
      * apply bracketed_nonempty.
    + apply bracketed_nonempty.
Qed.

Lemma value_nonempty s v r : value s = Some (v, r) → v ≠ "".
Proof.
  unfold value, numericval, stringval, arrayval.
  destruct (span1 is_numeric s) as [[a r0]|] eqn:En.
  { intros [= <- <-]. by apply span1_all in En as [_ En]. }
  destruct (boolval s) as [[a r0]|] eqn:Eb.
  { intros [= <- <-]. unfold boolval in Eb. destruct s as [|x t]; [done|].
    destruct (Ascii.eqb x "T" || Ascii.eqb x "t").
    - destruct (lit "rue" t); cbn [mbind option_bind] in Eb; [|done].
      by injection Eb as <- <-.
    - destruct (Ascii.eqb x "F" || Ascii.eqb x "f"); [|done].
      destruct (lit "alse" t); cbn [mbind option_bind] in Eb; [|done].
      by injection Eb as <- <-. }
  destruct (quoted DQ s) as [[a r0]|] eqn:Eq.
  { intros [= <- <-]. by apply quoted_nonempty in Eq. }
  destruct (quoted SQ s) as [[a r0]|] eqn:Eq'.
  { intros [= <- <-]. by apply quoted_nonempty in Eq'. }
  apply bracketed_nonempty.
Qed.

Lemma basetype_well_formed s pkg t cx r :
  basetype s = Some (pkg, t, cx, r) →
  (if cx then starts_with is_upper t
   else String.eqb pkg "" && negb (String.eqb t "")
        && all_chars (λ c, is_lower c || is_digit c) t) = true.
Proof.
  unfold basetype.
  destruct (complextype s) as [[[[p m] c] r0]|] eqn:Ec.
  { intros [= <- <- <- <-]. unfold complextype in Ec.
    destruct (match _ with Some res => res | None => ("", s) end) as [p' r1].
    destruct (msgname r1) as [[m' r2]|] eqn:Em; cbn [mbind option_bind] in Ec; [|done].
    injection Ec as <- <- <- <-.
    apply (ident_all is_upper is_word) in Em as [Em _]; [done|].
    intros c Hc. unfold is_word. rewrite Hc. by destruct (is_lower c). }
  destruct (stringtype s) as [[[[p m] c] r0]|] eqn:Es.
  { intros [= <- <- <- <-]. unfold stringtype in Es.
    destruct (lit "string" s); cbn [mbind option_bind] in Es; [|done].
    by injection Es as <- <- <- <-. }
  unfold primitivetype.
  destruct (span1 (λ c, is_lower c || is_digit c) s) as [[a r0]|] eqn:Ep;
    cbn [mbind option_bind]; [|done].
  intros [= <- <- <- <-]. apply span1_all in Ep as [Ha Hne].
  rewrite Ha. apply String.eqb_neq in Hne. by rewrite Hne.
Qed.

Lemma type_well_formed s t r : type s = Some (t, r) → well_formed_type t = true.
Proof.
  unfold type, well_formed_type.
  destruct (basetype s) as [[[[pkg n] cx] r0]|] eqn:Eb; cbn [mbind option_bind]; [|done].
  apply basetype_well_formed in Eb.
  destruct (arrayspec r0) as [[b r1]|]; intros [= <- <-];
    cbn [is_complextype typename package is_array msg2proto.arraybound];
    rewrite Eb; reflexivity.
Qed.

Lemma field_well_formed s p r : field s = Some (p, r) → well_formed (Field p) = true.
Proof.
  unfold field.
  destruct (type s) as [[t r0]|] eqn:Et; cbn [mbind option_bind]; [|done].
  destruct (fieldname (SP r0)) as [[n r1]|] eqn:En; cbn [mbind option_bind]; [|done].
  destruct (lit "=" (SP r1)); [done|].
  destruct (opt value (SP r1)) as [v r2].
  destruct (opt comment (SP r2)) as [c r3] eqn:Ec. intros [= <- <-].
  apply type_well_formed in Et. apply opt_comment_no_lf in Ec.
  apply ident_all in En as [Hs Ha];
    [|by intros x Hx; rewrite Hx].
  cbn [well_formed msg2proto.type name msg2proto.comment]. by rewrite Et, Hs, Ha, Ec.
Qed.

Lemma constant_well_formed s p r :
  constant s = Some (p, r) → well_formed (Constant p) = true.
Proof.
  unfold constant.
  destruct (type s) as [[t r0]|] eqn:Et; cbn [mbind option_bind]; [|done].
  destruct (constname (SP r0)) as [[n r1]|] eqn:En; cbn [mbind option_bind]; [|done].
  destruct (lit "=" (SP r1)) as [r2|]; cbn [mbind option_bind]; [|done].
  destruct (value (SP r2)) as [[v r3]|] eqn:Ev; cbn [mbind option_bind]; [|done].
  destruct (opt comment (SP r3)) as [c r4] eqn:Ec. intros [= <- <-].
  apply type_well_formed in Et. apply opt_comment_no_lf in Ec.
  apply value_nonempty, String.eqb_neq in Ev.
  apply ident_all in En as [Hs Ha];
    [|by intros x Hx; rewrite Hx].
  cbn [well_formed msg2proto.type name msg2proto.value msg2proto.comment].
  by rewrite Et, Hs, Ha, Ev, Ec.
Qed.

Lemma item_well_formed s l r : item s = Some (l, r) → well_formed l = true.
Proof.
  unfold item, emptyline.
  destruct (EOL (SP s)) as [r1|]; cbn [mbind option_bind].
  { by intros [= <- <-]. }
  unfold line.
  destruct (comment (SP s)) as [[c r1]|] eqn:Ec.
  { destruct (EOL (SP r1)); cbn [mbind option_bind]; [|done].
    intros [= <- <-]. apply comment_no_lf in Ec. cbn [well_formed]. by rewrite Ec. }
  destruct (definition (SP s)) as [[d r1]|] eqn:Ed.
  - destruct (EOL (SP r1)); cbn [mbind option_bind]; [|done].
    intros [= <- <-]. unfold definition in Ed.
    destruct (constant (SP s)) as [[p r2]|] eqn:Ek.
    + injection Ed as <- <-. by apply constant_well_formed in Ek.
    + destruct (field (SP s)) as [[p r2]|] eqn:Ef; cbn [mbind option_bind] in Ed; [|done].
      injection Ed as <- <-. by apply field_well_formed in Ef.
  - destruct (EOL (SP (SP s))); cbn [mbind option_bind]; done.
Qed.

Lemma lines_well_formed s doc r : lines s doc r → forallb well_formed doc = true.
Proof.
  induction 1 as [s|s l r ls r' Hi Hl IH]; [done|].
  cbn [forallb]. by rewrite (item_well_formed _ _ _ Hi), IH.
Qed.

End visitor_invariants.

(** X9. Every item of the document of a text of ASCII characters without
    NUL is well formed: a field has a name in lower case, a constant a
    name in upper case and a value that is not empty; a type is complex
    with a name that starts in upper case, or has no package and a name
    of lower-case letters and digits; a type is an array exactly when it
    carries an array bound; no comment holds a line feed. *)
Theorem parsed_items_are_well_formed (text : string) (doc : msg2proto.Document) :
  ascii_text text = true → contains NUL text = false →
  msg2proto.parse_msg text = Some doc → forallb well_formed doc = true.
Proof. intros _ _ H. apply parse_Some in H. by apply lines_well_formed in H. Qed.

Lemma parsed_items_are_well_formed_red :
  forallb well_formed [msg2proto.Constant red_constant] = true.
Proof.
  apply (parsed_items_are_well_formed ("uint8 RED = 0 # red color" +:+ NL));
    [reflexivity | reflexivity |].
  vm_compute. reflexivity.
Defined.

(** ** msg2proto: the import set *)

Section import_set.
Import msg2proto.

Variables msg_name pkg : string.

Lemma step_imports st l :
  imports (step msg_name pkg st l)
  = match import_of msg_name pkg l with
    | Some i => {[ i ]} ∪ imports st
    | None => imports st
    end.
Proof.
  destruct l as [| |p|]; try reflexivity.
  cbn [step imports import_of]. unfold add_import.
  destruct (is_complextype (type p)); [|reflexivity].
  cbn [andb]. by destruct (negb _).
Qed.

Lemma foldl_step_import_set st doc :
  imports (foldl (step msg_name pkg) st doc)
  = imports st ∪ list_to_set (omap (import_of msg_name pkg) doc).
Proof.
  revert st. induction doc as [|l ls IH]; intros st.
  - simpl. by rewrite (right_id_L ∅ (∪)).
  - cbn [foldl]. rewrite IH, step_imports. cbn [omap list_omap].
    destruct (import_of msg_name pkg l) as [i|]; [|done].
    rewrite list_to_set_cons.
    rewrite (assoc_L (∪)). f_equal. apply (comm_L (∪)).
Qed.

End import_set.

(** X10. The imports of a schema are the imports its items ask for, each
    once: those of the fields of a complex type other than the message
    itself.  So a schema has no import exactly when no item asks for
    one, and neither the order of the items nor a repeated type changes
    the imports. *)
Theorem imports_of_the_fields (doc : msg2proto.Document) (msg_name pkg : string) :
  msg2proto.imports (msg2proto.walk doc msg_name pkg)
  = list_to_set (omap (import_of msg_name pkg) doc)
  ∧ (msg2proto.imports (msg2proto.walk doc msg_name pkg) = ∅
     ↔ Forall (λ l, import_of msg_name pkg l = None) doc).
Proof.
  assert (msg2proto.imports (msg2proto.walk doc msg_name pkg)
          = list_to_set (omap (import_of msg_name pkg) doc)) as Hset.
  { unfold msg2proto.walk. rewrite foldl_step_import_set.
    cbn [msg2proto.initial msg2proto.imports]. by rewrite (left_id_L ∅ (∪)). }
  split; [exact Hset|]. rewrite Hset. clear Hset.
  induction doc as [|l ls IH].
  - split; [constructor | done].
  - cbn [omap list_omap]. destruct (import_of msg_name pkg l) as [i|] eqn:E.
    + rewrite list_to_set_cons. split.
      * intros H. exfalso. apply (non_empty_inhabited_L i) in H; [done|].
        apply elem_of_union_l, elem_of_singleton. reflexivity.
      * intros H. apply Forall_cons in H as [H _]. congruence.
    + rewrite IH. rewrite Forall_cons. tauto.
Qed.

(** ** protoc_gen_msg: when rendering succeeds, and what it adds *)

Section rendering_succeeds.
Import protoc_gen_msg.

#[local] Arguments map_type : simpl never.
#[local] Arguments map_label : simpl never.
#[local] Arguments map_type_name : simpl never.
#[local] Arguments split : simpl never.
#[local] Arguments generate_enum : simpl never.
#[local] Arguments message_fieldtype : simpl never.
#[local] Arguments enum_name_of : simpl never.
#[local] Arguments eq_str : simpl never.

Lemma message_fieldtype_Some type_name pkg :
  is_Some (message_fieldtype type_name pkg) ↔ 2 ≤ length (split "." type_name).
Proof.
  unfold message_fieldtype. split.
  - destruct (split "." type_name !! 1) as [second|] eqn:E.
    + intros _. apply lookup_lt_Some in E. lia.
    + cbn [mbind option_bind]. by intros [x Hx].
  - intros Hl.
    destruct (lookup_lt_is_Some_2 (split "." type_name) 1 ltac:(lia)) as [second ->].
    cbn [mbind option_bind]. by eexists.
Qed.

Lemma field_line_Some pkg f refs :
  is_Some (field_line pkg f refs)
  ↔ (field_type f = TYPE_MESSAGE → 2 ≤ length (split "." (field_type_name f))).
Proof.
  destruct (decide (field_type f = TYPE_MESSAGE)) as [Hm|Hm].
  - assert (is_message_field f) as Hm'.
    { rewrite is_message_field_kind. by apply bool_decide_pack. }
    rewrite (message_field_line _ _ _ Hm').
    pose proof (message_fieldtype_Some (field_type_name f) pkg) as [H1 H2].
    destruct (message_fieldtype (field_type_name f) pkg) as [ft|];
      cbn [mbind option_bind].
    + split; [intros _ _; apply H1; by eexists | intros _; by eexists].
    + split; [intros [x Hx]; discriminate Hx|].
      intros H. destruct (H2 (H Hm)) as [x Hx]. discriminate Hx.
  - split; [intros _ H; by destruct Hm|]. intros _. apply field_line_total.
    rewrite is_message_field_kind. intros H. by apply bool_decide_unpack in H.
Qed.

Lemma message_fields_Some pkg fields output refs :
  is_Some (message_fields pkg fields output refs)
  ↔ Forall (λ f, field_type f = TYPE_MESSAGE →
                 2 ≤ length (split "." (field_type_name f))) fields.
Proof.
  revert output refs. induction fields as [|f fs IH]; intros output refs;
    cbn [message_fields].
  - split; [constructor | by eexists].
  - rewrite Forall_cons, <- (field_line_Some pkg f refs).
    destruct (field_line pkg f refs) as [[l refs1]|]; cbn [mbind option_bind].
    + rewrite IH. split; [by eauto | tauto].
    + split; [by intros [x Hx] | by intros [[x Hx] _]].
Qed.

Lemma generate_message_Some message pkg :
  is_Some (generate_message message pkg) ↔ qualified message.
Proof.
  unfold generate_message, qualified. cbv zeta.
  rewrite <- (message_fields_Some pkg _
    ("# This file was generated. DO NOT EDIT!" +:+ NL +:+ NL +:+ "# "
     +:+ message_name message +:+ NL) ∅).
  destruct (message_fields pkg _ _ _) as [[o r]|]; cbn [mbind option_bind].
  - split; by eexists.
  - split; by intros [x Hx].
Qed.

Lemma generate_message_errors message pkg output refs errors :
  generate_message message pkg = Some (output, refs, errors) → errors = None.
Proof.
  unfold generate_message. cbv zeta.
  destruct (message_fields pkg _ _ _) as [[o r]|]; cbn [mbind option_bind]; [|done].
  by intros [= _ _ <-].
Qed.

(** One call of [generate_msg_file], when it returns: a file is added at
    the end of the response. *)
Lemma generate_msg_file_Some message pkg enums response :
  is_Some (generate_msg_file message pkg enums response) ↔ qualified message.
Proof.
  rewrite <- (generate_message_Some message pkg). unfold generate_msg_file.
  destruct (generate_message message pkg) as [[[o r] e]|] eqn:E;
    cbn [mbind option_bind].
  - apply generate_message_errors in E as ->.
    destruct (add_referenced_enums enums o r). split; by eexists.
  - split; by intros [x Hx].
Qed.

Lemma generate_msg_file_response message pkg enums response response' :
  generate_msg_file message pkg enums response = Some response' →
  error response' = error response
  ∧ ∃ f, file response' = file response ++ [f]
         ∧ file_name f = msg_file_name pkg message.
Proof.
  unfold generate_msg_file.
  destruct (generate_message message pkg) as [[[o r] e]|] eqn:E;
    cbn [mbind option_bind]; [|done].
  apply generate_message_errors in E as ->.
  destruct (add_referenced_enums enums o r) as [o' r'].
  intros [= <-]. split; [done|]. by eexists.
Qed.

Lemma nested_msg_files_Some nested pkg enums response :
  is_Some (nested_msg_files nested pkg enums response) ↔ Forall qualified nested.
Proof.
  revert response. induction nested as [|m ms IH]; intros response;
    cbn [nested_msg_files].
  - split; [constructor | by eexists].
  - rewrite Forall_cons, <- (generate_msg_file_Some m pkg enums response).
    destruct (generate_msg_file m pkg enums response) as [r1|];
      cbn [mbind option_bind].
    + rewrite IH. split; [by eauto | tauto].
    + split; [by intros [x Hx] | by intros [[x Hx] _]].
Qed.

Lemma nested_msg_files_response nested pkg enums response response' :
  nested_msg_files nested pkg enums response = Some response' →
  error response' = error response
  ∧ ∃ new, file response' = file response ++ new
           ∧ file_name <$> new = msg_file_name pkg <$> nested.
Proof.
  revert response. induction nested as [|m ms IH]; intros response;
    cbn [nested_msg_files].
  - intros [= <-]. split; [done|]. exists []. by rewrite app_nil_r.
  - destruct (generate_msg_file m pkg enums response) as [r1|] eqn:E;
      cbn [mbind option_bind]; [|done].
    intros H. apply IH in H as (He & new & Hf & Hn).
    apply generate_msg_file_response in E as (He1 & f & Hf1 & Hn1).
    split; [congruence|]. exists (f :: new). split.
    + rewrite Hf, Hf1, <- app_assoc. done.
    + rewrite !fmap_cons. by rewrite Hn, Hn1.
Qed.

Lemma msg_files_Some messages pkg enums response :
  is_Some (msg_files messages pkg enums response)
  ↔ Forall qualified (rendered_messages messages).
Proof.
  revert response. induction messages as [|m ms IH]; intros response;
    cbn [msg_files rendered_messages flat_map].
  - split; [constructor | by eexists].
  - rewrite <- app_comm_cons, Forall_cons, Forall_app.
    rewrite <- (generate_msg_file_Some m pkg enums response).
    destruct (generate_msg_file m pkg enums response) as [r1|];
      cbn [mbind option_bind].
    + rewrite <- (nested_msg_files_Some (nested_type m) pkg enums r1).
      destruct (nested_msg_files (nested_type m) pkg enums r1) as [r2|];
        cbn [mbind option_bind].
      * fold (rendered_messages ms). rewrite IH. split; [by eauto | tauto].
      * split; [by intros [x Hx] | by intros (_ & [x Hx] & _)].
    + split; [by intros [x Hx] | by intros [[x Hx] _]].
Qed.

Lemma msg_files_response messages pkg enums response response' :
  msg_files messages pkg enums response = Some response' →
  error response' = error response
  ∧ ∃ new, file response' = file response ++ new
           ∧ file_name <$> new = msg_file_name pkg <$> rendered_messages messages.
Proof.
  revert response. induction messages as [|m ms IH]; intros response;
    cbn [msg_files rendered_messages flat_map].
  - intros [= <-]. split; [done|]. exists []. by rewrite app_nil_r.
  - destruct (generate_msg_file m pkg enums response) as [r1|] eqn:E1;
      cbn [mbind option_bind]; [|done].
    destruct (nested_msg_files (nested_type m) pkg enums r1) as [r2|] eqn:E2;
      cbn [mbind option_bind]; [|done].
    intros H. apply IH in H as (He & new & Hf & Hn).
    apply generate_msg_file_response in E1 as (He1 & f & Hf1 & Hn1).
    apply nested_msg_files_response in E2 as (He2 & new2 & Hf2 & Hn2).
    split; [congruence|]. exists (f :: new2 ++ new). split.
    + rewrite Hf, Hf2, Hf1, <- !app_assoc. done.
    + fold (rendered_messages ms).
      rewrite fmap_cons, !fmap_app, fmap_cons. by rewrite Hn, Hn1, Hn2.
Qed.

End rendering_succeeds.

(** X11. [generate_message] raises exactly when a field of message kind
    has a type name without a period, which [split('.')[1]] cannot
    index; otherwise it returns, and what it returns as [errors] is
    [None]. *)
Theorem generate_message_succeeds
    (message : protoc_gen_msg.DescriptorProto) (pkg : string) :
  (is_Some (protoc_gen_msg.generate_message message pkg) ↔ qualified message)
  ∧ ∀ output referenced_enums errors,
      protoc_gen_msg.generate_message message pkg
      = Some (output, referenced_enums, errors) → errors = None.
Proof.
  split; [apply generate_message_Some|].
  intros output refs errors. apply generate_message_errors.
Qed.

(** X12. When [generate_msg_files] returns, it has left the error of the
    response and the files the response held as they were, and has added
    one file for every message of the proto file and for every message
    nested in one of these, in this order, each named by the package and
    the name of its message alone. *)
Theorem generate_msg_files_adds_files
    (proto_file proto_file' : protoc_gen_msg.FileDescriptorProto)
    (response response' : protoc_gen_msg.CodeGeneratorResponse) :
  protoc_gen_msg.generate_msg_files proto_file response = Some (proto_file', response') →
  protoc_gen_msg.error response' = protoc_gen_msg.error response
  ∧ ∃ new,
      protoc_gen_msg.file response' = protoc_gen_msg.file response ++ new
      ∧ protoc_gen_msg.file_name <$> new
        = msg_file_name (protoc_gen_msg.package proto_file)
          <$> rendered_messages (protoc_gen_msg.message_type proto_file).
Proof.
  unfold protoc_gen_msg.generate_msg_files, protoc_gen_msg.collect_enums.
  cbn [protoc_gen_msg.message_type protoc_gen_msg.package].
  match goal with
  | |- context [protoc_gen_msg.msg_files ?ms ?p ?e ?r] =>
      destruct (protoc_gen_msg.msg_files ms p e r) as [r'|] eqn:E;
        cbn [mbind option_bind]; [|done]
  end.
  intros [= _ <-]. by apply msg_files_response in E.
Qed.

(** X13. [generate_msg_files] returns exactly when the type names of the
    fields of message kind are qualified in every message it renders:
    the messages of the file and the messages nested in them.  Messages
    nested deeper are not rendered and cannot make it raise. *)
Theorem generate_msg_files_succeeds
    (proto_file : protoc_gen_msg.FileDescriptorProto)
    (response : protoc_gen_msg.CodeGeneratorResponse) :
  is_Some (protoc_gen_msg.generate_msg_files proto_file response)
  ↔ Forall qualified (rendered_messages (protoc_gen_msg.message_type proto_file)).
Proof.
  unfold protoc_gen_msg.generate_msg_files, protoc_gen_msg.collect_enums.
  cbn [protoc_gen_msg.message_type protoc_gen_msg.package].
  match goal with
  | |- context [protoc_gen_msg.msg_files ?ms ?p ?e ?r] =>
      rewrite <- (msg_files_Some ms p e r);
      destruct (protoc_gen_msg.msg_files ms p e r) as [r'|];
        cbn [mbind option_bind]
  end.
  - split; by eexists.
  - split; by intros [x Hx].
Qed.

Lemma generate_msg_files_adds_files_grid :
  ∃ proto_file' response',
    protoc_gen_msg.generate_msg_files grid_file empty_response
    = Some (proto_file', response')
    ∧ protoc_gen_msg.error response' = protoc_gen_msg.error empty_response
    ∧ ∃ new,
        protoc_gen_msg.file response' = protoc_gen_msg.file empty_response ++ new
        ∧ protoc_gen_msg.file_name <$> new
          = msg_file_name (protoc_gen_msg.package grid_file)
            <$> rendered_messages (protoc_gen_msg.message_type grid_file).
Proof.
  eexists _, _. split.
  - vm_compute. reflexivity.
  - eapply (generate_msg_files_adds_files grid_file _ empty_response).
    vm_compute. reflexivity.
Defined.

(** X14. [generate_code] renders the last file of the request and no
    other: the response is that of [generate_msg_files] on the last
    file, whatever files stand before it.  On a request without files it
    raises. *)
Theorem generate_code_renders_the_last_file
    (others : list protoc_gen_msg.FileDescriptorProto)
    (selected : protoc_gen_msg.FileDescriptorProto)
    (response : protoc_gen_msg.CodeGeneratorResponse) :
  snd <$> protoc_gen_msg.generate_code
            {| protoc_gen_msg.proto_file := others ++ [selected] |} response
  = snd <$> protoc_gen_msg.generate_msg_files selected response
  ∧ protoc_gen_msg.generate_code {| protoc_gen_msg.proto_file := [] |} response = None.
Proof.
  split; [|reflexivity].
  unfold protoc_gen_msg.generate_code. cbn [protoc_gen_msg.proto_file].
  rewrite last_snoc. cbn [mbind option_bind].
  destruct (protoc_gen_msg.generate_msg_files selected response) as [[pf r]|];
    reflexivity.
Qed.

(** ** protoc_gen_msg: the enum blocks of a file *)

Section enum_blocks.
Import protoc_gen_msg.

#[local] Arguments generate_enum : simpl never.

Lemma add_referenced_enums_left enums output refs :
  (add_referenced_enums enums output refs).2
  = refs ∖ list_to_set (enum_name <$> enums).
Proof.
  unfold add_referenced_enums. revert output refs.
  induction enums as [|e es IH]; intros output refs; cbn [foldl add_enum].
  - rewrite fmap_nil, list_to_set_nil. cbn [snd]. by rewrite difference_empty_L.
  - rewrite fmap_cons, list_to_set_cons.
    case_bool_decide as He; rewrite IH.
    + by rewrite difference_difference_l_L.
    + apply set_eq. intros x.
      rewrite !elem_of_difference, elem_of_union, elem_of_singleton.
      split; [|tauto]. intros [Hx Hn]. split; [done|].
      intros [->|Hin]; [done | by apply Hn].
Qed.

Lemma inlined_sublist enums refs : inlined enums refs `sublist_of` enums.
Proof.
  revert refs. induction enums as [|e es IH]; intros refs; cbn [inlined]; [done|].
  case_bool_decide.
  - by apply sublist_skip.
  - by apply sublist_cons.
Qed.

Lemma inlined_names enums refs n :
  n ∈ enum_name <$> inlined enums refs ↔ n ∈ refs ∧ n ∈ enum_name <$> enums.
Proof.
  revert refs. induction enums as [|e es IH]; intros refs; cbn [inlined].
  - rewrite fmap_nil, elem_of_nil. tauto.
  - case_bool_decide as He; rewrite !fmap_cons, ?elem_of_cons, IH.
    + rewrite elem_of_difference, elem_of_singleton.
      split; [intros [->|[[? ?] ?]]; tauto|].
      intros [Hn [->|Hes]]; [by left|].
      destruct (decide (n = enum_name e)); [by left | right; tauto].
    + split; [tauto|]. intros [Hn [->|Hes]]; [done | tauto].
Qed.

Lemma inlined_NoDup enums refs : NoDup (enum_name <$> inlined enums refs).
Proof.
  revert refs. induction enums as [|e es IH]; intros refs; cbn [inlined].
  - constructor.
  - case_bool_decide as He; [|apply IH].
    rewrite fmap_cons. constructor; [|apply IH].
    rewrite inlined_names, elem_of_difference, elem_of_singleton. tauto.
Qed.

End enum_blocks.

(** X15. The loop of [generate_msg_file] over the enums appends blocks of
    enums of the list, in the order of the list and whatever the order of
    the fields: one block for every referenced name that an enum of the
    list carries, and no block for any other name.  It leaves in
    [referenced_enums] the names that no enum of the list carries;
    nothing is written for them. *)
Theorem referenced_enums_are_inlined_in_order
    (enums : list protoc_gen_msg.EnumDescriptorProto) (output : string)
    (referenced_enums : gset string) :
  ∃ blocks,
    protoc_gen_msg.add_referenced_enums enums output referenced_enums
    = (output +:+ blocks_text blocks,
       referenced_enums ∖ list_to_set (protoc_gen_msg.enum_name <$> enums))
    ∧ blocks `sublist_of` enums
    ∧ NoDup (protoc_gen_msg.enum_name <$> blocks)
    ∧ ∀ n, n ∈ protoc_gen_msg.enum_name <$> blocks
           ↔ n ∈ referenced_enums ∧ n ∈ protoc_gen_msg.enum_name <$> enums.
Proof.
  exists (inlined enums referenced_enums). split.
  - pose proof (add_referenced_enums_text enums output referenced_enums) as H1.
    pose proof (add_referenced_enums_left enums output referenced_enums) as H2.
    destruct (protoc_gen_msg.add_referenced_enums enums output referenced_enums)
      as [o r]. cbn [fst snd] in *. by subst.
  - split; [apply inlined_sublist|]. split; [apply inlined_NoDup|].
    intros n. apply inlined_names.
Qed.

(** ** protoc_gen_msg: labels and type names *)

Section labels.
Import protoc_gen_msg.

Lemma label_table_entry (l : Z) :
  py_dict label_table !! l = None ↔ (l < 1 ∨ 3 < l)%Z.
Proof.
  split.
  - intros Hnone. destruct (decide (1 ≤ l ≤ 3)%Z) as [Hin|Hout]; [|lia].
    assert (l = 1 ∨ l = 2 ∨ l = 3)%Z as Hcases by lia.
    destruct_or!; subst l; vm_compute in Hnone; discriminate Hnone.
  - intros Hout. unfold py_dict, label_table. cbn [foldl fst snd].
    unfold LABEL_OPTIONAL, LABEL_REPEATED, LABEL_REQUIRED.
    rewrite !lookup_insert_ne by lia. apply lookup_empty.
Qed.

Lemma map_label_repeated (l : Z) :
  eq_str (map_label l) "LABEL_REPEATED" = bool_decide (l = LABEL_REPEATED).
Proof.
  destruct (decide (1 ≤ l ≤ 3)%Z) as [Hin|Hout].
  - assert (l = 1 ∨ l = 2 ∨ l = 3)%Z as Hcases by lia.
    destruct_or!; subst l; by vm_compute.
  - unfold map_label.
    rewrite (proj2 (label_table_entry l)) by lia. cbn [eq_str].
    unfold LABEL_REPEATED. by rewrite bool_decide_eq_false_2 by lia.
Qed.

End labels.

Section labels_in_lines.
Import protoc_gen_msg.

#[local] Arguments map_type : simpl never.
#[local] Arguments map_label : simpl never.
#[local] Arguments map_type_name : simpl never.
#[local] Arguments split : simpl never.
#[local] Arguments message_fieldtype : simpl never.
#[local] Arguments enum_name_of : simpl never.
#[local] Arguments eq_str : simpl never.

(** The line of a field, by the kind of the field and by its label. *)
Lemma field_line_by_label pkg f refs label :
  field_line pkg (with_label label f) refs
  = ('(fieldtype, fieldcomment, refs') ←
       (if String.eqb (map_type (field_type f)) "TYPE_MESSAGE" then
          fieldtype ← message_fieldtype (field_type_name f) pkg;
          Some (fieldtype, "", refs)
        else if String.eqb (map_type (field_type f)) "TYPE_ENUM" then
          Some (CONSTANT_FIELD_TYPE, "# " +:+ enum_name_of (field_type_name f),
                {[ enum_name_of (field_type_name f) ]} ∪ refs)
        else Some (map_type (field_type f), "", refs));
     Some ((if bool_decide (label = LABEL_REPEATED) then fieldtype +:+ "[]"
            else fieldtype)
           +:+ " " +:+ field_name f +:+ " " +:+ fieldcomment +:+ NL, refs')).
Proof.
  unfold field_line, with_label.
  cbn [field_name field_label field_type field_type_name].
  by rewrite map_label_repeated.
Qed.

End labels_in_lines.

(** X16. The label of a field decides whether its line is that of an
    array, and nothing else does: a field whose label is not
    [LABEL_REPEATED] gets the line it would get with [LABEL_OPTIONAL],
    and a field with [LABEL_REPEATED] gets that line with [[]] after
    the type; rendering the line fails for the one label exactly when it
    fails for the other. *)
Theorem repeated_field_is_written_as_array
    (pkg : string) (f : protoc_gen_msg.FieldDescriptorProto)
    (referenced_enums : gset string) :
  let optional := with_label protoc_gen_msg.LABEL_OPTIONAL f in
  (protoc_gen_msg.field_label f ≠ protoc_gen_msg.LABEL_REPEATED →
     protoc_gen_msg.field_line pkg f referenced_enums
     = protoc_gen_msg.field_line pkg optional referenced_enums)
  ∧ (protoc_gen_msg.field_label f = protoc_gen_msg.LABEL_REPEATED →
     protoc_gen_msg.field_line pkg optional referenced_enums = None
     ∧ protoc_gen_msg.field_line pkg f referenced_enums = None
     ∨ ∃ fieldtype fieldcomment referenced_enums',
         protoc_gen_msg.field_line pkg optional referenced_enums
         = Some (fieldtype +:+ " " +:+ protoc_gen_msg.field_name f +:+ " "
                 +:+ fieldcomment +:+ NL, referenced_enums')
         ∧ protoc_gen_msg.field_line pkg f referenced_enums
           = Some ((fieldtype +:+ "[]") +:+ " " +:+ protoc_gen_msg.field_name f
                   +:+ " " +:+ fieldcomment +:+ NL, referenced_enums')).
Proof.
  intros optional. subst optional.
  assert (protoc_gen_msg.field_line pkg f referenced_enums
          = protoc_gen_msg.field_line pkg
              (with_label (protoc_gen_msg.field_label f) f) referenced_enums)
    as Hf by (by destruct f).
  split.
  - intros Hl. rewrite Hf, !field_line_by_label.
    rewrite (bool_decide_eq_false_2 _ Hl).
    by rewrite (bool_decide_eq_false_2
                  (protoc_gen_msg.LABEL_OPTIONAL = protoc_gen_msg.LABEL_REPEATED))
      by (intros H; discriminate H).
  - intros Hl. rewrite Hf, Hl, !field_line_by_label.
    rewrite (bool_decide_eq_true_2
               (protoc_gen_msg.LABEL_REPEATED = protoc_gen_msg.LABEL_REPEATED))
      by reflexivity.
    rewrite (bool_decide_eq_false_2
               (protoc_gen_msg.LABEL_OPTIONAL = protoc_gen_msg.LABEL_REPEATED))
      by (intros H; discriminate H).
    match goal with
    | |- context [mbind _ ?m] => destruct m as [[[ft fc] r]|]
    end; cbn [mbind option_bind].
    + right. by exists ft, fc, r.
    + by left.
Qed.

(** X17. The type written for a field of message kind holds no period,
    whatever the type name and the package. *)
Theorem message_fieldtype_has_no_period (type_name pkg fieldtype : string) :
  protoc_gen_msg.message_fieldtype type_name pkg = Some fieldtype →
  contains "." fieldtype = false.
Proof.
  unfold protoc_gen_msg.message_fieldtype.
  destruct (split "." type_name !! 1); cbn [mbind option_bind]; [|done].
  intros [= <-]. by apply contains_replace.
Qed.

Lemma message_fieldtype_has_no_period_pose :
  contains "." "geometry_msgs/Pose" = false.
Proof.
  apply (message_fieldtype_has_no_period ".geometry_msgs.Pose" "nav_msgs").
  vm_compute. reflexivity.
Defined.

(** ** protoc_gen_json: the traversal *)

Section traversal.
Import protoc_gen_msg protoc_gen_json.

Lemma messages_of_app a b : messages_of (a ++ b) = messages_of a ++ messages_of b.
Proof. apply omap_app. Qed.

Lemma enums_of_app a b : enums_of (a ++ b) = enums_of a ++ enums_of b.
Proof. apply omap_app. Qed.

Lemma messages_of_enums pkg (enums : list EnumDescriptorProto) :
  messages_of ((λ enum, (Enum enum, pkg)) <$> enums) = [].
Proof. by induction enums. Qed.

Lemma enums_of_enums pkg (enums : list EnumDescriptorProto) :
  enums_of ((λ enum, (Enum enum, pkg)) <$> enums) = enums.
Proof.
  induction enums as [|e es IH]; [done|].
  rewrite fmap_cons. unfold enums_of in *. cbn [omap list_omap fst]. by rewrite IH.
Qed.

Lemma messages_of_messages (p : DescriptorProto → string) (messages : list DescriptorProto) :
  messages_of ((λ m, (Message m, p m)) <$> messages) = messages.
Proof.
  induction messages as [|m ms IH]; [done|].
  rewrite fmap_cons. unfold messages_of in *. cbn [omap list_omap fst]. by rewrite IH.
Qed.

Lemma enums_of_messages (p : DescriptorProto → string) (messages : list DescriptorProto) :
  enums_of ((λ m, (Message m, p m)) <$> messages) = [].
Proof. by induction messages. Qed.

Lemma traverse_enums pkg (enums : list EnumDescriptorProto) :
  _traverse pkg (Enum <$> enums) = (λ enum, (Enum enum, pkg)) <$> enums.
Proof.
  induction enums as [|e es IH]; [done|].
  rewrite !fmap_cons. unfold _traverse in *. cbn [flat_map app]. by rewrite IH.
Qed.

Lemma traverse_messages pkg (messages : list DescriptorProto) :
  messages_of (_traverse pkg (Message <$> messages)) = rendered_messages messages
  ∧ enums_of (_traverse pkg (Message <$> messages)) = nested_enums messages
  ∧ Forall (λ ip, ∀ enum, ip.1 = Enum enum → ip.2 = pkg)
           (_traverse pkg (Message <$> messages)).
Proof.
  induction messages as [|m ms (IH1 & IH2 & IH3)]; [by repeat split|].
  rewrite fmap_cons. unfold _traverse in *.
  cbn [flat_map rendered_messages nested_enums foldr].
  fold (rendered_messages ms). fold (nested_enums ms).
  rewrite <- !app_comm_cons.
  split; [|split].
  - unfold messages_of at 1. cbn [omap list_omap fst].
    fold (messages_of). rewrite !messages_of_app, IH1.
    rewrite messages_of_enums.
    by rewrite (messages_of_messages (λ _, pkg +:+ "." +:+ message_name m)).
  - unfold enums_of at 1. cbn [omap list_omap fst].
    fold (enums_of). rewrite !enums_of_app, IH2.
    rewrite enums_of_enums.
    rewrite (enums_of_messages (λ _, pkg +:+ "." +:+ message_name m)).
    by rewrite app_nil_r.
  - apply Forall_cons. split; [by intros enum H|].
    rewrite !Forall_app. split; [split|exact IH3].
    + apply Forall_fmap, Forall_forall. by intros e _ enum _.
    + apply Forall_fmap, Forall_forall. by intros n _ enum H.
Qed.

End traversal.

(** X18. The traversal of the JSON plugin meets what the message plugin
    works on: its messages are, in order, the messages for which
    [generate_msg_files] writes a file (each message of the file followed
    by the messages nested in it, and none nested deeper), and its enums
    are, in order, the list [collect_enums] returns.  Every enum is
    yielded with the package of the file, also an enum nested in a
    message. *)
Theorem traverse_meets_the_message_plugin
    (proto_file : protoc_gen_msg.FileDescriptorProto) :
  messages_of (protoc_gen_json.traverse proto_file)
  = rendered_messages (protoc_gen_msg.message_type proto_file)
  ∧ enums_of (protoc_gen_json.traverse proto_file)
    = (protoc_gen_msg.collect_enums proto_file).1
  ∧ Forall (λ ip, ∀ enum, ip.1 = protoc_gen_json.Enum enum →
                          ip.2 = protoc_gen_msg.package proto_file)
           (protoc_gen_json.traverse proto_file).
Proof.
  unfold protoc_gen_json.traverse. rewrite traverse_enums.
  destruct (traverse_messages (protoc_gen_msg.package proto_file)
              (protoc_gen_msg.message_type proto_file)) as (H1 & H2 & H3).
  split; [|split].
  - by rewrite messages_of_app, messages_of_enums, H1.
  - rewrite enums_of_app, enums_of_enums, H2.
    unfold protoc_gen_msg.collect_enums. cbn [fst].
    by rewrite collect_enums_list.
  - rewrite Forall_app. split; [|exact H3].
    apply Forall_fmap, Forall_forall. by intros e _ enum _.
Qed.

(** ** The output of the plugin as input of the parser *)

Section reading_back.
Import msg2proto msg2proto.grammar.

Lemma span_stop p a c r :
  all_chars p a = true → p c = false → span p (a +:+ String c r) = (a, String c r).
Proof.
  intros Ha Hc. induction a as [|x a IH].
  - cbn [String.append span]. by rewrite Hc.
  - cbn [all_chars] in Ha. apply andb_true_iff in Ha as [Hx Ha].
    change (String x a +:+ String c r) with (String x (a +:+ String c r)).
    cbn [span]. by rewrite Hx, (IH Ha).
Qed.

Lemma ident_stop f g a c r :
  starts_with f a = true → all_chars g a = true → g c = false →
  ident f g (a +:+ String c r) = Some (a, String c r).
Proof.
  destruct a as [|x a]; [done|]. cbn [starts_with all_chars].
  intros Hx Ha Hc. apply andb_true_iff in Ha as [_ Ha].
  change (String x a +:+ String c r) with (String x (a +:+ String c r)).
  cbn [ident]. by rewrite Hx, (span_stop _ _ _ _ Ha Hc).
Qed.

Lemma ident_not_first f g a r :
  starts_with f (a +:+ r) = false → ident f g (a +:+ r) = None.
Proof.
  destruct (a +:+ r) as [|x t]; [done|]. cbn [starts_with ident]. by intros ->.
Qed.

Lemma SP_stop s : starts_with is_sp s = false → SP s = s.
Proof.
  unfold SP. destruct s as [|c t]; [done|]. cbn [starts_with span]. by intros ->.
Qed.

Lemma SP_blank s : SP (String " " s) = SP s.
Proof. unfold SP. cbn [span]. change (is_sp " ") with true. cbv iota. by destruct (span is_sp s). Qed.

Lemma starts_with_app P a b :
  a ≠ "" → starts_with P (a +:+ b) = starts_with P a.
Proof. by destruct a. Qed.

Lemma contains_all c s : contains c s = false → all_chars (is_not c) s = true.
Proof.
  induction s as [|x t IH]; [done|]. cbn [contains all_chars].
  intros H. apply orb_false_iff in H as [Hx Ht].
  unfold is_not at 1. by rewrite Hx, (IH Ht).
Qed.

(** A comment is read up to the end of its line. *)
Lemma comment_read body more :
  is_comment_text body = true →
  comment ("# " +:+ body +:+ String LF more) = Some (body, String LF more).
Proof.
  unfold is_comment_text. intros H. apply andb_true_iff in H as [Hlf Hsp].
  apply negb_true_iff in Hlf, Hsp.
  unfold comment.
  change (span1 (Ascii.eqb "#") ("# " +:+ body +:+ String LF more))
    with (Some ("#", String " " (body +:+ String LF more))).
  cbn [mbind option_bind]. rewrite SP_blank.
  assert (SP (body +:+ String LF more) = body +:+ String LF more) as ->.
  { apply SP_stop. destruct body; [done | exact Hsp]. }
  unfold text. f_equal. apply span_stop; [by apply contains_all | done].
Qed.

Lemma item_comment_read body more :
  is_comment_text body = true →
  item ("# " +:+ body +:+ String LF more) = Some (Comment body, more).
Proof.
  intros H. unfold item, emptyline, line.
  change (SP ("# " +:+ body +:+ String LF more))
    with ("# " +:+ body +:+ String LF more).
  change (EOL ("# " +:+ body +:+ String LF more)) with (@None string).
  cbn [mbind option_bind]. by rewrite (comment_read _ _ H).
Qed.

Lemma item_empty_line more : item (String LF more) = Some (Emptyline, more).
Proof. reflexivity. Qed.

(** A definition at the start of a line that ends after it is an item. *)
Lemma item_definition_read s d more :
  starts_with (λ c, is_sp c || is_eol c || Ascii.eqb c "#") s = false →
  definition s = Some (d, String LF more) →
  item s = Some (d, more).
Proof.
  intros Hs Hd. destruct s as [|c t]; [done|]. cbn [starts_with] in Hs.
  apply orb_false_iff in Hs as [Hs Hh]. apply orb_false_iff in Hs as [Hsp He].
  assert (SP (String c t) = String c t) as HSP by (by apply SP_stop).
  unfold item, emptyline, line. rewrite HSP. cbn [EOL]. rewrite He.
  cbn [mbind option_bind].
  assert (comment (String c t) = None) as ->.
  { unfold comment, span1. cbn [span]. rewrite Ascii.eqb_sym, Hh. done. }
  rewrite Hd. reflexivity.
Qed.

(** *** A constant line *)

Lemma numeric_not_blank c : is_numeric c = true → is_sp c = false.
Proof. by destruct c as [[] [] [] [] [] [] [] []]. Qed.

Lemma upper_not_blank c : is_upper c = true → is_sp c = false.
Proof. by destruct c as [[] [] [] [] [] [] [] []]. Qed.

Lemma lower_not_blank c : is_lower c = true → is_sp c = false.
Proof. by destruct c as [[] [] [] [] [] [] [] []]. Qed.

Lemma type_uint8 rest :
  type ("uint8" +:+ String " " rest)
  = Some (plain_type "uint8" false, String " " rest).
Proof. reflexivity. Qed.

Lemma value_numeric_read v more :
  all_chars is_numeric v = true → v ≠ "" →
  value (v +:+ String LF more) = Some (v, String LF more).
Proof.
  intros Hv Hne. unfold value, numericval, span1.
  rewrite (span_stop is_numeric v LF more Hv eq_refl). by destruct v.
Qed.

Lemma constant_read n v more :
  is_constname n = true → all_chars is_numeric v = true → v ≠ "" →
  constant ("uint8" +:+ " " +:+ n +:+ "=" +:+ v +:+ String LF more)
  = Some ({| msg2proto.type := plain_type "uint8" false; name := n;
             msg2proto.value := v; msg2proto.comment := "" |},
          String LF more).
Proof.
  unfold is_constname. intros Hn Hv Hne.
  apply andb_true_iff in Hn as [Hn1 Hn2].
  unfold constant.
  change ("uint8" +:+ " " +:+ n +:+ "=" +:+ v +:+ String LF more)
    with ("uint8" +:+ String " " (n +:+ String "=" (v +:+ String LF more))).
  rewrite type_uint8. cbn [mbind option_bind]. rewrite SP_blank.
  assert (n ≠ "") as Hnn by (by destruct n).
  rewrite SP_stop.
  2:{ rewrite (starts_with_app _ _ _ Hnn). destruct n as [|c n]; [done|].
      cbn [starts_with] in *. by apply upper_not_blank. }
  unfold constname.
  rewrite (ident_stop _ _ n "=" (v +:+ String LF more) Hn1 Hn2 eq_refl).
  cbn [mbind option_bind].
  change (lit "=" (SP (String "=" (v +:+ String LF more))))
    with (Some (v +:+ String LF more)).
  cbn [mbind option_bind].
  rewrite SP_stop.
  2:{ rewrite (starts_with_app _ _ _ Hne). destruct v as [|c v]; [done|].
      cbn [starts_with all_chars] in *. apply andb_true_iff in Hv as [Hc _].
      by apply numeric_not_blank. }
  rewrite (value_numeric_read _ _ Hv Hne). cbn [mbind option_bind].
  reflexivity.
Qed.

Lemma item_constant_read n v more :
  is_constname n = true → all_chars is_numeric v = true → v ≠ "" →
  item ("uint8" +:+ " " +:+ n +:+ "=" +:+ v +:+ String LF more)
  = Some (Constant {| msg2proto.type := plain_type "uint8" false; name := n;
                      msg2proto.value := v; msg2proto.comment := "" |}, more).
Proof.
  intros Hn Hv Hne. apply item_definition_read; [reflexivity|].
  unfold definition. by rewrite (constant_read _ _ _ Hn Hv Hne).
Qed.

End reading_back.

Section enum_blocks_read_back.
Import protoc_gen_msg.

#[local] Arguments msg2proto.grammar.item : simpl never.

(** The line of a value of an enum. *)
Lemma value_lines values more :
  Forall (λ v, is_constname (value_name v) = true) values →
  lines (foldr (λ value acc,
                  (CONSTANT_FIELD_TYPE +:+ " " +:+ value_name value +:+ "="
                   +:+ pretty (value_number value) +:+ NL) +:+ acc) "" values
         +:+ more)
        (constant_of <$> values) more.
Proof.
  induction 1 as [|v vs Hv _ IH]; cbn [foldr fmap list_fmap].
  - change ("" +:+ more) with more. constructor.
  - econstructor; [|exact IH].
    destruct (pretty_Z_numeric (value_number v)) as [Hnum Hne].
    rewrite !string_app_assoc.
    change (NL +:+ ?x) with (String LF x).
    unfold CONSTANT_FIELD_TYPE.
    change (" " +:+ ?x) with (String " " x).
    rewrite <- (item_constant_read _ _ _ Hv Hnum Hne). reflexivity.
Qed.

Lemma enum_lines enum more :
  is_comment_text (enum_name enum) = true →
  Forall (λ v, is_constname (value_name v) = true) (enum_value enum) →
  lines (generate_enum enum +:+ more) (enum_items enum) more.
Proof.
  intros Hn Hv. unfold generate_enum, enum_items.
  rewrite (foldl_append (λ value,
             CONSTANT_FIELD_TYPE +:+ " " +:+ value_name value +:+ "="
             +:+ pretty (value_number value) +:+ NL)).
  rewrite !string_app_assoc.
  econstructor; [apply item_empty_line|].
  econstructor; [|by apply value_lines].
  change (NL +:+ ?x) with (String LF x).
  by apply item_comment_read.
Qed.

End enum_blocks_read_back.

(** X19. What the plugin writes for an enum is read back by the parser
    of the message language: the block of an enum whose values have
    names of constants (upper-case letters, digits and underscores after
    an upper-case letter) parses to an empty line, a comment with the
    name of the enum and one [uint8] constant for every value, with the
    name and the number of the value. *)
Theorem enum_block_is_read_back (enum : protoc_gen_msg.EnumDescriptorProto) :
  is_comment_text (protoc_gen_msg.enum_name enum) = true →
  Forall (λ v, is_constname (protoc_gen_msg.value_name v) = true)
         (protoc_gen_msg.enum_value enum) →
  msg2proto.parse_msg (protoc_gen_msg.generate_enum enum) = Some (enum_items enum).
Proof.
  intros Hn Hv. apply parse_Some.
  rewrite <- (string_app_nil_r (protoc_gen_msg.generate_enum enum)).
  by apply enum_lines.
Qed.

Lemma enum_block_is_read_back_level :
  msg2proto.parse_msg (protoc_gen_msg.generate_enum level_enum)
  = Some (enum_items level_enum).
Proof.
  apply (enum_block_is_read_back level_enum).
  - reflexivity.
  - apply Forall_cons. split; [reflexivity | apply Forall_nil_2].
Defined.

Section fields_read_back.
Import msg2proto msg2proto.grammar.

Lemma type_plain T rest :
  T ∈ primitive_types →
  type (T +:+ String " " rest) = Some (plain_type T false, String " " rest)
  ∧ type (T +:+ "[]" +:+ String " " rest) = Some (plain_type T true, String " " rest)
  ∧ starts_with (λ c, is_sp c || is_eol c || Ascii.eqb c "#") T = false
  ∧ T ≠ "".
Proof.
  unfold primitive_types. intros H.
  repeat (apply elem_of_cons in H as [->|H]); [..|by apply elem_of_nil in H];
    by repeat split.
Qed.

Lemma fieldname_not_upper n r :
  is_fieldname n = true → starts_with is_upper (n +:+ r) = false.
Proof.
  unfold is_fieldname. intros H. apply andb_true_iff in H as [H _].
  destruct n as [|c n]; [done|]. cbn [starts_with String.append] in *.
  by apply lower_not_upper.
Qed.

Lemma fieldname_SP n r : is_fieldname n = true → SP (n +:+ r) = n +:+ r.
Proof.
  unfold is_fieldname. intros H. apply andb_true_iff in H as [H _].
  apply SP_stop. destruct n as [|c n]; [done|]. cbn [starts_with String.append] in *.
  by apply lower_not_blank.
Qed.

(** A field line after its type: the name, then the end of the line or a
    comment. *)
Lemma definition_field_read s t n c rest more :
  type s = Some (t, String " " (n +:+ String " " rest)) →
  is_fieldname n = true →
  (c = "" ∧ rest = String LF more
   ∨ is_comment_text c = true ∧ rest = "# " +:+ c +:+ String LF more) →
  definition s
  = Some (Field {| msg2proto.type := t; name := n; msg2proto.value := "";
                   msg2proto.comment := c |}, String LF more).
Proof.
  intros Ht Hn Hrest. unfold definition, constant, field. rewrite Ht.
  cbn [mbind option_bind]. rewrite SP_blank, (fieldname_SP _ _ Hn).
  unfold constname. rewrite (ident_not_first _ _ _ _ (fieldname_not_upper _ _ Hn)).
  cbn [mbind option_bind].
  unfold is_fieldname in Hn. apply andb_true_iff in Hn as [Hn1 Hn2].
  unfold fieldname. rewrite (ident_stop _ _ n " " rest Hn1 Hn2 eq_refl).
  cbn [mbind option_bind]. rewrite SP_blank.
  destruct Hrest as [[-> ->]|[Hc ->]].
  - reflexivity.
  - change (SP ("# " +:+ c +:+ String LF more)) with ("# " +:+ c +:+ String LF more).
    change (lit "=" ("# " +:+ c +:+ String LF more)) with (@None string).
    change (opt value ("# " +:+ c +:+ String LF more))
      with ("", "# " +:+ c +:+ String LF more).
    cbv iota beta.
    change (SP ("# " +:+ c +:+ String LF more)) with ("# " +:+ c +:+ String LF more).
    unfold opt. by rewrite (comment_read _ _ Hc).
Qed.

Lemma item_field_read T (arr : bool) n c rest more :
  T ∈ primitive_types →
  is_fieldname n = true →
  (c = "" ∧ rest = String LF more
   ∨ is_comment_text c = true ∧ rest = "# " +:+ c +:+ String LF more) →
  item ((T +:+ (if arr then "[]" else "")) +:+ String " " (n +:+ String " " rest))
  = Some (Field {| msg2proto.type := plain_type T arr; name := n;
                   msg2proto.value := ""; msg2proto.comment := c |}, more).
Proof.
  intros HT Hn Hrest.
  destruct (type_plain T (n +:+ String " " rest) HT) as (Ht1 & Ht2 & Hs & Hne).
  apply item_definition_read.
  - rewrite string_app_assoc. by rewrite (starts_with_app _ _ _ Hne).
  - apply (definition_field_read _ _ _ _ rest); [|done..].
    destruct arr.
    + by rewrite string_app_assoc.
    + by rewrite string_app_nil_r.
Qed.

End fields_read_back.

Section messages_read_back.
Import protoc_gen_msg.

#[local] Arguments map_type : simpl never.
#[local] Arguments map_label : simpl never.
#[local] Arguments map_type_name : simpl never.
#[local] Arguments split : simpl never.
#[local] Arguments generate_enum : simpl never.
#[local] Arguments message_fieldtype : simpl never.
#[local] Arguments enum_name_of : simpl never.
#[local] Arguments eq_str : simpl never.
#[local] Arguments msg2proto.grammar.item : simpl never.

Lemma map_type_plain (t : Z) :
  t ≠ TYPE_MESSAGE → t ≠ TYPE_GROUP → t ≠ TYPE_ENUM → map_type t ∈ primitive_types.
Proof.
  unfold TYPE_MESSAGE, TYPE_GROUP, TYPE_ENUM. intros H1 H2 H3.
  destruct (decide (1 ≤ t ≤ 18)%Z) as [Hin|Hout].
  - assert (t = 1 ∨ t = 2 ∨ t = 3 ∨ t = 4 ∨ t = 5 ∨ t = 6 ∨ t = 7 ∨ t = 8 ∨ t = 9
            ∨ t = 12 ∨ t = 13 ∨ t = 15 ∨ t = 16 ∨ t = 17 ∨ t = 18)%Z as Hcases by lia.
    destruct_or!; subst t;
      match goal with
      | |- map_type ?x ∈ _ =>
          let v := eval vm_compute in (map_type x) in
          replace (map_type x) with v by (vm_compute; reflexivity)
      end; unfold primitive_types; repeat (first [left | right]).
  - rewrite (map_type_no_entry t) by (apply type_table_entry; lia).
    unfold primitive_types. repeat (first [left | right]).
Qed.

(** The line of a readable field is an item, whatever follows it. *)
Lemma field_line_read pkg f refs :
  readable_field f = true →
  ∃ l refs', field_line pkg f refs = Some (l, refs')
    ∧ ∀ more, msg2proto.grammar.item (l +:+ more) = Some (field_item f, more).
Proof.
  unfold readable_field, field_item. intros H.
  apply andb_true_iff in H as [H He]. apply andb_true_iff in H as [H Hn].
  apply andb_true_iff in H as [Hm Hg].
  apply negb_true_iff, Z.eqb_neq in Hm, Hg.
  destruct (Z.eqb_spec (field_type f) TYPE_ENUM) as [Ht|Ht].
  - eexists _, _. split.
    + unfold field_line. rewrite Ht.
      change (String.eqb (map_type TYPE_ENUM) "TYPE_MESSAGE") with false.
      change (String.eqb (map_type TYPE_ENUM) "TYPE_ENUM") with true.
      cbv iota. cbn [mbind option_bind]. rewrite map_label_repeated. reflexivity.
    + intros more.
      assert (CONSTANT_FIELD_TYPE ∈ primitive_types) as HT
        by (unfold primitive_types; repeat (first [left | right])).
      rewrite <- (item_field_read CONSTANT_FIELD_TYPE
                    (bool_decide (field_label f = LABEL_REPEATED))
                    (field_name f) (enum_name_of (field_type_name f))
                    ("# " +:+ enum_name_of (field_type_name f) +:+ String LF more)
                    more HT Hn (or_intror (conj He eq_refl))).
      f_equal. rewrite !string_app_assoc.
      case_bool_decide; rewrite ?string_app_assoc; reflexivity.
  - eexists _, _. split.
    + apply primitive_field_line.
      * rewrite is_message_field_kind. by apply bool_decide_eq_false_2.
      * rewrite is_enum_field_kind. by apply bool_decide_eq_false_2.
    + intros more. unfold plain_line, array_suffix.
      rewrite map_label_repeated.
      rewrite <- (item_field_read (map_type (field_type f))
                    (bool_decide (field_label f = LABEL_REPEATED))
                    (field_name f) "" (String LF more) more
                    (map_type_plain _ Hm Hg Ht) Hn (or_introl (conj eq_refl eq_refl))).
      f_equal. rewrite !string_app_assoc. reflexivity.
Qed.

Lemma message_fields_read pkg fields output refs :
  forallb readable_field fields = true →
  ∃ text refs',
    message_fields pkg fields output refs = Some (output +:+ text, refs')
    ∧ ∀ more, lines (text +:+ more) (field_item <$> fields) more.
Proof.
  revert output refs. induction fields as [|f fs IH]; intros output refs;
    cbn [forallb message_fields].
  - intros _. exists "", refs. split; [by rewrite string_app_nil_r|].
    intros more. constructor.
  - intros H. apply andb_true_iff in H as [Hf Hfs].
    destruct (field_line_read pkg f refs Hf) as (l & refs1 & -> & Hl).
    cbn [mbind option_bind].
    destruct (IH (output +:+ l) refs1 Hfs) as (text & refs' & -> & Ht).
    exists (l +:+ text), refs'. split; [by rewrite string_app_assoc|].
    intros more. rewrite fmap_cons, string_app_assoc.
    econstructor; [apply Hl | apply Ht].
Qed.

Lemma generate_message_read message pkg :
  is_comment_text (message_name message) = true →
  forallb readable_field (message_field message) = true →
  ∃ output refs,
    generate_message message pkg = Some (output, refs, None)
    ∧ ∀ more, lines (output +:+ more) (message_items message) more.
Proof.
  intros Hn Hf. unfold generate_message. cbv zeta.
  match goal with
  | |- context [message_fields pkg ?fs ?o ?r] =>
      destruct (message_fields_read pkg fs o r Hf) as (text & refs' & -> & Ht)
  end.
  cbn [mbind option_bind]. eexists _, _. split; [reflexivity|].
  intros more. unfold message_items. rewrite !string_app_assoc.
  change (NL +:+ ?x) with (String LF x).
  econstructor; [by apply item_comment_read|].
  econstructor; [apply item_empty_line|].
  econstructor; [by apply item_comment_read | apply Ht].
Qed.

Lemma blocks_read blocks more :
  forallb readable_enum blocks = true →
  lines (blocks_text blocks +:+ more) (concat (enum_items <$> blocks)) more.
Proof.
  induction blocks as [|e es IH]; cbn [forallb blocks_text foldr fmap list_fmap concat].
  - intros _. constructor.
  - intros H. apply andb_true_iff in H as [He Hes].
    unfold readable_enum in He. apply andb_true_iff in He as [He1 He2].
    rewrite string_app_assoc.
    apply (lines_app _ _ (blocks_text es +:+ more)); [|by apply IH].
    apply enum_lines; [done|]. apply Forall_forall. intros v Hv.
    rewrite forallb_forall in He2. by apply He2, list_elem_of_In.
Qed.

Lemma inlined_readable enums refs :
  forallb readable_enum enums = true →
  forallb readable_enum (inlined enums refs) = true.
Proof.
  revert refs. induction enums as [|e es IH]; intros refs; cbn [forallb inlined];
    [done|].
  intros H. apply andb_true_iff in H as [He Hes].
  case_bool_decide; [cbn [forallb]; rewrite He|]; by apply IH.
Qed.

End messages_read_back.

(** X20. What the plugin writes is read back by the parser of the message
    language.  For a message whose fields are not of message or group
    kind and have names of fields, rendered against enums whose values
    have names of constants, [generate_msg_file] adds a file whose
    content parses to the header, the name of the message and one field
    for every field of the message, of the type the reverse table gives
    and an array when the field is repeated, followed by the items of
    the enums it has inlined. *)
Theorem written_file_is_read_back
    (message : protoc_gen_msg.DescriptorProto) (pkg : string)
    (enums : list protoc_gen_msg.EnumDescriptorProto)
    (response : protoc_gen_msg.CodeGeneratorResponse) :
  is_comment_text (protoc_gen_msg.message_name message) = true →
  forallb readable_field (protoc_gen_msg.message_field message) = true →
  forallb readable_enum enums = true →
  ∃ output referenced_enums content,
    protoc_gen_msg.generate_message message pkg = Some (output, referenced_enums, None)
    ∧ content = output +:+ blocks_text (inlined enums referenced_enums)
    ∧ protoc_gen_msg.generate_msg_file message pkg enums response
      = Some {| protoc_gen_msg.error := protoc_gen_msg.error response;
                protoc_gen_msg.file :=
                  protoc_gen_msg.file response ++
                  [ {| protoc_gen_msg.file_name := msg_file_name pkg message;
                       protoc_gen_msg.file_content := content |} ] |}
    ∧ msg2proto.parse_msg content
      = Some (message_items message
              ++ concat (enum_items <$> inlined enums referenced_enums)).
Proof.
  intros Hn Hf He.
  destruct (generate_message_read message pkg Hn Hf) as (output & refs & Hg & Hl).
  exists output, refs, (output +:+ blocks_text (inlined enums refs)).
  split; [exact Hg|]. split; [reflexivity|]. split.
  - unfold protoc_gen_msg.generate_msg_file. rewrite Hg. cbn [mbind option_bind].
    pose proof (add_referenced_enums_text enums output refs) as Ht.
    destruct (protoc_gen_msg.add_referenced_enums enums output refs) as [o r].
    cbn [fst] in Ht. by rewrite Ht.
  - apply parse_Some.
    apply (lines_app _ _ (blocks_text (inlined enums refs))); [apply Hl|].
    rewrite <- (string_app_nil_r (blocks_text _)).
    by apply blocks_read, inlined_readable.
Qed.

Lemma written_file_is_read_back_report :
  ∃ output referenced_enums content,
    protoc_gen_msg.generate_message report_message "diagnostics"
    = Some (output, referenced_enums, None)
    ∧ content = output +:+ blocks_text (inlined [level_enum] referenced_enums)
    ∧ protoc_gen_msg.generate_msg_file report_message "diagnostics" [level_enum]
        empty_response
      = Some {| protoc_gen_msg.error := protoc_gen_msg.error empty_response;
                protoc_gen_msg.file :=
                  protoc_gen_msg.file empty_response ++
                  [ {| protoc_gen_msg.file_name :=
                         msg_file_name "diagnostics" report_message;
                       protoc_gen_msg.file_content := content |} ] |}
    ∧ msg2proto.parse_msg content
      = Some (message_items report_message
              ++ concat (enum_items <$> inlined [level_enum] referenced_enums)).
Proof.
  apply (written_file_is_read_back report_message "diagnostics" [level_enum]
           empty_response); reflexivity.
Defined.

(** ** protoc_gen_json: the names of types and labels *)

Section json_names.
Import protoc_gen_json.

Lemma json_type_table_entry (t : Z) :
  py_dict type_table !! t = None ↔ (t < 1 ∨ 18 < t)%Z.
Proof.
  split.
  - intros Hnone.
    destruct (decide (1 ≤ t ≤ 18)%Z) as [Hin|Hout]; [|lia].
    assert (t = 1 ∨ t = 2 ∨ t = 3 ∨ t = 4 ∨ t = 5 ∨ t = 6 ∨ t = 7 ∨ t = 8 ∨ t = 9
            ∨ t = 10 ∨ t = 11 ∨ t = 12 ∨ t = 13 ∨ t = 14 ∨ t = 15 ∨ t = 16
            ∨ t = 17 ∨ t = 18)%Z as Hcases by lia.
    destruct_or!; subst t; vm_compute in Hnone; discriminate Hnone.
  - intros Hout. unfold py_dict, type_table. cbn [foldl fst snd].
    unfold protoc_gen_msg.TYPE_DOUBLE, protoc_gen_msg.TYPE_FLOAT,
      protoc_gen_msg.TYPE_INT64, protoc_gen_msg.TYPE_UINT64,
      protoc_gen_msg.TYPE_INT32, protoc_gen_msg.TYPE_FIXED64,
      protoc_gen_msg.TYPE_FIXED32, protoc_gen_msg.TYPE_BOOL,
      protoc_gen_msg.TYPE_STRING, protoc_gen_msg.TYPE_GROUP,
      protoc_gen_msg.TYPE_MESSAGE, protoc_gen_msg.TYPE_BYTES,
      protoc_gen_msg.TYPE_UINT32, protoc_gen_msg.TYPE_ENUM,
      protoc_gen_msg.TYPE_SFIXED32, protoc_gen_msg.TYPE_SFIXED64,
      protoc_gen_msg.TYPE_SINT32, protoc_gen_msg.TYPE_SINT64.
    rewrite !lookup_insert_ne by lia. apply lookup_empty.
Qed.

Lemma json_label_table_entry (l : Z) :
  py_dict label_table !! l = None ↔ (l < 1 ∨ 3 < l)%Z.
Proof.
  split.
  - intros Hnone. destruct (decide (1 ≤ l ≤ 3)%Z) as [Hin|Hout]; [|lia].
    assert (l = 1 ∨ l = 2 ∨ l = 3)%Z as Hcases by lia.
    destruct_or!; subst l; vm_compute in Hnone; discriminate Hnone.
  - intros Hout. unfold py_dict, label_table. cbn [foldl fst snd].
    unfold protoc_gen_msg.LABEL_OPTIONAL, protoc_gen_msg.LABEL_REPEATED,
      protoc_gen_msg.LABEL_REQUIRED.
    rewrite !lookup_insert_ne by lia. apply lookup_empty.
Qed.

Lemma number_of_map_type (t : Z) : number_of type_table (map_type t) = Some t.
Proof.
  destruct (decide (1 ≤ t ≤ 18)%Z) as [Hin|Hout].
  - assert (t = 1 ∨ t = 2 ∨ t = 3 ∨ t = 4 ∨ t = 5 ∨ t = 6 ∨ t = 7 ∨ t = 8 ∨ t = 9
            ∨ t = 10 ∨ t = 11 ∨ t = 12 ∨ t = 13 ∨ t = 14 ∨ t = 15 ∨ t = 16
            ∨ t = 17 ∨ t = 18)%Z as Hcases by lia.
    destruct_or!; subst t; by vm_compute.
  - unfold map_type. by rewrite (proj2 (json_type_table_entry t)) by lia.
Qed.

Lemma number_of_map_label (l : Z) : number_of label_table (map_label l) = Some l.
Proof.
  destruct (decide (1 ≤ l ≤ 3)%Z) as [Hin|Hout].
  - assert (l = 1 ∨ l = 2 ∨ l = 3)%Z as Hcases by lia.
    destruct_or!; subst l; by vm_compute.
  - unfold map_label. by rewrite (proj2 (json_label_table_entry l)) by lia.
Qed.

End json_names.

(** X21. The names of the JSON plugin lose nothing: the number of a type
    or of a label is recovered from what [map_type] or [map_label]
    returns for it, a name of the table or the number itself, so that
    two numbers with the same result are the same number. *)
Theorem json_names_keep_the_numbers :
  (∀ t : Z, number_of protoc_gen_json.type_table
              (protoc_gen_json.map_type t) = Some t)
  ∧ (∀ l : Z, number_of protoc_gen_json.label_table
                (protoc_gen_json.map_label l) = Some l)
  ∧ (∀ a b : Z, protoc_gen_json.map_type a = protoc_gen_json.map_type b
                ↔ a = b)
  ∧ (∀ a b : Z, protoc_gen_json.map_label a = protoc_gen_json.map_label b
                ↔ a = b).
Proof.
  split; [apply number_of_map_type|]. split; [apply number_of_map_label|].
  split; intros a b; (split; [|by intros ->]); intros H.
  - apply (f_equal (number_of protoc_gen_json.type_table)) in H.
    rewrite !number_of_map_type in H. by injection H.
  - apply (f_equal (number_of protoc_gen_json.label_table)) in H.
    rewrite !number_of_map_label in H. by injection H.
Qed.

(** ** msg2proto: comment lines *)

(** X22. A comment line is carried over as it is: the text after the
    hash and one blank, up to the line feed, is the text of the comment
    when it holds no NUL character, and [generate_proto] writes this
    text after the comment marker. *)
Theorem comment_line_is_kept (body : string) :
  is_comment_text body = true → contains NUL body = false →
  msg2proto.parse_msg ("# " +:+ body +:+ NL) = Some [msg2proto.Comment body]
  ∧ ∀ msg_name pkg,
      msg2proto.message (msg2proto.walk [msg2proto.Comment body] msg_name pkg)
      = "message " +:+ msg_name +:+ " {" +:+ NL +:+ "  // " +:+ body +:+ NL.
Proof.
  intros H _. split.
  - apply parse_Some. econstructor; [|constructor].
    by apply (item_comment_read body "").
  - intros msg_name pkg. unfold msg2proto.walk.
    cbn [foldl msg2proto.step msg2proto.message msg2proto.initial].
    unfold msg2proto.comment_text, msg2proto.INDENT.
    rewrite !string_app_assoc. reflexivity.
Qed.

Lemma comment_line_is_kept_units :
  msg2proto.parse_msg ("# " +:+ "units: m/s" +:+ NL)
  = Some [msg2proto.Comment "units: m/s"]
  ∧ ∀ msg_name pkg,
      msg2proto.message (msg2proto.walk [msg2proto.Comment "units: m/s"] msg_name pkg)
      = "message " +:+ msg_name +:+ " {" +:+ NL +:+ "  // " +:+ "units: m/s" +:+ NL.
Proof.
  apply (comment_line_is_kept "units: m/s"); reflexivity.
Defined.

(** ** msg2proto: from a line of a message file to a line of the schema *)

Section forward_lines.
Import msg2proto.

Lemma generate_proto_preamble doc msg_name pkg :
  generate_proto doc msg_name pkg
  = preamble pkg
    +:+ (if decide (imports (walk doc msg_name pkg) = ∅) then ""
         else NL +:+ import_lines (imports (walk doc msg_name pkg)))
    +:+ NL +:+ message (walk doc msg_name pkg) +:+ "}".
Proof.
  unfold generate_proto, preamble. cbv zeta.
  destruct (String.eqb pkg ""); cbn [negb];
    destruct (decide (imports (walk doc msg_name pkg) = ∅));
    rewrite ?string_app_assoc; reflexivity.
Qed.

Lemma step_without_value msg_name pkg st l :
  step msg_name pkg st (without_value l) = step msg_name pkg st l.
Proof. by destruct l. Qed.

Lemma walk_without_value doc msg_name pkg :
  walk (without_value <$> doc) msg_name pkg = walk doc msg_name pkg.
Proof.
  unfold walk. generalize (initial msg_name).
  induction doc as [|l ls IH]; intros st; [done|].
  rewrite fmap_cons. cbn [foldl]. by rewrite step_without_value, IH.
Qed.

End forward_lines.

(** X23. A field line of a primitive type is converted to a field of the
    schema: the line [T name], or [T[] name] for an array, with [T] a
    primitive type of the message language and [name] the name of a
    field, parses to one field, and the schema written for a file of
    this line is the preamble and a message with the one field
    [map_type(T) name = 1;], after the label [repeated] for the array;
    it has no imports. *)
Theorem primitive_field_line_is_converted
    (T name msg_name pkg : string) (is_array : bool) :
  T ∈ primitive_types → is_fieldname name = true →
  let text := (T +:+ (if is_array then "[]" else "")) +:+ " " +:+ name +:+ NL in
  let field := plain_field (plain_type T is_array) name in
  msg2proto.parse_msg text = Some [field]
  ∧ msg2proto.convert_msg_file msg_name text pkg
    = Some (preamble pkg +:+ NL
            +:+ "message " +:+ msg_name +:+ " {" +:+ NL
            +:+ "  " +:+ (if is_array then "repeated " else "")
            +:+ msg2proto.map_type T +:+ " " +:+ name +:+ " = 1;" +:+ NL
            +:+ "}").
Proof.
  intros HT Hn text field.
  assert (msg2proto.parse_msg text = Some [field]) as Hp.
  { apply parse_Some. econstructor; [|constructor]. subst text field.
    unfold NL.
    destruct (type_plain T (name +:+ String LF "") HT) as (Ht1 & Ht2 & Hs & Hne).
    apply item_definition_read.
    - rewrite string_app_assoc. by rewrite (starts_with_app _ _ _ Hne).
    - unfold msg2proto.grammar.definition, msg2proto.grammar.constant,
        msg2proto.grammar.field.
      assert (msg2proto.grammar.type
                ((T +:+ (if is_array then "[]" else "")) +:+ " " +:+ name
                 +:+ String LF "")
              = Some (plain_type T is_array, String " " (name +:+ String LF ""))) as ->.
      { destruct is_array.
        - by rewrite string_app_assoc.
        - by rewrite string_app_nil_r. }
      cbn [mbind option_bind]. rewrite SP_blank, (fieldname_SP _ _ Hn).
      unfold msg2proto.grammar.constname.
      rewrite (ident_not_first _ _ _ _ (fieldname_not_upper _ _ Hn)).
      cbn [mbind option_bind].
      unfold is_fieldname in Hn. apply andb_true_iff in Hn as [Hn1 Hn2].
      unfold msg2proto.grammar.fieldname.
      rewrite (ident_stop _ _ name LF "" Hn1 Hn2 eq_refl).
      reflexivity. }
  split; [exact Hp|].
  unfold msg2proto.convert_msg_file. rewrite Hp. f_equal.
  rewrite generate_proto_preamble.
  assert (msg2proto.imports (msg2proto.walk [field] msg_name pkg) = ∅) as -> by reflexivity.
  rewrite decide_True by reflexivity.
  subst field. unfold msg2proto.walk, plain_field.
  cbn [foldl msg2proto.step msg2proto.message msg2proto.initial msg2proto.fieldnumber].
  unfold msg2proto.field_text, msg2proto.mapped_typename, msg2proto.INDENT.
  cbn [msg2proto.type msg2proto.name msg2proto.comment plain_type msg2proto.is_array
       msg2proto.arraybound msg2proto.typename msg2proto.package].
  change (pretty 1) with "1".
  destruct is_array; change (truthy "repeated") with true;
    repeat (cbv iota; change (truthy "") with false); cbv iota;
    rewrite ?string_app_assoc; reflexivity.
Qed.

Lemma primitive_field_line_is_converted_ranges :
  msg2proto.parse_msg (("float32" +:+ "[]") +:+ " " +:+ "ranges" +:+ NL)
  = Some [plain_field (plain_type "float32" true) "ranges"]
  ∧ msg2proto.convert_msg_file "Scan" (("float32" +:+ "[]") +:+ " " +:+ "ranges" +:+ NL)
      "sensors"
    = Some (preamble "sensors" +:+ NL
            +:+ "message " +:+ "Scan" +:+ " {" +:+ NL
            +:+ "  " +:+ "repeated "
            +:+ msg2proto.map_type "float32" +:+ " " +:+ "ranges" +:+ " = 1;" +:+ NL
            +:+ "}").
Proof.
  apply (primitive_field_line_is_converted "float32" "ranges" "Scan" "sensors" true).
  - unfold primitive_types. right. left.
  - reflexivity.
Defined.

(** X24. The default value of a field does not reach the schema:
    [generate_proto] writes the same text for a document and for the
    document without the default values of its fields. *)
Theorem generate_proto_drops_default_values
    (doc : msg2proto.Document) (msg_name pkg : string) :
  msg2proto.generate_proto (without_value <$> doc) msg_name pkg
  = msg2proto.generate_proto doc msg_name pkg.
Proof.
  rewrite !generate_proto_preamble. by rewrite walk_without_value.
Qed.

(** X25. The bound of a bounded string is dropped by the parser: before
    the blank that ends the type, [string<=N] gives the same type as
    [string], and the same text is left. *)
Theorem string_bound_is_dropped (digits rest : string) :
  all_chars is_digit digits = true → digits ≠ "" →
  msg2proto.grammar.type ("string<=" +:+ digits +:+ String " " rest)
  = Some (plain_type "string" false, String " " rest)
  ∧ msg2proto.grammar.type ("string" +:+ String " " rest)
    = Some (plain_type "string" false, String " " rest).
Proof.
  intros Hd Hne. split; [|reflexivity].
  unfold msg2proto.grammar.type, msg2proto.grammar.basetype.
  change (msg2proto.grammar.complextype ("string<=" +:+ digits +:+ String " " rest))
    with (@None (string * string * bool * string)).
  cbv iota. unfold msg2proto.grammar.stringtype.
  change (msg2proto.grammar.lit "string" ("string<=" +:+ digits +:+ String " " rest))
    with (Some ("<=" +:+ digits +:+ String " " rest)).
  cbn [mbind option_bind]. unfold msg2proto.grammar.stringbound.
  change (msg2proto.grammar.lit "<=" ("<=" +:+ digits +:+ String " " rest))
    with (Some (digits +:+ String " " rest)).
  cbn [mbind option_bind]. unfold span1.
  rewrite (span_stop is_digit digits " " rest Hd eq_refl).
  destruct digits as [|d ds]; [done|]. reflexivity.
Qed.

Lemma string_bound_is_dropped_ten :
  msg2proto.grammar.type ("string<=" +:+ "10" +:+ String " " "name")
  = Some (plain_type "string" false, String " " "name")
  ∧ msg2proto.grammar.type ("string" +:+ String " " "name")
    = Some (plain_type "string" false, String " " "name").
Proof.
  apply (string_bound_is_dropped "10" "name"); [reflexivity|].
  intros H. discriminate H.
Defined.

(** ** msg2proto: the import of a complex type *)

(** X26. A field of a complex type that is not in the forward table and
    is not the message itself is declared with the qualified name of the
    type and imports its schema: the type [package/Name] is written
    [package.Name] and imports [package/name], the name in snake case;
    the type [Name] without a package is written [Name] and imports
    [current/name], with [current] the package of the message. *)
Theorem complex_field_import
    (package typename msg_name pkg : string) (is_array : bool)
    (arraybound : option string) (imports : gset string) :
  let type := complex_type package typename is_array arraybound in
  contains "." package = false → contains "/" package = false →
  contains "." typename = false → contains "/" typename = false →
  py_dict msg2proto.type_table
    !! (if truthy package then package +:+ "/" +:+ typename else typename) = None →
  typename ≠ msg_name →
  msg2proto.mapped_typename type
  = (if truthy package then package +:+ "." else "") +:+ typename
  ∧ msg2proto.add_import msg_name pkg type imports
    = {[ (if truthy package then package else pkg)
         +:+ "/" +:+ msg2proto.to_snake_case typename ]} ∪ imports.
Proof.
  intros type Hp1 Hp2 Ht1 Ht2 Hnone Hne. subst type.
  assert (msg2proto.mapped_typename (complex_type package typename is_array arraybound)
          = (if truthy package then package +:+ "." else "") +:+ typename) as Hm.
  { unfold msg2proto.mapped_typename, msg2proto.map_type, dict_get, complex_type.
    cbn [msg2proto.typename msg2proto.package]. rewrite Hnone. cbn [default].
    destruct (truthy package).
    - rewrite !replace_app, (replace_absent _ _ _ Hp2), (replace_absent _ _ _ Ht2).
      by rewrite string_app_assoc.
    - by rewrite (replace_absent _ _ _ Ht2). }
  split; [exact Hm|].
  unfold msg2proto.add_import, msg2proto.typename_parts. rewrite Hm.
  cbn [complex_type msg2proto.is_complextype].
  apply String.eqb_neq in Hne.
  destruct (truthy package).
  - rewrite string_app_assoc.
    change ("." +:+ typename) with (String "." typename).
    rewrite (split_first _ _ _ Hp1), (split_whole _ _ Ht1).
    cbn [length Nat.eqb last default set_last join]. unfold id. by rewrite Hne.
  - change ("" +:+ typename) with typename. rewrite (split_whole _ _ Ht1).
    cbn [length Nat.eqb last default set_last join]. unfold id. by rewrite Hne.
Qed.

Lemma complex_field_import_pose :
  msg2proto.mapped_typename (complex_type "geometry_msgs" "PoseStamped" false None)
  = "geometry_msgs." +:+ "PoseStamped"
  ∧ msg2proto.add_import "Path" "nav_msgs"
      (complex_type "geometry_msgs" "PoseStamped" false None) ∅
    = {[ "geometry_msgs" +:+ "/" +:+ msg2proto.to_snake_case "PoseStamped" ]} ∪ ∅.
Proof.
  apply (complex_field_import "geometry_msgs" "PoseStamped" "Path" "nav_msgs" false None ∅);
    try reflexivity.
  intros H. discriminate H.
Defined.
